(** * music_data_utils: the token codec, embedded and verified

    A shallow embedding of [src/music_data_utils.py]: the hybrid quantizer
    [snap_to_grid], the pitch-centre analysis [_get_pitch_median], the token
    encoder [_generate_tokens_from_events], the augmentation branch of
    [parse_midi_to_tokens] and the token decoder of [tokens_to_midi].

    Numbers.  Python's [float] values (offsets, durations, clock values) are
    modelled by canonical rationals [Qc]: arithmetic is exact, equality of
    times is Leibniz equality, and infinities and NaN do not exist.  Python's
    [int] values (pitches, step counts, semitones) are [Z].

    The code computes in binary64.  The exact reading agrees with it where
    no operation rounds: on times that are whole numbers of steps of 1/8 of
    moderate size ([exact_time], [exact_time_binary64]), which the quantizer
    returns unchanged in both readings ([snap_to_grid_binary64_eighths]).
    Properties that depend on the values of the arithmetic are stated on
    such times; the properties of the structure of the token stream and of
    the decoder use the quantizer only through the test [dur > 0] and hold
    for any quantizer.  The contract of the quantizer itself is proved on
    [snap_to_grid_binary64], in which every operation is rounded to
    binary64. *)

From Stdlib Require Import ZArith QArith Qcanon Qround Qabs Qcabs Qpower.
From Stdlib Require Import List Bool Ascii String Decimal DecimalString DecimalZ.
From Stdlib Require Import Sorted Permutation Lia Lqa.
Import ListNotations.

Local Open Scope Z_scope.

(** * Part I: the program *)

(** ** Numeric layer *)

Module PyNum.

Definition Qc_eqb (x y : Qc) : bool := Qeq_bool x y.

Definition Qc_ltb (x y : Qc) : bool :=
  match (x ?= y)%Qc with Lt => true | _ => false end.

Definition Qc_leb (x y : Qc) : bool :=
  match (x ?= y)%Qc with Gt => false | _ => true end.

Definition Z2Qc (z : Z) : Qc := Q2Qc (inject_Z z).

(** [round(x)] with one argument: the nearest integer, ties to the even
    one. *)
Definition py_round (x : Qc) : Z :=
  let f := Qfloor x in
  match ((x - inject_Z f) ?= (1 # 2))%Q with
  | Lt => f
  | Gt => f + 1
  | Eq => if Z.even f then f else f + 1
  end.

(** [round(x, 3)]: the nearest multiple of 1/1000, ties to the even one. *)
Definition py_round3 (x : Qc) : Qc :=
  (Z2Qc (py_round (x * Z2Qc 1000)) / Z2Qc 1000)%Qc.

(** The two-argument [min(a, b)] of Python: [b] when [b < a], else [a]. *)
Definition py_min (a b : Qc) : Qc := if Qc_ltb b a then b else a.

(** The two-argument [max] and [min] on integers. *)
Definition py_maxZ (a b : Z) : Z := if a <? b then b else a.
Definition py_minZ (a b : Z) : Z := if b <? a then b else a.

End PyNum.
Import PyNum.

(** ** Quantizer *)

(** The quantizer with its arithmetic read as exact; the encoder below uses
    it.  The binary64 reading follows it. *)

Definition grid_binary : Qc := Q2Qc (1 # 8).
Definition grid_ternary : Qc := (Z2Qc 1 / Z2Qc 12)%Qc.
Definition noise_threshold : Qc := Q2Qc (4 # 100).

Definition snap_to_grid (duration : Qc) : Qc :=
  let steps_bin := py_round (duration / grid_binary)%Qc in
  let snapped_bin := (Z2Qc steps_bin * grid_binary)%Qc in
  let error_bin := Qcabs (duration - snapped_bin)%Qc in
  let steps_ter := py_round (duration / grid_ternary)%Qc in
  let snapped_ter := (Z2Qc steps_ter * grid_ternary)%Qc in
  let error_ter := Qcabs (duration - snapped_ter)%Qc in
  if Qc_ltb duration noise_threshold then Q2Qc 0
  else if Qc_leb error_bin error_ter then py_round3 snapped_bin
  else py_round3 snapped_ter.

(** ** The quantizer in binary64 *)

(** [snap_to_grid] above reads the arithmetic of the code as exact.  The
    code computes in IEEE 754 binary64: each quotient, product and
    difference is the exact result rounded to the nearest binary64 number,
    ties to the even mantissa.  [b64] is that rounding on the rationals, and
    [snap_to_grid_binary64] is the quantizer with every operation rounded.
    Signed zeros are not distinguished; no operation here makes a NaN out of
    finite numbers. *)

(** [2 ^ z]. *)
Definition pow2 (z : Z) : Q := (2 ^ z)%Q.

(** The binary exponent of [x <> 0]: the [e] with [2^e <= |x| < 2^(e+1)]. *)
Definition ilog2 (x : Q) : Z :=
  let e := Z.log2 (Z.abs (Qnum x)) - Z.log2 (Zpos (Qden x)) in
  if Qle_bool (pow2 e) (Qabs x) then e else e - 1.

(** The binary64 number nearest to [x]: [x] is rounded to a multiple of the
    quantum [2^(e-52)] of its binade, [2^-1074] for subnormal numbers, ties
    to the even multiple.  [None] when the rounded magnitude reaches
    [2^1024]: the result is an infinity. *)
Definition b64 (x : Q) : option Qc :=
  if Qeq_bool x 0 then Some (Q2Qc 0)
  else
    let q := Z.max (ilog2 x - 52) (-1074) in
    let m := py_round (Q2Qc (x / pow2 q)) in
    let r := (inject_Z m * pow2 q)%Q in
    if Qle_bool (pow2 1024) (Qabs r) then None else Some (Q2Qc r).

(** A literal or a constant expression, which is finite. *)
Definition float_lit (x : Q) : Qc :=
  match b64 x with Some y => y | None => Q2Qc 0 end.

(** [1.0 / 12.0] and the literal [0.04]. *)
Definition grid_ternary_b64 : Qc := float_lit (1 / 12).
Definition noise_threshold_b64 : Qc := float_lit (4 # 100).

(** [round(duration / grid) * grid]: the quotient is rounded to binary64,
    [round()] takes it to the nearest integer and raises OverflowError on
    an infinity, and the product with the step count is rounded again. *)
Definition snapped_b64 (duration grid : Qc) : option Qc :=
  match b64 (duration / grid)%Qc with
  | Some quotient => b64 (Z2Qc (py_round quotient) * grid)%Qc
  | None => None
  end.

(** [abs(duration - snapped)]. *)
Definition error_b64 (duration snapped : Qc) : option Qc :=
  option_map Qcabs (b64 (duration - snapped)%Qc).

(** [round(x, 3)]: the exact value of [x] is rounded to thousandths, ties
    to the even one, and the decimal result is converted to the nearest
    binary64 number. *)
Definition py_round3_b64 (x : Qc) : option Qc :=
  b64 (Z2Qc (py_round (x * Z2Qc 1000)) / Z2Qc 1000)%Qc.

(** [snap_to_grid] in binary64.  [None]: the computation has left the
    finite numbers; in the code [round()] has raised OverflowError on an
    infinite quotient. *)
Definition snap_to_grid_binary64 (duration : Qc) : option Qc :=
  match snapped_b64 duration grid_binary with
  | None => None
  | Some snapped_bin =>
      match error_b64 duration snapped_bin with
      | None => None
      | Some error_bin =>
          match snapped_b64 duration grid_ternary_b64 with
          | None => None
          | Some snapped_ter =>
              match error_b64 duration snapped_ter with
              | None => None
              | Some error_ter =>
                  if Qc_ltb duration noise_threshold_b64 then Some (Q2Qc 0)
                  else if Qc_leb error_bin error_ter then py_round3_b64 snapped_bin
                  else py_round3_b64 snapped_ter
              end
          end
      end
  end.

(** ** Data model *)

(** A raw event is the tuple [(offset, duration, pitches)]. *)
Definition RawEvent : Type := Qc * Qc * list Z.

(** The three values the encoder interpolates into one token string: the
    sorted pitches of the ON field, the sorted pitches of the OFF field (an
    empty list is printed as the sentinel ["_"]) and the duration. *)
Record Token : Type := mkToken {
  tok_on : list Z;
  tok_off : list Z;
  tok_dur : Qc
}.

(** ** Text layer: [str], [join], [split], [format] *)

Local Open Scope string_scope.

(** [str(p)] for an integer. *)
Definition py_str (z : Z) : string := NilZero.string_of_int (Z.to_int z).

Definition digit_uint (n : Z) (d : uint) : uint :=
  match n with
  | 0%Z => D0 d | 1%Z => D1 d | 2%Z => D2 d | 3%Z => D3 d | 4%Z => D4 d
  | 5%Z => D5 d | 6%Z => D6 d | 7%Z => D7 d | 8%Z => D8 d | _ => D9 d
  end.

(** The three decimals of [m / 1000] for [0 <= m < 1000]. *)
Definition three_digits (m : Z) : uint :=
  digit_uint (m / 100) (digit_uint ((m / 10) mod 10) (digit_uint (m mod 10) Nil)).

(** [f"{dur:.3f}"]: the value rounded to three decimals, ties to even, in
    fixed notation.  The encoder only formats non-negative durations. *)
Definition format_3f (dur : Qc) : string :=
  let n := py_round (dur * Z2Qc 1000)%Qc in
  let a := Z.abs n in
  (if (n <? 0)%Z then "-" else "") ++
  py_str (a / 1000) ++ "." ++ NilEmpty.string_of_uint (three_digits (a mod 1000)).

(** [",".join(map(str, pitches)) if pitches else "_"]. *)
Definition str_pitches (l : list Z) : string :=
  match l with
  | [] => "_"
  | _ => String.concat "," (map py_str l)
  end.

(** [f"ON={str_on};OFF={str_off};DUR={dur:.3f}"]. *)
Definition format_token (tok : Token) : string :=
  "ON=" ++ str_pitches (tok_on tok) ++ ";OFF=" ++ str_pitches (tok_off tok) ++
  ";DUR=" ++ format_3f (tok_dur tok).

(** [s.split(sep)] for a one-character separator. *)
Fixpoint split (sep : ascii) (s : string) : list string :=
  match s with
  | EmptyString => [EmptyString]
  | String c s' =>
      if Ascii.eqb c sep then EmptyString :: split sep s'
      else match split sep s' with
           | [] => [String c EmptyString]
           | h :: t => String c h :: t
           end
  end.

Local Close Scope string_scope.

(** ** Encoder *)

(** [defaultdict(list)] keyed by a time, in insertion order of the keys. *)
Definition tmap : Type := list (Qc * list Z).

(** [m[k].append(p)]. *)
Fixpoint tmap_append (k : Qc) (p : Z) (m : tmap) : tmap :=
  match m with
  | [] => [(k, [p])]
  | (k', l) :: m' =>
      if Qc_eqb k k' then (k', l ++ [p]) :: m' else (k', l) :: tmap_append k p m'
  end.

(** [m.get(k, [])]. *)
Fixpoint tmap_get (k : Qc) (m : tmap) : list Z :=
  match m with
  | [] => []
  | (k', l) :: m' => if Qc_eqb k k' then l else tmap_get k m'
  end.

Definition tmap_keys (m : tmap) : list Qc := map fst m.

(** The pitches of one event after transposition, inside the MIDI range. *)
Definition valid_pitches (transpose_semitones : Z) (pitches : list Z) : list Z :=
  filter (fun new_p => (0 <=? new_p) && (new_p <=? 127))
         (map (fun p => p + transpose_semitones) pitches).

Definition add_event (transpose_semitones : Z) (maps : tmap * tmap) (ev : RawEvent)
  : tmap * tmap :=
  let '(offset, duration, pitches) := ev in
  let end_time := (offset + duration)%Qc in
  fold_left (fun (acc : tmap * tmap) p =>
               (tmap_append offset p (fst acc), tmap_append end_time p (snd acc)))
            (valid_pitches transpose_semitones pitches) maps.

(** Step 1: [start_map] and [end_map]. *)
Definition build_maps (raw_events : list RawEvent) (transpose_semitones : Z)
  : tmap * tmap :=
  fold_left (add_event transpose_semitones) raw_events ([], []).

(** [sorted(list(set(...)))] on times: insertion into a strictly increasing
    list, an element already present being dropped. *)
Fixpoint insert_time (t : Qc) (l : list Qc) : list Qc :=
  match l with
  | [] => [t]
  | u :: l' =>
      if Qc_ltb t u then t :: l
      else if Qc_eqb t u then l
      else u :: insert_time t l'
  end.

Definition sorted_set (l : list Qc) : list Qc := fold_right insert_time [] l.

Definition all_times_of (start_map end_map : tmap) : list Qc :=
  sorted_set (tmap_keys start_map ++ tmap_keys end_map).

(** Python sets of pitches, as duplicate-free lists. *)
Definition pset : Type := list Z.
Definition pset_mem (p : Z) (s : pset) : bool := existsb (Z.eqb p) s.
Definition pset_add (p : Z) (s : pset) : pset := if pset_mem p s then s else p :: s.
Definition pset_remove (p : Z) (s : pset) : pset := filter (fun q => negb (q =? p)) s.
Definition pset_inter (a b : pset) : pset := filter (fun p => pset_mem p b) a.
Definition pset_nonempty (s : pset) : bool := match s with [] => false | _ => true end.

(** [sorted(list(s))] on pitches. *)
Fixpoint insert_pitch (p : Z) (l : list Z) : list Z :=
  match l with
  | [] => [p]
  | q :: l' => if p <=? q then p :: l else q :: insert_pitch p l'
  end.

Definition sorted_pitches (s : pset) : list Z := fold_right insert_pitch [] s.

(** [note_state]: the per-pitch counter, 0 for a pitch never touched. *)
Definition counters : Type := Z -> Z.
Definition counters_set (ns : counters) (p : Z) (v : Z) : counters :=
  fun q => if q =? p then v else ns q.

Record sweep_state : Type := mkSweep {
  tokens : list Token;
  note_state : counters;
  prev_time : Qc;
  pending_on : pset;
  pending_off : pset
}.

(** A. one ending pitch: the counter goes down, and at exactly 0 the pitch
    joins [pending_off]. *)
Definition process_ending (acc : counters * pset) (p : Z) : counters * pset :=
  let ns := counters_set (fst acc) p (fst acc p - 1) in
  (ns, if ns p =? 0 then pset_add p (snd acc) else snd acc).

(** B. one starting pitch. *)
Definition process_starting (acc : counters * pset) (p : Z) : counters * pset :=
  (counters_set (fst acc) p (fst acc p + 1), pset_add p (snd acc)).

(** One iteration of the main loop at time [t]; [next] is [all_times[i+1]],
    absent on the last event. *)
Definition sweep_step (start_map end_map : tmap) (st : sweep_state)
    (t : Qc) (next : option Qc) : sweep_state :=
  let a := fold_left process_ending (tmap_get t end_map)
                     (note_state st, pending_off st) in
  let b := fold_left process_starting (tmap_get t start_map)
                     (fst a, pending_on st) in
  let pending_on := snd b in
  let intersection := pset_inter pending_on (snd a) in
  let pending_off := fold_left (fun s p => pset_remove p s) intersection (snd a) in
  let is_last_event := match next with None => true | Some _ => false end in
  let dur := match next with
             | Some next_t => snap_to_grid (next_t - prev_time st)%Qc
             | None => Q2Qc 0
             end in
  if Qc_ltb (Q2Qc 0) dur || is_last_event then
    if pset_nonempty pending_on || pset_nonempty pending_off || Qc_ltb (Q2Qc 0) dur
    then
      let on := if is_last_event then [] else sorted_pitches pending_on in
      mkSweep (tokens st ++ [mkToken on (sorted_pitches pending_off) dur])
              (fst b)
              (match next with Some next_t => next_t | None => prev_time st end)
              [] []
    else mkSweep (tokens st) (fst b) (prev_time st) pending_on pending_off
  else mkSweep (tokens st) (fst b) (prev_time st) pending_on pending_off.

(** The loop over [all_times]; the head of the remaining list is the
    current time and its tail decides [is_last_event]. *)
Fixpoint sweep (start_map end_map : tmap) (times : list Qc) (st : sweep_state)
  : sweep_state :=
  match times with
  | [] => st
  | t :: rest => sweep start_map end_map rest
                       (sweep_step start_map end_map st t (hd_error rest))
  end.

(** Step 2 and 3: the sorted time points and the sweep over them. *)
Definition sweep_all (start_map end_map : tmap) : list Token :=
  let all_times := all_times_of start_map end_map in
  match all_times with
  | [] => []
  | t0 :: _ =>
      tokens (sweep start_map end_map all_times
                    (mkSweep [] (fun _ => 0) t0 [] []))
  end.

Definition token_records (raw_events : list RawEvent) (transpose_semitones : Z)
  : list Token :=
  let maps := build_maps raw_events transpose_semitones in
  sweep_all (fst maps) (snd maps).

Definition _generate_tokens_from_events (raw_events : list RawEvent)
    (transpose_semitones : Z) : list string :=
  map format_token (token_records raw_events transpose_semitones).

(** ** Pitch-centre analysis and augmentation *)

(** [int(x)] on a float: truncation toward zero. *)
Definition py_int_trunc (x : Qc) : Z := Z.quot (Qnum x) (Zpos (Qden x)).

(** [statistics.median(data)] on a non-empty list of integers: the middle
    element of the sorted data, or the mean of the two middle elements.  The
    mean is exact here; binary64 gives the same for pitches of magnitude at
    most [2^52], MIDI pitches among them. *)
Definition statistics_median (data : list Z) : Qc :=
  let data := sorted_pitches data in
  let n := List.length data in
  if Nat.eqb (n mod 2) 1 then Z2Qc (nth (n / 2) data 0)
  else
    let i := (n / 2)%nat in
    let two_middle := nth (i - 1) data 0 + nth i data 0 in
    (Z2Qc two_middle / Z2Qc 2)%Qc.

Definition _get_pitch_median (raw_events : list RawEvent) : Z :=
  let all_pitches := flat_map (fun e : RawEvent => snd e) raw_events in
  match all_pitches with
  | [] => 60
  | _ => py_int_trunc (statistics_median all_pitches)
  end.

(** [range(a, b)]. *)
Definition py_range (a b : Z) : list Z :=
  map (fun i => a + Z.of_nat i) (seq 0 (Z.to_nat (b - a))).

(** [shift = max(-6, min(5, shift_ideal))]. *)
Definition augment_shift (median_pitch : Z) : Z :=
  let shift_ideal := 60 - median_pitch in
  py_maxZ (-6) (py_minZ 5 shift_ideal).

(** [shifts = range(shift - 5, shift + 7)]. *)
Definition augment_shifts (median_pitch : Z) : list Z :=
  let shift := augment_shift median_pitch in
  py_range (shift - 5) (shift + 7).

(** One round of the augmentation loop: the variant is kept when the
    encoder returned some token. *)
Definition augment_variant (raw_events : list RawEvent) (tempo : Z) (semitone : Z)
  : list (list string * Z) :=
  match _generate_tokens_from_events raw_events semitone with
  | [] => []
  | tokens => [(tokens, tempo)]
  end.

(** [parse_midi_to_tokens] after the file has been read: [score] is [None]
    when reading failed, and otherwise holds the raw events extracted from
    the score and the tempo of its metadata. *)
Definition parse_midi_to_tokens (score : option (list RawEvent * Z)) (augment : bool)
  : list (list string * Z) :=
  match score with
  | None => []
  | Some (raw_events, tempo) =>
      if negb augment then [(_generate_tokens_from_events raw_events 0, tempo)]
      else
        let median_pitch := _get_pitch_median raw_events in
        flat_map (augment_variant raw_events tempo) (augment_shifts median_pitch)
  end.

(** ** Decoder *)

(** A decoded note is the tuple [(pitch, start, duration)]. *)
Definition Note : Type := Z * Qc * Qc.

Definition MAX_NOTE_DURATION : Qc := Z2Qc 8.

(** The decoder's [note_state]: [defaultdict(lambda: {'start': None})],
    the pitches in the order in which they were first touched. *)
Definition starts : Type := list (Z * option Qc).

(** [note_state[pitch]['start']]; a pitch never touched reads [None]. *)
Fixpoint starts_get (pitch : Z) (ns : starts) : option Qc :=
  match ns with
  | [] => None
  | (q, v) :: ns' => if q =? pitch then v else starts_get pitch ns'
  end.

(** [note_state[pitch]['start'] = v]; a new pitch goes to the end. *)
Fixpoint starts_set (pitch : Z) (v : option Qc) (ns : starts) : starts :=
  match ns with
  | [] => [(pitch, v)]
  | (q, w) :: ns' =>
      if q =? pitch then (q, v) :: ns' else (q, w) :: starts_set pitch v ns'
  end.

Record dec_state : Type := mkDec {
  current_time : Qc;
  dec_note_state : starts;
  collected_notes : list Note;
  reports : list (nat * string)
}.

(** The interval of [pitch] closed at [now], when the pitch is open and the
    elapsed time is positive. *)
Definition close_open (now : Qc) (pitch : Z) (ns : starts) (collected : list Note)
  : list Note :=
  match starts_get pitch ns with
  | Some start =>
      let raw_duration := (now - start)%Qc in
      if Qc_ltb (Q2Qc 0) raw_duration
      then collected ++ [(pitch, start, py_min raw_duration MAX_NOTE_DURATION)]
      else collected
  | None => collected
  end.

(** A. one pitch of the OFF field. *)
Definition note_off (st : dec_state) (pitch : Z) : dec_state :=
  mkDec (current_time st)
        (starts_set pitch None (dec_note_state st))
        (close_open (current_time st) pitch (dec_note_state st) (collected_notes st))
        (reports st).

(** B. one pitch of the ON field: a pitch still open is closed first. *)
Definition note_on (st : dec_state) (pitch : Z) : dec_state :=
  mkDec (current_time st)
        (starts_set pitch (Some (current_time st)) (dec_note_state st))
        (close_open (current_time st) pitch (dec_note_state st) (collected_notes st))
        (reports st).

(** The [except] branch: the token is reported with its index; whatever the
    [try] body had already changed stays changed. *)
Definition report (i : nat) (token : string) (st : dec_state) : dec_state :=
  mkDec (current_time st) (dec_note_state st) (collected_notes st)
        (reports st ++ [(i, token)]).

(** [parts[n].split('=')[1]]; [None] stands for the [IndexError]. *)
Definition field_value (parts : list string) (n : nat) : option string :=
  match nth_error parts n with
  | Some part => nth_error (split "=" part) 1
  | None => None
  end.

Section Decoder.

(** The builtins [int] and [float] on strings; [None] stands for the
    [ValueError]. *)
Variable py_int : string -> option Z.
Variable py_float : string -> option Qc.

(** [[int(x) for x in xs]]. *)
Fixpoint int_list (xs : list string) : option (list Z) :=
  match xs with
  | [] => Some []
  | x :: xs' =>
      match py_int x with
      | Some v => option_map (cons v) (int_list xs')
      | None => None
      end
  end.

(** The three fields read at the top of the [try] body. *)
Definition token_fields (token : string) : option (string * string * Qc) :=
  let parts := split ";" token in
  match field_value parts 0 with
  | None => None
  | Some on_part =>
      match field_value parts 1 with
      | None => None
      | Some off_part =>
          match field_value parts 2 with
          | None => None
          | Some dur_text =>
              match py_float dur_text with
              | None => None
              | Some dur_part => Some (on_part, off_part, dur_part)
              end
          end
      end
  end.

(** The body of the loop over [enumerate(tokens)]. *)
Definition apply_token (st : dec_state) (i : nat) (token : string) : dec_state :=
  match token_fields token with
  | None => report i token st
  | Some (on_part, off_part, dur_part) =>
      let after_off :=
        if String.eqb off_part "_" then Some st
        else option_map (fun off_pitches => fold_left note_off off_pitches st)
                        (int_list (split "," off_part)) in
      match after_off with
      | None => report i token st
      | Some st1 =>
          let after_on :=
            if String.eqb on_part "_" then Some st1
            else option_map (fun on_pitches => fold_left note_on on_pitches st1)
                            (int_list (split "," on_part)) in
          match after_on with
          | None => report i token st1
          | Some st2 =>
              mkDec (current_time st2 + dur_part)%Qc (dec_note_state st2)
                    (collected_notes st2) (reports st2)
          end
      end
  end.

Fixpoint decode_from (i : nat) (tokens : list string) (st : dec_state) : dec_state :=
  match tokens with
  | [] => st
  | token :: rest => decode_from (S i) rest (apply_token st i token)
  end.

Definition decode_loop (tokens : list string) : dec_state :=
  decode_from 0 tokens (mkDec (Q2Qc 0) [] [] []).

End Decoder.

(** 2. the final clean-up: one pitch that never received its OFF. *)
Definition flush_pitch (now : Qc) (entry : Z * option Qc) : list Note :=
  match snd entry with
  | Some start =>
      let raw_duration := (now - start)%Qc in
      let final_dur := py_min raw_duration MAX_NOTE_DURATION in
      if Qc_ltb (Q2Qc 0) final_dur then [(fst entry, start, final_dur)] else []
  | None => []
  end.

Definition flush_notes (st : dec_state) : list Note :=
  flat_map (flush_pitch (current_time st)) (dec_note_state st).

(** [collected_notes.sort(key=lambda x: x[1])]: a stable sort by start. *)
Fixpoint insert_note (n : Note) (l : list Note) : list Note :=
  match l with
  | [] => [n]
  | m :: l' =>
      if Qc_leb (snd (fst n)) (snd (fst m)) then n :: l else m :: insert_note n l'
  end.

Definition sort_by_start (l : list Note) : list Note := fold_right insert_note [] l.

(** [tokens_to_midi] up to the hand-over to the score writer: the sorted
    notes, the tempo ([metadata.get('tempo', 120)]) and the reported
    tokens. *)
Definition tokens_to_midi (py_int : string -> option Z) (py_float : string -> option Qc)
    (tokens : list string) (metadata_tempo : option Z)
  : list Note * Z * list (nat * string) :=
  let st := decode_loop py_int py_float tokens in
  (sort_by_start (collected_notes st ++ flush_notes st),
   match metadata_tempo with Some bpm => bpm | None => 120 end,
   reports st).

(** ** The literals the encoder writes, read back

    [int] and [float] restricted to plain decimal literals: an optional minus
    sign and digits, for [float] with an optional fractional part.  Python
    accepts more (surrounding blanks, exponents, [inf], [nan]); these two
    are the builtins on the strings the encoder writes.  The properties of
    the decoder on arbitrary tokens take [int] and [float] as parameters. *)

Definition int_of_decimal (s : string) : option Z :=
  option_map Z.of_int (NilZero.int_of_string s).

Definition unsigned_float_of_decimal (s : string) : option Qc :=
  match split "." s with
  | [ip] =>
      match NilZero.uint_of_string ip with
      | Some a => Some (Z2Qc (Z.of_uint a))
      | None => None
      end
  | [ip; fp] =>
      match NilEmpty.uint_of_string ip, NilEmpty.uint_of_string fp with
      | Some a, Some b =>
          if String.eqb ip "" && String.eqb fp "" then None
          else
            let scale := 10 ^ Z.of_nat (String.length fp) in
            Some (Z2Qc (Z.of_uint a * scale + Z.of_uint b) / Z2Qc scale)%Qc
      | _, _ => None
      end
  | _ => None
  end.

Definition float_of_decimal (s : string) : option Qc :=
  match s with
  | EmptyString => None
  | String c s' =>
      if Ascii.eqb c "-" then option_map Qcopp (unsigned_float_of_decimal s')
      else unsigned_float_of_decimal s
  end.

(** * Part II: properties *)

(** ** Facts about the numeric layer *)

Lemma Qc_ltb_spec (x y : Qc) : reflect (x < y)%Qc (Qc_ltb x y).
Proof.
  unfold Qc_ltb. destruct (x ?= y)%Qc eqn:E; constructor.
  - apply Qceq_alt in E. subst. apply Qcle_not_lt, Qcle_refl.
  - now apply Qclt_alt.
  - apply Qcgt_alt in E. apply Qcle_not_lt, Qclt_le_weak. exact E.
Qed.

Lemma Qc_leb_spec (x y : Qc) : reflect (x <= y)%Qc (Qc_leb x y).
Proof.
  unfold Qc_leb. destruct (x ?= y)%Qc eqn:E; constructor.
  - apply Qceq_alt in E. subst. apply Qcle_refl.
  - apply Qclt_le_weak. now apply Qclt_alt.
  - apply Qcgt_alt in E. apply Qclt_not_le. exact E.
Qed.

Lemma Qc_eqb_spec (x y : Qc) : reflect (x = y) (Qc_eqb x y).
Proof.
  unfold Qc_eqb. destruct (Qeq_bool x y) eqn:E; constructor.
  - apply Qc_is_canon. now apply Qeq_bool_iff.
  - intros ->. assert (Qeq_bool y y = true) by (apply Qeq_bool_iff; reflexivity).
    congruence.
Qed.

Lemma Qc_eqb_refl (x : Qc) : Qc_eqb x x = true.
Proof. destruct (Qc_eqb_spec x x); congruence. Qed.

Lemma Qc_ltb_true (x y : Qc) : (x < y)%Qc -> Qc_ltb x y = true.
Proof. intros H. destruct (Qc_ltb_spec x y); [reflexivity | contradiction]. Qed.

Lemma Qc_ltb_false (x y : Qc) : (y <= x)%Qc -> Qc_ltb x y = false.
Proof.
  intros H. destruct (Qc_ltb_spec x y) as [Hlt |]; [| reflexivity].
  exfalso. exact (Qcle_not_lt _ _ H Hlt).
Qed.

Lemma Qc_leb_true (x y : Qc) : (x <= y)%Qc -> Qc_leb x y = true.
Proof. intros H. destruct (Qc_leb_spec x y); [reflexivity | contradiction]. Qed.

Lemma Qc_eqb_lt (x y : Qc) : (x < y)%Qc -> Qc_eqb x y = false /\ Qc_eqb y x = false.
Proof.
  intros H. split.
  - destruct (Qc_eqb_spec x y) as [-> |]; [| reflexivity].
    exfalso. exact (Qcle_not_lt _ _ (Qcle_refl y) H).
  - destruct (Qc_eqb_spec y x) as [-> |]; [| reflexivity].
    exfalso. exact (Qcle_not_lt _ _ (Qcle_refl x) H).
Qed.

(** Unfolds the canonical operations to plain rational arithmetic. *)
Ltac qc_unfold :=
  unfold Qcle, Qclt, Qcdiv, Qcminus, Qcplus, Qcmult, Qcopp, Qcinv, Z2Qc, Q2Qc in *;
  cbn [this] in *;
  repeat (rewrite Qred_correct in * ).

(** The same on the goal alone, also under [Qabs]. *)
Ltac qc_goal :=
  unfold Qcle, Qclt, Qcabs, Qcdiv, Qcminus, Qcplus, Qcmult, Qcopp, Qcinv, Z2Qc, Q2Qc;
  cbn [this]; repeat (setoid_rewrite Qred_correct).

Lemma Qfloor_nonneg (x : Q) : (0 <= x)%Q -> 0 <= Qfloor x.
Proof.
  intros H. change 0 with (Qfloor 0). now apply Qfloor_resp_le.
Qed.

Lemma py_round_cases (x : Qc) : py_round x = Qfloor x \/ py_round x = Qfloor x + 1.
Proof.
  unfold py_round.
  destruct (_ ?= _)%Q; auto. destruct (Z.even _); auto.
Qed.

Lemma py_round_nonneg (x : Qc) : (Q2Qc 0 <= x)%Qc -> 0 <= py_round x.
Proof.
  intros H. assert (0 <= Qfloor x) by (apply Qfloor_nonneg; exact H).
  destruct (py_round_cases x) as [-> | ->]; lia.
Qed.

Lemma py_round_Z (n : Z) : py_round (Z2Qc n) = n.
Proof.
  unfold py_round.
  assert (E : Qfloor (Z2Qc n) = n).
  { unfold Z2Qc, Q2Qc. cbn [this]. rewrite (Qfloor_comp _ _ (Qred_correct _)).
    apply Qfloor_Z. }
  rewrite E.
  assert (L : ((Z2Qc n : Q) - inject_Z n ?= 1 # 2)%Q = Lt).
  { apply (proj1 (Qlt_alt _ _)). unfold Z2Qc, Q2Qc. cbn [this]. rewrite Qred_correct. lra. }
  now rewrite L.
Qed.

(** [py_round] returns a nearest integer. *)
Lemma py_round_nearest (x : Qc) :
  (Qabs (x - inject_Z (py_round x)) <= 1 # 2)%Q.
Proof.
  pose proof (Qfloor_le x) as Hlo. pose proof (Qlt_floor x) as Hhi.
  rewrite inject_Z_plus in Hhi. change (inject_Z 1) with 1%Q in Hhi.
  unfold py_round.
  destruct (_ ?= _)%Q eqn:E.
  - apply (proj2 (Qeq_alt _ _)) in E. destruct (Z.even _);
      [| rewrite inject_Z_plus; change (inject_Z 1) with 1%Q];
      apply Qabs_Qle_condition; split; lra.
  - apply (proj2 (Qlt_alt _ _)) in E. apply Qabs_Qle_condition; split; lra.
  - apply (proj2 (Qgt_alt _ _)) in E. rewrite inject_Z_plus.
    change (inject_Z 1) with 1%Q. apply Qabs_Qle_condition; split; lra.
Qed.

Lemma Z2Qc_nonneg (n : Z) : 0 <= n -> (Q2Qc 0 <= Z2Qc n)%Qc.
Proof.
  intros H. qc_unfold. change 0%Q with (inject_Z 0). now rewrite <- Zle_Qle.
Qed.

Lemma Qc_mult_nonneg (x y : Qc) :
  (Q2Qc 0 <= x)%Qc -> (Q2Qc 0 <= y)%Qc -> (Q2Qc 0 <= x * y)%Qc.
Proof.
  intros Hx Hy. qc_unfold. now apply Qmult_le_0_compat.
Qed.

Lemma Qc_div_nonneg (x y : Qc) :
  (Q2Qc 0 <= x)%Qc -> (Q2Qc 0 < y)%Qc -> (Q2Qc 0 <= x / y)%Qc.
Proof.
  intros Hx Hy. qc_unfold. apply Qmult_le_0_compat; [exact Hx |].
  apply Qlt_le_weak, Qinv_lt_0_compat. exact Hy.
Qed.

Lemma py_round3_nonneg (x : Qc) : (Q2Qc 0 <= x)%Qc -> (Q2Qc 0 <= py_round3 x)%Qc.
Proof.
  intros H. unfold py_round3. apply Qc_div_nonneg; [| reflexivity].
  apply Z2Qc_nonneg, py_round_nonneg, Qc_mult_nonneg; [exact H | discriminate].
Qed.

(** A multiple of 1/8 has at most three decimals: rounding keeps it. *)
Lemma py_round3_grid_binary (k : Z) :
  py_round3 (Z2Qc k * grid_binary) = (Z2Qc k * grid_binary)%Qc.
Proof.
  unfold py_round3.
  assert (E : (Z2Qc k * grid_binary * Z2Qc 1000)%Qc = Z2Qc (125 * k)).
  { apply Qc_is_canon. unfold grid_binary. qc_unfold. rewrite inject_Z_mult.
    change (inject_Z 125) with 125%Q. change (inject_Z 1000) with 1000%Q. field. }
  rewrite E, py_round_Z.
  apply Qc_is_canon. unfold grid_binary. qc_unfold. rewrite inject_Z_mult.
  change (inject_Z 125) with 125%Q. change (inject_Z 1000) with 1000%Q. field.
Qed.

(** ** Facts about binary64 rounding *)

Lemma pow2_pos (z : Z) : (0 < pow2 z)%Q.
Proof. apply Qpower_0_lt. reflexivity. Qed.

Lemma pow2_le (a b : Z) : a <= b -> (pow2 a <= pow2 b)%Q.
Proof. intros H. apply Qpower_le_compat_l; [exact H | discriminate]. Qed.

Lemma pow2_le_inv (a b : Z) : (pow2 a <= pow2 b)%Q -> a <= b.
Proof. intros H. apply (Qpower_le_compat_l_inv 2); [exact H | reflexivity]. Qed.

Lemma pow2_add (a b : Z) : (pow2 (a + b) == pow2 a * pow2 b)%Q.
Proof. apply Qpower_plus. discriminate. Qed.

Lemma pow2_sub (a b : Z) : (pow2 (a - b) == pow2 a / pow2 b)%Q.
Proof. apply Qpower_minus. discriminate. Qed.

Lemma pow2_Z (n : Z) : 0 <= n -> (pow2 n == inject_Z (2 ^ n))%Q.
Proof. intros H. unfold pow2. now rewrite Zpower_Qpower. Qed.

Lemma Qabs_Qmake (x : Q) : Qabs x = (Z.abs (Qnum x) # Qden x).
Proof. destruct x. reflexivity. Qed.

(** [ilog2 x] does not overshoot: [2 ^ ilog2 x <= |x|]. *)
Lemma ilog2_lower (x : Q) : ~ (x == 0)%Q -> (pow2 (ilog2 x) <= Qabs x)%Q.
Proof.
  intros Hx. unfold ilog2.
  set (n := Z.abs (Qnum x)). set (d := Zpos (Qden x)).
  set (a := Z.log2 n). set (b := Z.log2 d).
  destruct (Qle_bool (pow2 (a - b)) (Qabs x)) eqn:E.
  - now apply Qle_bool_iff.
  - assert (Hn : 0 < n).
    { subst n. destruct x as [[| p | p] q]; simpl; try lia.
      exfalso. apply Hx. reflexivity. }
    assert (Hd : 0 < d) by (subst d; lia).
    destruct (Z.log2_spec n Hn) as [Ha _]. destruct (Z.log2_spec d Hd) as [_ Hb].
    fold a in Ha. fold b in Hb.
    assert (Ha0 : 0 <= a) by apply Z.log2_nonneg.
    assert (Hb0 : 0 <= b) by apply Z.log2_nonneg.
    replace (a - b - 1) with (a - (b + 1)) by lia.
    rewrite pow2_sub, (pow2_Z a Ha0), (pow2_Z (b + 1)) by lia.
    replace (Z.succ b) with (b + 1) in Hb by lia.
    rewrite Qabs_Qmake. fold n.
    assert (HB : 0 < 2 ^ (b + 1)) by (apply Z.pow_pos_nonneg; lia).
    assert (HA : 0 < 2 ^ a) by (apply Z.pow_pos_nonneg; lia).
    apply Qle_shift_div_r.
    + change 0%Q with (inject_Z 0). now rewrite <- Zlt_Qlt.
    + unfold Qle, Qmult, inject_Z. simpl. fold d. nia.
Qed.

Lemma ilog2_le (x : Q) (N : Z) :
  ~ (x == 0)%Q -> (Qabs x <= pow2 N)%Q -> ilog2 x <= N.
Proof.
  intros Hx H. apply pow2_le_inv. eapply Qle_trans; [now apply ilog2_lower | exact H].
Qed.

(** Rounding to the nearest integer keeps integer bounds. *)
Lemma py_round_le (y : Qc) (M : Z) : (y <= inject_Z M)%Q -> py_round y <= M.
Proof.
  intros H. pose proof (py_round_nearest y) as Hn.
  apply Qabs_Qle_condition in Hn. destruct Hn as [Hn _].
  assert (L : (inject_Z (py_round y) < inject_Z (M + 1))%Q).
  { rewrite inject_Z_plus. change (inject_Z 1) with 1%Q. lra. }
  rewrite <- Zlt_Qlt in L. lia.
Qed.

Lemma py_round_ge (y : Qc) (M : Z) : (inject_Z M <= y)%Q -> M <= py_round y.
Proof.
  intros H. pose proof (py_round_nearest y) as Hn.
  apply Qabs_Qle_condition in Hn. destruct Hn as [_ Hn].
  assert (L : (inject_Z (M - 1) < inject_Z (py_round y))%Q).
  { unfold Z.sub. rewrite inject_Z_plus, inject_Z_opp. change (inject_Z 1) with 1%Q. lra. }
  rewrite <- Zlt_Qlt in L. lia.
Qed.


(** A bound by a power of two survives the rounding: no overflow below
    [2 ^ 1023]. *)
Lemma b64_bounded (N : Z) (x : Q) :
  -1074 <= N <= 1023 -> (Qabs x <= pow2 N)%Q ->
  exists y : Qc, b64 x = Some y /\ (Qabs y <= pow2 N)%Q.
Proof.
  intros HN Hx. unfold b64. destruct (Qeq_bool x 0) eqn:E0.
  - exists (Q2Qc 0). split; [reflexivity |]. apply Qlt_le_weak, pow2_pos.
  - assert (Hx0 : ~ (x == 0)%Q).
    { intros H. apply Qeq_bool_iff in H. congruence. }
    cbv zeta. set (q := Z.max (ilog2 x - 52) (-1074)).
    pose proof (ilog2_le x N Hx0 Hx) as He.
    assert (Hq : q <= N) by (subst q; lia).
    set (m := py_round (Q2Qc (x / pow2 q))).
    assert (Hp : (pow2 N == inject_Z (2 ^ (N - q)) * pow2 q)%Q).
    { rewrite <- pow2_Z by lia. rewrite <- pow2_add. now replace (N - q + q) with N by lia. }
    pose proof (pow2_pos q) as Hq0.
    apply Qabs_Qle_condition in Hx. destruct Hx as [Hlo Hhi].
    assert (Hm1 : m <= 2 ^ (N - q)).
    { apply py_round_le. unfold Q2Qc. cbn [this]. rewrite Qred_correct.
      apply Qle_shift_div_r; [exact Hq0 |]. now rewrite <- Hp. }
    assert (Hm2 : - 2 ^ (N - q) <= m).
    { apply py_round_ge. unfold Q2Qc. cbn [this]. rewrite Qred_correct.
      apply Qle_shift_div_l; [exact Hq0 |]. rewrite inject_Z_opp.
      setoid_replace (- inject_Z (2 ^ (N - q)) * pow2 q)%Q with (- pow2 N)%Q; [exact Hlo |].
      rewrite Hp. ring. }
    assert (Hr : (Qabs (inject_Z m * pow2 q) <= pow2 N)%Q).
    { apply Qabs_Qle_condition. rewrite Hp.
      rewrite Zle_Qle in Hm1, Hm2.
      rewrite inject_Z_opp in Hm2.
      split.
      - setoid_replace (- (inject_Z (2 ^ (N - q)) * pow2 q))%Q
          with ((- inject_Z (2 ^ (N - q))) * pow2 q)%Q by ring.
        apply Qmult_le_compat_r; [exact Hm2 | now apply Qlt_le_weak].
      - apply Qmult_le_compat_r; [exact Hm1 | now apply Qlt_le_weak]. }
    destruct (Qle_bool (pow2 1024) (Qabs (inject_Z m * pow2 q))) eqn:Eo.
    + exfalso. apply Qle_bool_iff in Eo.
      assert (H1 : (pow2 1024 <= pow2 N)%Q) by (eapply Qle_trans; eassumption).
      apply pow2_le_inv in H1. lia.
    + exists (Q2Qc (inject_Z m * pow2 q)). split; [reflexivity |].
      unfold Q2Qc. cbn [this]. now rewrite Qred_correct.
Qed.

Lemma ilog2_upper (x : Q) : ~ (x == 0)%Q -> (Qabs x < pow2 (ilog2 x + 1))%Q.
Proof.
  intros Hx. unfold ilog2.
  set (n := Z.abs (Qnum x)). set (d := Zpos (Qden x)).
  set (a := Z.log2 n). set (b := Z.log2 d).
  destruct (Qle_bool (pow2 (a - b)) (Qabs x)) eqn:E.
  - assert (Hn : 0 < n).
    { subst n. destruct x as [[| p | p] q]; simpl; try lia.
      exfalso. apply Hx. reflexivity. }
    assert (Hd : 0 < d) by (subst d; lia).
    destruct (Z.log2_spec n Hn) as [_ Ha]. destruct (Z.log2_spec d Hd) as [Hb _].
    fold a in Ha. fold b in Hb.
    assert (Ha0 : 0 <= a) by apply Z.log2_nonneg.
    assert (Hb0 : 0 <= b) by apply Z.log2_nonneg.
    replace (a - b + 1) with (a + 1 - b) by lia.
    rewrite pow2_sub, (pow2_Z b Hb0), (pow2_Z (a + 1)) by lia.
    replace (Z.succ a) with (a + 1) in Ha by lia.
    rewrite Qabs_Qmake. fold n.
    assert (HB : 0 < 2 ^ b) by (apply Z.pow_pos_nonneg; lia).
    apply Qlt_shift_div_l.
    + change 0%Q with (inject_Z 0). now rewrite <- Zlt_Qlt.
    + unfold Qlt, Qmult, inject_Z. simpl. fold d. nia.
  - replace (a - b - 1 + 1) with (a - b) by lia.
    apply Qnot_le_lt. intros H. apply Qle_bool_iff in H. congruence.
Qed.

(** A number that fits the 53-bit grid of its own binade is not moved. *)
Lemma b64_exact (x : Q) (n j : Z) :
  (x == inject_Z n * pow2 j)%Q -> -1074 <= j ->
  (Qabs x < pow2 (j + 53))%Q -> (Qabs x < pow2 1024)%Q ->
  b64 x = Some (Q2Qc x).
Proof.
  intros Hx Hj Hb Ho. unfold b64. destruct (Qeq_bool x 0) eqn:E0.
  - apply Qeq_bool_iff in E0. f_equal. apply Q2Qc_eq_iff. now symmetry.
  - assert (Hx0 : ~ (x == 0)%Q).
    { intros H. apply Qeq_bool_iff in H. congruence. }
    cbv zeta. set (q := Z.max (ilog2 x - 52) (-1074)).
    assert (He : ilog2 x < j + 53).
    { apply (Qpower_lt_compat_l_inv 2); [| reflexivity].
      eapply Qle_lt_trans; [apply (ilog2_lower x Hx0) | exact Hb]. }
    assert (Hq : q <= j) by (subst q; lia).
    pose proof (pow2_pos q) as Hq0.
    assert (Hj2 : (pow2 j == inject_Z (2 ^ (j - q)) * pow2 q)%Q).
    { rewrite <- pow2_Z by lia. rewrite <- pow2_add. now replace (j - q + q) with j by lia. }
    assert (Eq : Q2Qc (x / pow2 q) = Z2Qc (n * 2 ^ (j - q))).
    { apply Q2Qc_eq_iff. rewrite inject_Z_mult, Hx, Hj2. field. lra. }
    rewrite Eq, py_round_Z.
    assert (Er : (inject_Z (n * 2 ^ (j - q)) * pow2 q == x)%Q).
    { rewrite inject_Z_mult, Hx, Hj2. ring. }
    destruct (Qle_bool (pow2 1024) (Qabs (inject_Z (n * 2 ^ (j - q)) * pow2 q))) eqn:Eo.
    + exfalso. apply Qle_bool_iff in Eo. rewrite Er in Eo. lra.
    + f_equal. now apply Q2Qc_eq_iff.
Qed.

(** Multiples of 1/8 of moderate size are binary64 numbers. *)
Lemma b64_eighths (k : Z) (x : Qc) :
  Z.abs k <= 2 ^ 50 -> x = (Z2Qc k * Q2Qc (1 # 8))%Qc -> b64 x = Some x.
Proof.
  intros Hk ->. set (x := (Z2Qc k * Q2Qc (1 # 8))%Qc).
  assert (Ex : (x == inject_Z k * pow2 (-3))%Q).
  { subst x. unfold Qcmult, Z2Qc, Q2Qc. cbn [this]. rewrite !Qred_correct. reflexivity. }
  assert (Hb : (Qabs x <= pow2 47)%Q).
  { rewrite Ex. rewrite Qabs_Qmult. rewrite (Qabs_pos (pow2 (-3))) by (apply Qlt_le_weak, pow2_pos).
    setoid_replace (pow2 47) with (inject_Z (2 ^ 50) * pow2 (-3))%Q by reflexivity.
    apply Qmult_le_compat_r; [| apply Qlt_le_weak, pow2_pos].
    assert (E : Qabs (inject_Z k) = inject_Z (Z.abs k)) by reflexivity.
    rewrite E. now rewrite <- Zle_Qle. }
  rewrite (b64_exact x k (-3) Ex); [| lia | |].
  - f_equal. apply Qc_is_canon. unfold Q2Qc. cbn [this]. apply Qred_correct.
  - eapply Qle_lt_trans; [exact Hb |]. apply Qpower_lt_compat_l; [lia | reflexivity].
  - eapply Qle_lt_trans; [exact Hb |]. apply Qpower_lt_compat_l; [lia | reflexivity].
Qed.

Lemma b64_int (k : Z) : Z.abs k <= 2 ^ 50 -> b64 (Z2Qc k) = Some (Z2Qc k).
Proof.
  intros Hk.
  assert (Ex : (Z2Qc k == inject_Z k * pow2 0)%Q).
  { unfold Z2Qc, Q2Qc. cbn [this]. rewrite Qred_correct. change (pow2 0) with 1%Q. ring. }
  assert (Hb : (Qabs (Z2Qc k) <= pow2 50)%Q).
  { rewrite Ex. change (pow2 0) with 1%Q. rewrite Qmult_1_r.
    assert (E : Qabs (inject_Z k) = inject_Z (Z.abs k)) by reflexivity.
    rewrite E, (pow2_Z 50) by lia. now rewrite <- Zle_Qle. }
  rewrite (b64_exact (Z2Qc k) k 0 Ex); [| lia | |].
  - f_equal. apply Qc_is_canon. unfold Q2Qc. cbn [this]. apply Qred_correct.
  - eapply Qle_lt_trans; [exact Hb |]. apply Qpower_lt_compat_l; [lia | reflexivity].
  - eapply Qle_lt_trans; [exact Hb |]. apply Qpower_lt_compat_l; [lia | reflexivity].
Qed.


Lemma grid_ternary_b64_value :
  this grid_ternary_b64 = (6004799503160661 # 72057594037927936)%Q.
Proof. vm_compute. reflexivity. Qed.

Lemma noise_threshold_b64_value :
  this noise_threshold_b64 = (5764607523034235 # 144115188075855872)%Q.
Proof. vm_compute. reflexivity. Qed.

Lemma pow2_1000_facts :
  (1 <= pow2 1000)%Q /\ (pow2 1001 == 2 * pow2 1000)%Q /\
  (pow2 1002 == 4 * pow2 1000)%Q /\ (pow2 1003 == 8 * pow2 1000)%Q /\
  (pow2 1004 == 16 * pow2 1000)%Q.
Proof.
  split; [change 1%Q with (pow2 0); apply pow2_le; lia |].
  split; [change 1001 with (1 + 1000); now rewrite pow2_add |].
  split; [change 1002 with (2 + 1000); now rewrite pow2_add |].
  split; [change 1003 with (3 + 1000); now rewrite pow2_add |].
  change 1004 with (4 + 1000). now rewrite pow2_add.
Qed.

Lemma py_round_near (y : Qc) :
  (y - (1 # 2) <= inject_Z (py_round y))%Q /\ (inject_Z (py_round y) <= y + (1 # 2))%Q.
Proof.
  pose proof (py_round_nearest y) as H. apply Qabs_Qle_condition in H.
  destruct H as [H1 H2]. split; lra.
Qed.

(** With a duration of moderate size each candidate is a finite number. *)
Lemma snapped_b64_finite (d g : Qc) :
  (Qabs d <= pow2 1000)%Q -> ((1 # 16) <= g)%Q -> (g <= (1 # 8))%Q ->
  exists s : Qc, snapped_b64 d g = Some s /\ (Qabs s <= pow2 1002)%Q.
Proof.
  intros Hd Hg1 Hg2. destruct pow2_1000_facts as (P1 & P2 & P3 & P4 & P5).
  unfold snapped_b64.
  assert (Hg0 : (0 < g)%Q) by lra.
  destruct (b64_bounded 1004 (d / g)%Qc) as (q & Eq & Hq); [lia | |].
  { qc_goal. apply Qabs_Qle_condition in Hd. destruct Hd as [Hd1 Hd2].
    apply Qabs_Qle_condition. rewrite P5. split.
    - apply Qle_shift_div_l; [exact Hg0 |]. nra.
    - apply Qle_shift_div_r; [exact Hg0 |]. nra. }
  rewrite Eq. destruct (py_round_near q) as [K1 K2].
  apply Qabs_Qle_condition in Hq. destruct Hq as [Hq1 Hq2]. rewrite P5 in Hq1, Hq2.
  apply (b64_bounded 1002); [lia |].
  qc_goal. apply Qabs_Qle_condition. rewrite P3. split; nra.
Qed.

Lemma error_b64_finite (d s : Qc) :
  (Qabs d <= pow2 1000)%Q -> (Qabs s <= pow2 1002)%Q ->
  exists e : Qc, error_b64 d s = Some e.
Proof.
  intros Hd Hs. destruct pow2_1000_facts as (P1 & P2 & P3 & P4 & P5).
  unfold error_b64.
  destruct (b64_bounded 1003 (d - s)%Qc) as (e & Ee & _); [lia | |].
  { qc_goal. apply Qabs_Qle_condition in Hd. apply Qabs_Qle_condition in Hs.
    rewrite P3 in Hs. apply Qabs_Qle_condition. rewrite P4. lra. }
  rewrite Ee. now exists (Qcabs e).
Qed.


Lemma grid_ternary_b64_bounds :
  ((1 # 16) <= grid_ternary_b64)%Q /\ (grid_ternary_b64 <= (1 # 8))%Q.
Proof. rewrite grid_ternary_b64_value. split; discriminate. Qed.








(** ** C4: the quantizer contract *)



(** Where binary64 and the exact reading part: at the binary64 number next
    below 11/24 the quotient by [1.0/12.0] rounds up to 5.5, [round()] gives
    6 and both candidates are 0.5, which the code returns, while in exact
    arithmetic the ternary candidate 5/12 is the nearer one and the result
    would be 0.417. *)
Lemma snap_to_grid_binary64_tie :
  let d := Q2Qc (8256599316845909 # 18014398509481984) in
  b64 d = Some d /\
  option_map this (snap_to_grid_binary64 d) = Some (1 # 2)%Q /\
  this (snap_to_grid d) = (417 # 1000)%Q.
Proof.
  cbv zeta. split; [| split].
  - apply (b64_exact _ 8256599316845909 (-54)); [reflexivity | lia | reflexivity | reflexivity].
  - vm_compute. reflexivity.
  - vm_compute. reflexivity.
Qed.

(** ** Times on which binary64 is exact *)

Lemma Z2Qc_add (a b : Z) : Z2Qc (a + b) = (Z2Qc a + Z2Qc b)%Qc.
Proof.
  apply Qc_is_canon. qc_goal. rewrite inject_Z_plus. reflexivity.
Qed.

Lemma Z2Qc_sub (a b : Z) : Z2Qc (a - b) = (Z2Qc a - Z2Qc b)%Qc.
Proof.
  apply Qc_is_canon. qc_goal. unfold Z.sub. rewrite inject_Z_plus, inject_Z_opp.
  reflexivity.
Qed.

(** A time on which the arithmetic of the code does not round: a whole
    number of steps of 1/8, at most [2^40] of them in magnitude. *)
Definition exact_time (t : Qc) : Prop :=
  exists k : Z, Z.abs k <= 2 ^ 40 /\ t = (Z2Qc k * grid_binary)%Qc.

(** Such times are binary64 numbers, and so are their sums and differences:
    on them the exact reading of [+] and [-] is the binary64 one. *)
Lemma exact_time_binary64 (a b : Qc) :
  exact_time a -> exact_time b ->
  b64 a = Some a /\ b64 (a + b)%Qc = Some (a + b)%Qc /\
  b64 (a - b)%Qc = Some (a - b)%Qc.
Proof.
  intros (ka & Ha & ->) (kb & Hb & ->). split; [| split].
  - apply (b64_eighths ka); [lia | reflexivity].
  - apply (b64_eighths (ka + kb)); [lia |]. rewrite Z2Qc_add. unfold grid_binary. ring.
  - apply (b64_eighths (ka - kb)); [lia |]. rewrite Z2Qc_sub. unfold grid_binary. ring.
Qed.

(** The values the quantizer is documented with: 0.02 is noise, 0.125 lies
    on the binary grid, 1/12 lies on the ternary grid and prints as 0.083. *)
Example snap_to_grid_examples :
  this (snap_to_grid (Q2Qc (2 # 100))) = 0%Q /\
  this (snap_to_grid (Q2Qc (1 # 8))) = (1 # 8)%Q /\
  this (snap_to_grid (Q2Qc (1 # 12))) = (83 # 1000)%Q /\
  format_3f (snap_to_grid (Q2Qc (1 # 12))) = "0.083"%string.
Proof. repeat split; vm_compute; reflexivity. Qed.

(** ** Facts about the text layer *)

(** The character [c] does not occur in [s]. *)
Fixpoint clean (c : ascii) (s : string) : Prop :=
  match s with
  | EmptyString => True
  | String a s' => a <> c /\ clean c s'
  end.

Definition is_digit (c : ascii) : bool :=
  match c with
  | "0" | "1" | "2" | "3" | "4" | "5" | "6" | "7" | "8" | "9" => true
  | _ => false
  end%char.

Lemma clean_app (c : ascii) (s1 s2 : string) :
  clean c (s1 ++ s2) <-> clean c s1 /\ clean c s2.
Proof.
  induction s1 as [| a s1 IH]; simpl; [tauto | rewrite IH; tauto].
Qed.

Lemma split_clean (sep : ascii) (s : string) : clean sep s -> split sep s = [s].
Proof.
  induction s as [| a s IH]; simpl; [reflexivity |].
  intros [Ha Hs]. destruct (Ascii.eqb_spec a sep) as [E | _]; [contradiction |].
  now rewrite (IH Hs).
Qed.

Lemma split_app (sep : ascii) (s1 s2 : string) :
  clean sep s1 -> split sep (s1 ++ String sep s2) = s1 :: split sep s2.
Proof.
  induction s1 as [| a s1 IH]; simpl.
  - intros _. now rewrite Ascii.eqb_refl.
  - intros [Ha Hs]. destruct (Ascii.eqb_spec a sep) as [E | _]; [contradiction |].
    now rewrite (IH Hs).
Qed.

Lemma string_of_uint_clean (c : ascii) (d : uint) :
  is_digit c = false -> clean c (NilEmpty.string_of_uint d).
Proof.
  intros Hc. induction d; simpl; auto; split; auto; intros <-; discriminate Hc.
Qed.

Lemma py_str_clean (c : ascii) (z : Z) :
  is_digit c = false -> c <> "-"%char -> clean c (py_str z).
Proof.
  intros Hc Hm. unfold py_str, NilZero.string_of_int.
  assert (H : forall d, clean c (NilZero.string_of_uint d)).
  { intros d. unfold NilZero.string_of_uint.
    destruct d; try apply string_of_uint_clean; auto.
    simpl. split; auto. intros <-. discriminate Hc. }
  destruct (Z.to_int z); simpl; auto.
Qed.

(** [int(str(z)) == z]. *)
Lemma int_of_decimal_str (z : Z) : int_of_decimal (py_str z) = Some z.
Proof.
  unfold int_of_decimal, py_str. rewrite NilZero.isi.
  - simpl. now rewrite DecimalZ.of_to.
  - destruct z; simpl; try discriminate.
    intros E. inversion E as [E']. now apply (DecimalPos.Unsigned.to_uint_nonnil p).
  - destruct z; simpl; try discriminate.
    intros E. inversion E as [E']. now apply (DecimalPos.Unsigned.to_uint_nonnil p).
Qed.

(** The text of a non-negative integer: digits, the first of which is no
    minus sign, read back by the unsigned parser. *)
Lemma py_str_nonneg (m : Z) :
  0 <= m ->
  exists (c : ascii) (rest : string) (d : uint),
    py_str m = String c rest /\ c <> "-"%char /\
    NilEmpty.uint_of_string (py_str m) = Some d /\ Z.of_uint d = m.
Proof.
  intros Hm. unfold py_str. destruct m as [| p | p]; [| | lia].
  - exists "0"%char, EmptyString, (D0 Nil). repeat split. discriminate.
  - cbn [Z.to_int NilZero.string_of_int].
    pose proof (DecimalPos.Unsigned.to_uint_nonnil p) as Hnn.
    pose proof (DecimalPos.Unsigned.of_to p) as Hof.
    destruct (Pos.to_uint p) as [| d | d | d | d | d | d | d | d | d | d] eqn:E;
      [contradiction | ..];
      cbn [NilZero.string_of_uint];
      (eexists; eexists; eexists; split; [reflexivity |]; split; [discriminate |];
       split; [apply (NilEmpty.usu (_ d)) |];
       unfold Z.of_uint; rewrite Hof; reflexivity).
Qed.

Lemma digit_uint_string (n : Z) (d : uint) :
  exists c : ascii,
    NilEmpty.string_of_uint (digit_uint n d) = String c (NilEmpty.string_of_uint d).
Proof.
  unfold digit_uint.
  repeat match goal with
         | |- context [match ?x with _ => _ end] => destruct x
         end; eexists; reflexivity.
Qed.

Lemma three_digits_length (m : Z) :
  String.length (NilEmpty.string_of_uint (three_digits m)) = 3%nat.
Proof.
  unfold three_digits.
  destruct (digit_uint_string (m / 100)
              (digit_uint ((m / 10) mod 10) (digit_uint (m mod 10) Nil))) as [c1 ->].
  destruct (digit_uint_string ((m / 10) mod 10) (digit_uint (m mod 10) Nil)) as [c2 ->].
  destruct (digit_uint_string (m mod 10) Nil) as [c3 ->]. reflexivity.
Qed.

Lemma three_digits_value (m : Z) : 0 <= m < 1000 -> Z.of_uint (three_digits m) = m.
Proof.
  intros Hm.
  assert (H : forallb (fun k => Z.of_uint (three_digits (Z.of_nat k)) =? Z.of_nat k)
                      (seq 0 1000) = true) by (vm_compute; reflexivity).
  rewrite forallb_forall in H.
  specialize (H (Z.to_nat m)). rewrite Z2Nat.id in H by lia.
  apply Z.eqb_eq, H, in_seq. lia.
Qed.

Lemma Z2Qc_millis (n : Z) : (Z2Qc n / Z2Qc 1000 * Z2Qc 1000)%Qc = Z2Qc n.
Proof.
  apply Qc_is_canon. qc_unfold. change (inject_Z 1000) with 1000%Q. field.
Qed.

(** [float(f"{x:.3f}") == x] for a non-negative [x] with three decimals. *)
Lemma float_of_decimal_format (n : Z) :
  0 <= n ->
  float_of_decimal (format_3f (Z2Qc n / Z2Qc 1000)) = Some (Z2Qc n / Z2Qc 1000)%Qc.
Proof.
  intros Hn. unfold format_3f. rewrite Z2Qc_millis, py_round_Z.
  destruct (Z.ltb_spec n 0) as [Hneg | _]; [lia |].
  rewrite Z.abs_eq by exact Hn.
  assert (Hq : 0 <= n / 1000) by (apply Z.div_pos; lia).
  destruct (py_str_nonneg (n / 1000) Hq) as (c & rest & d & Hstr & Hc & Hparse & Hval).
  assert (Hclean : clean "." (py_str (n / 1000)))
    by (apply py_str_clean; [reflexivity | discriminate]).
  set (fp := NilEmpty.string_of_uint (three_digits (n mod 1000))).
  assert (Hsplit : split "." (py_str (n / 1000) ++ "." ++ fp)
                   = [py_str (n / 1000); fp]).
  { change ("." ++ fp)%string with (String "." fp).
    rewrite split_app by exact Hclean.
    rewrite split_clean; [reflexivity |].
    apply string_of_uint_clean. reflexivity. }
  change ("" ++ py_str (n / 1000) ++ "." ++ fp)%string
    with (py_str (n / 1000) ++ "." ++ fp)%string.
  unfold float_of_decimal.
  destruct (py_str (n / 1000) ++ "." ++ fp)%string as [| c' s'] eqn:Es.
  { rewrite Hstr in Es. discriminate Es. }
  assert (Hc' : c' = c) by (rewrite Hstr in Es; now inversion Es).
  subst c'. destruct (Ascii.eqb_spec c "-") as [E | _]; [contradiction |].
  unfold unsigned_float_of_decimal. rewrite Hsplit, Hparse.
  subst fp. rewrite NilEmpty.usu, three_digits_length.
  replace (String.eqb (py_str (n / 1000)) "") with false
    by (rewrite Hstr; reflexivity).
  cbn [andb]. rewrite Hval, three_digits_value by (apply Z.mod_pos_bound; lia).
  change (10 ^ Z.of_nat 3) with 1000.
  do 2 f_equal. f_equal. pose proof (Z.div_mod n 1000). lia.
Qed.

Lemma format_3f_clean (c : ascii) (x : Qc) :
  is_digit c = false -> c <> "-"%char -> c <> "."%char -> clean c (format_3f x).
Proof.
  intros Hd Hm Hp. unfold format_3f. cbv zeta.
  repeat (apply (proj2 (clean_app _ _ _)); split).
  - destruct (_ <? 0); simpl; auto.
  - now apply py_str_clean.
  - simpl. auto.
  - now apply string_of_uint_clean.
Qed.

Lemma concat_clean (c sep : ascii) (l : list string) :
  sep <> c -> Forall (clean c) l -> clean c (String.concat (String sep EmptyString) l).
Proof.
  intros Hsep. induction 1 as [| s l Hs Hl IH]; simpl; [exact I |].
  destruct l as [| s' l']; [exact Hs |].
  apply clean_app. split; [exact Hs |]. simpl. split; [exact Hsep | exact IH].
Qed.

Lemma str_pitches_clean (c : ascii) (l : list Z) :
  is_digit c = false -> c <> "-"%char -> c <> ","%char -> c <> "_"%char ->
  clean c (str_pitches l).
Proof.
  intros Hd Hm Hc Hu. unfold str_pitches. destruct l as [| p l].
  - simpl. auto.
  - apply concat_clean; [congruence |].
    apply Forall_forall. intros s Hs. apply in_map_iff in Hs.
    destruct Hs as (z & <- & _). now apply py_str_clean.
Qed.

(** ** Facts about pitch sets *)

Lemma pset_mem_In (p : Z) (s : pset) : pset_mem p s = true <-> In p s.
Proof.
  unfold pset_mem. rewrite existsb_exists. split.
  - intros (q & Hq & E). apply Z.eqb_eq in E. now subst.
  - intros H. exists p. split; [exact H | apply Z.eqb_refl].
Qed.

Lemma pset_add_In (p q : Z) (s : pset) : In q (pset_add p s) <-> q = p \/ In q s.
Proof.
  unfold pset_add. destruct (pset_mem p s) eqn:E.
  - apply pset_mem_In in E. split; [auto | intros [-> | H]; auto].
  - simpl. split; intros [H | H]; auto.
Qed.

Lemma pset_remove_In (p q : Z) (s : pset) : In q (pset_remove p s) <-> In q s /\ q <> p.
Proof.
  unfold pset_remove. rewrite filter_In, negb_true_iff, Z.eqb_neq. reflexivity.
Qed.

Lemma pset_inter_In (q : Z) (a b : pset) : In q (pset_inter a b) <-> In q a /\ In q b.
Proof.
  unfold pset_inter. rewrite filter_In, pset_mem_In. reflexivity.
Qed.

Lemma pset_remove_all_In (q : Z) (l : list Z) (s : pset) :
  In q (fold_left (fun s p => pset_remove p s) l s) <-> In q s /\ ~ In q l.
Proof.
  revert s. induction l as [| p l IH]; intros s; simpl.
  - tauto.
  - rewrite IH, pset_remove_In. intuition congruence.
Qed.

Lemma pset_nonempty_In (s : pset) (p : Z) : In p s -> pset_nonempty s = true.
Proof. destruct s; [intros [] | reflexivity]. Qed.

Lemma insert_pitch_In (p q : Z) (l : list Z) : In q (insert_pitch p l) <-> q = p \/ In q l.
Proof.
  induction l as [| r l IH]; simpl.
  - intuition.
  - destruct (p <=? r); simpl; [| rewrite IH]; intuition.
Qed.

Lemma sorted_pitches_In (q : Z) (s : pset) : In q (sorted_pitches s) <-> In q s.
Proof.
  induction s as [| p s IH]; simpl; [tauto |].
  rewrite insert_pitch_In, IH. intuition.
Qed.

(** ** C2: ON and OFF of a token are disjoint *)

Definition token_disjoint (tok : Token) : Prop :=
  forall p : Z, In p (tok_on tok) -> ~ In p (tok_off tok).

Lemma sweep_step_disjoint (sm em : tmap) (st : sweep_state) (t : Qc) (next : option Qc) :
  Forall token_disjoint (tokens st) ->
  Forall token_disjoint (tokens (sweep_step sm em st t next)).
Proof.
  intros H. unfold sweep_step.
  set (a := fold_left process_ending _ _).
  set (b := fold_left process_starting _ _).
  destruct (_ || _); [| exact H].
  destruct (_ || _); [| exact H].
  cbn [tokens]. apply Forall_app. split; [exact H |].
  constructor; [| constructor].
  intros p Hon Hoff. cbn [tok_on tok_off] in *.
  apply sorted_pitches_In, pset_remove_all_In in Hoff.
  destruct Hoff as [Hoff Hni]. apply Hni, pset_inter_In. split; [| exact Hoff].
  destruct next; [| destruct Hon]. now apply sorted_pitches_In.
Qed.

Lemma sweep_disjoint (sm em : tmap) (times : list Qc) (st : sweep_state) :
  Forall token_disjoint (tokens st) ->
  Forall token_disjoint (tokens (sweep sm em times st)).
Proof.
  revert st. induction times as [| t rest IH]; intros st H; simpl; [exact H |].
  apply IH, sweep_step_disjoint, H.
Qed.

(** [pending_on] and [pending_off] when the iteration at time [t] reaches
    step C: after the endings (A) and the starts (B), before the
    clean-up. *)
Definition pending_at (start_map end_map : tmap) (st : sweep_state) (t : Qc)
  : pset * pset :=
  let a := fold_left process_ending (tmap_get t end_map)
                     (note_state st, pending_off st) in
  let b := fold_left process_starting (tmap_get t start_map)
                     (fst a, pending_on st) in
  (snd b, snd a).

(** ON wins: a pitch pending on both sides at step C leaves [pending_off]
    and stays in [pending_on]; the token of this iteration, if one is
    emitted, does not carry it in OFF and, unless it is the final token,
    carries it in ON. *)
Lemma sweep_step_on_wins (sm em : tmap) (st : sweep_state) (t : Qc) (next : option Qc)
    (p : Z) :
  In p (fst (pending_at sm em st t)) -> In p (snd (pending_at sm em st t)) ->
  (forall tok : Token,
      tokens (sweep_step sm em st t next) = (tokens st ++ [tok])%list ->
      ~ In p (tok_off tok) /\ (next <> None -> In p (tok_on tok))) /\
  (tokens (sweep_step sm em st t next) = tokens st ->
   In p (pending_on (sweep_step sm em st t next)) /\
   ~ In p (pending_off (sweep_step sm em st t next))).
Proof.
  unfold pending_at, sweep_step. cbn [fst snd].
  set (a := fold_left process_ending _ _).
  set (b := fold_left process_starting _ _).
  intros Hon Hoff.
  assert (Hclean : ~ In p (fold_left (fun s q => pset_remove q s)
                                     (pset_inter (snd b) (snd a)) (snd a))).
  { intros H. apply pset_remove_all_In in H. destruct H as [_ H].
    apply H, pset_inter_In. now split. }
  assert (Hno : forall (l : list Token) (x : Token), (l ++ [x])%list <> l).
  { intros l x H. apply (f_equal (@List.length Token)) in H.
    rewrite length_app in H. simpl in H. lia. }
  assert (Hkeep : forall tok : Token, tokens st = (tokens st ++ [tok])%list -> False).
  { intros tok H. symmetry in H. exact (Hno _ _ H). }
  destruct (_ || _).
  - destruct (_ || _); cbn [tokens pending_on pending_off].
    + split.
      * intros tok E. apply app_inv_head in E. inversion E. subst tok.
        cbn [tok_on tok_off]. split.
        -- intros H. apply Hclean. now apply sorted_pitches_In.
        -- intros Hn. destruct next; [| contradiction]. now apply sorted_pitches_In.
      * intros E. exfalso. exact (Hno _ _ E).
    + split; [intros tok E; exfalso; exact (Hkeep tok E) | auto].
  - cbn [tokens pending_on pending_off].
    split; [intros tok E; exfalso; exact (Hkeep tok E) | auto].
Qed.

(** C2.  For every list of raw events and every transposition, every token
    the encoder emits is the text of an (ON, OFF, DUR) triple in which no
    pitch is both in ON and in OFF; and at every iteration of the sweep a
    pitch pending on both sides is kept in ON and removed from OFF: the
    token emitted there does not carry it in OFF and, unless it is the
    final token (whose ON field is forced empty), carries it in ON, and
    when no token is emitted it stays pending in ON only. *)
Theorem token_on_off_disjoint (raw_events : list RawEvent) (transpose_semitones : Z) :
  let start_map := fst (build_maps raw_events transpose_semitones) in
  let end_map := snd (build_maps raw_events transpose_semitones) in
  (forall s : string,
      In s (_generate_tokens_from_events raw_events transpose_semitones) ->
      exists tok : Token,
        s = format_token tok /\
        In tok (token_records raw_events transpose_semitones) /\
        forall p : Z, ~ (In p (tok_on tok) /\ In p (tok_off tok))) /\
  (forall (st : sweep_state) (t : Qc) (next : option Qc) (p : Z),
      In p (fst (pending_at start_map end_map st t)) ->
      In p (snd (pending_at start_map end_map st t)) ->
      let st' := sweep_step start_map end_map st t next in
      (forall tok : Token,
          tokens st' = (tokens st ++ [tok])%list ->
          ~ In p (tok_off tok) /\ (next <> None -> In p (tok_on tok))) /\
      (tokens st' = tokens st ->
       In p (pending_on st') /\ ~ In p (pending_off st'))).
Proof.
  intros start_map end_map. split.
  - unfold _generate_tokens_from_events. intros s H. apply in_map_iff in H.
    destruct H as (tok & <- & Hin). exists tok. split; [reflexivity |].
    split; [exact Hin |].
    assert (D : Forall token_disjoint (token_records raw_events transpose_semitones)).
    { unfold token_records, sweep_all. destruct (all_times_of _ _); [constructor |].
      apply sweep_disjoint. constructor. }
    rewrite Forall_forall in D. intros p [Hon Hoff]. exact (D tok Hin p Hon Hoff).
  - intros st t next p Hon Hoff. now apply sweep_step_on_wins.
Qed.

(** ** Facts about the time maps *)

(** Occurrences of a pitch in a list. *)
Fixpoint occ (p : Z) (l : list Z) : Z :=
  match l with
  | [] => 0
  | q :: l' => (if q =? p then 1 else 0) + occ p l'
  end.

Lemma occ_app (p : Z) (l1 l2 : list Z) : occ p (l1 ++ l2) = occ p l1 + occ p l2.
Proof. induction l1 as [| q l1 IH]; simpl; [reflexivity | rewrite IH; lia]. Qed.

(** All occurrences of a pitch stored in a map. *)
Fixpoint total (p : Z) (m : tmap) : Z :=
  match m with
  | [] => 0
  | (_, l) :: m' => occ p l + total p m'
  end.

(** Occurrences of a pitch met when the map is read at each of [times]. *)
Fixpoint sum_occ (p : Z) (m : tmap) (times : list Qc) : Z :=
  match times with
  | [] => 0
  | t :: rest => occ p (tmap_get t m) + sum_occ p m rest
  end.

Definition tmap_wf (m : tmap) : Prop :=
  NoDup (tmap_keys m) /\ Forall (fun kv => snd kv <> []) m.

Lemma tmap_append_keys (k : Qc) (p : Z) (m : tmap) (t : Qc) :
  In t (tmap_keys (tmap_append k p m)) <-> t = k \/ In t (tmap_keys m).
Proof.
  induction m as [| [k' l] m IH]; simpl.
  - intuition.
  - destruct (Qc_eqb_spec k k') as [-> | Hne]; simpl.
    + intuition.
    + rewrite IH. intuition.
Qed.

Lemma tmap_append_wf (k : Qc) (p : Z) (m : tmap) : tmap_wf m -> tmap_wf (tmap_append k p m).
Proof.
  unfold tmap_wf. induction m as [| [k' l] m IH]; simpl; intros [Hnd Hne].
  - split; repeat constructor; [intros [] | discriminate].
  - inversion Hnd as [| ? ? Hnotin Hnd']; subst. inversion Hne as [| ? ? Hl Hne']; subst.
    destruct (Qc_eqb_spec k k') as [-> | Hkk]; simpl.
    + split; constructor; auto. simpl. now destruct l.
    + destruct (IH (conj Hnd' Hne')) as [IH1 IH2].
      split; constructor; auto.
      change (~ In k' (tmap_keys (tmap_append k p m))).
      rewrite tmap_append_keys. intros [E | H]; [now subst | contradiction].
Qed.

Lemma tmap_append_total (k : Qc) (p q : Z) (m : tmap) :
  total q (tmap_append k p m) = total q m + (if p =? q then 1 else 0).
Proof.
  induction m as [| [k' l] m IH]; simpl.
  - lia.
  - destruct (Qc_eqb k k'); simpl.
    + rewrite occ_app. simpl. lia.
    + rewrite IH. lia.
Qed.

Lemma tmap_get_notin (k : Qc) (m : tmap) : ~ In k (tmap_keys m) -> tmap_get k m = [].
Proof.
  induction m as [| [k' l] m IH]; simpl; [reflexivity |].
  intros H. destruct (Qc_eqb_spec k k') as [-> | Hne].
  - exfalso. apply H. now left.
  - apply IH. intros Hin. apply H. now right.
Qed.

Lemma tmap_get_nonempty (k : Qc) (m : tmap) :
  tmap_wf m -> In k (tmap_keys m) -> tmap_get k m <> [].
Proof.
  unfold tmap_wf. induction m as [| [k' l] m IH]; simpl; intros [Hnd Hne] Hin.
  - destruct Hin.
  - inversion Hnd; subst. inversion Hne; subst.
    destruct (Qc_eqb_spec k k') as [-> | Hkk]; [assumption |].
    apply IH; [split; assumption |]. destruct Hin as [E | Hin]; [now subst | exact Hin].
Qed.

(** One key, read once along a duplicate-free list of times. *)
Lemma sum_single (k : Qc) (c : Z) (times : list Qc) :
  NoDup times -> In k times ->
  fold_right (fun t acc => (if Qc_eqb t k then c else 0) + acc) 0 times = c.
Proof.
  induction times as [| t rest IH]; intros Hnd Hin; [destruct Hin |].
  inversion Hnd as [| ? ? Hnotin Hnd']; subst. simpl.
  destruct (Qc_eqb_spec t k) as [-> | Hne].
  - assert (E : fold_right (fun t acc => (if Qc_eqb t k then c else 0) + acc) 0 rest = 0).
    { clear IH Hnd Hnd' Hin. induction rest as [| u rest IH]; simpl; [reflexivity |].
      destruct (Qc_eqb_spec u k) as [-> | Hu].
      - exfalso. apply Hnotin. now left.
      - rewrite IH; [lia |]. intros H. apply Hnotin. now right. }
    rewrite E. lia.
  - destruct Hin as [E | Hin]; [contradiction |]. rewrite IH; auto.
Qed.

Lemma sum_occ_cons (p : Z) (k : Qc) (l : list Z) (m : tmap) (times : list Qc) :
  ~ In k (tmap_keys m) ->
  sum_occ p ((k, l) :: m) times =
  fold_right (fun t acc => (if Qc_eqb t k then occ p l else 0) + acc) 0 times
  + sum_occ p m times.
Proof.
  intros Hk. induction times as [| t rest IH]; simpl; [reflexivity |].
  rewrite IH. destruct (Qc_eqb_spec t k) as [-> | Hne].
  - rewrite (tmap_get_notin k m Hk). simpl. lia.
  - lia.
Qed.

Lemma sum_occ_total (p : Z) (m : tmap) (times : list Qc) :
  NoDup times -> NoDup (tmap_keys m) -> incl (tmap_keys m) times ->
  sum_occ p m times = total p m.
Proof.
  intros Hnd. induction m as [| [k l] m IH]; simpl; intros Hkeys Hincl.
  - clear Hnd Hincl. induction times; simpl; auto.
  - inversion Hkeys as [| ? ? Hnotin Hkeys']; subst.
    rewrite sum_occ_cons by exact Hnotin.
    rewrite sum_single; [| exact Hnd | apply Hincl; now left].
    rewrite IH; [reflexivity | exact Hkeys' |].
    intros t Ht. apply Hincl. now right.
Qed.

(** ** Facts about [sorted_set] *)

Lemma insert_time_In (t u : Qc) (l : list Qc) : In u (insert_time t l) <-> u = t \/ In u l.
Proof.
  induction l as [| v l IH]; simpl.
  - intuition.
  - destruct (Qc_ltb t v); simpl; [intuition |].
    destruct (Qc_eqb_spec t v) as [-> | Hne]; simpl; [intuition |].
    rewrite IH. intuition.
Qed.

Lemma sorted_set_In (u : Qc) (l : list Qc) : In u (sorted_set l) <-> In u l.
Proof.
  induction l as [| t l IH]; simpl; [tauto |].
  rewrite insert_time_In, IH. intuition.
Qed.

Inductive increasing : list Qc -> Prop :=
| increasing_nil : increasing []
| increasing_cons (t : Qc) (l : list Qc) :
    Forall (Qclt t) l -> increasing l -> increasing (t :: l).

Lemma insert_time_increasing (t : Qc) (l : list Qc) :
  increasing l -> increasing (insert_time t l).
Proof.
  induction 1 as [| u l Hall Hinc IH]; simpl.
  - repeat constructor.
  - destruct (Qc_ltb_spec t u) as [Hlt | Hge].
    + constructor; [| now constructor]. constructor; [exact Hlt |].
      eapply Forall_impl; [| exact Hall]. intros v Hv. eapply Qclt_trans; eauto.
    + destruct (Qc_eqb_spec t u) as [-> | Hne]; [now constructor |].
      constructor; [| exact IH].
      apply Forall_forall. intros v Hv. apply insert_time_In in Hv.
      destruct Hv as [-> | Hv].
      * apply Qcnot_lt_le in Hge. destruct (Qcle_lt_or_eq _ _ Hge); [assumption |].
        now subst.
      * rewrite Forall_forall in Hall. now apply Hall.
Qed.

Lemma sorted_set_increasing (l : list Qc) : increasing (sorted_set l).
Proof.
  induction l; simpl; [constructor | now apply insert_time_increasing].
Qed.

Lemma increasing_NoDup (l : list Qc) : increasing l -> NoDup l.
Proof.
  induction 1 as [| t l Hall Hinc IH]; constructor; [| exact IH].
  intros Hin. rewrite Forall_forall in Hall.
  apply (Qclt_not_eq _ _ (Hall t Hin)). reflexivity.
Qed.

(** ** Facts about [build_maps] *)

Definition maps_ok (maps : tmap * tmap) : Prop :=
  tmap_wf (fst maps) /\ tmap_wf (snd maps) /\
  forall p : Z, total p (fst maps) = total p (snd maps).

Lemma add_event_ok (tr : Z) (maps : tmap * tmap) (e : RawEvent) :
  maps_ok maps -> maps_ok (add_event tr maps e).
Proof.
  destruct e as [[offset duration] pitches]. unfold add_event.
  generalize (valid_pitches tr pitches) as vp. intros vp. revert maps.
  induction vp as [| p vp IH]; intros maps H; simpl; [exact H |].
  apply IH. destruct H as (H1 & H2 & H3). repeat split; cbn [fst snd].
  - now apply tmap_append_wf.
  - now apply tmap_append_wf.
  - now apply tmap_append_wf.
  - now apply tmap_append_wf.
  - intros q. rewrite !tmap_append_total, H3. reflexivity.
Qed.

Lemma build_maps_ok (raw_events : list RawEvent) (tr : Z) :
  maps_ok (build_maps raw_events tr).
Proof.
  unfold build_maps.
  assert (H0 : maps_ok ([], [])).
  { repeat split; simpl; constructor. }
  revert H0. generalize (@nil (Qc * list Z), @nil (Qc * list Z)) as maps.
  induction raw_events as [| e evs IH]; intros maps H; simpl; [exact H |].
  apply IH, add_event_ok, H.
Qed.

(** ** Facts about the sweep *)

Lemma fold_ending_count (l : list Z) (ns : counters) (poff : pset) (p : Z) :
  fst (fold_left process_ending l (ns, poff)) p = ns p - occ p l.
Proof.
  revert ns poff. induction l as [| q l IH]; intros ns poff; simpl; [lia |].
  unfold process_ending at 2. cbn [fst snd]. rewrite IH. unfold counters_set.
  rewrite (Z.eqb_sym q p). destruct (Z.eqb_spec p q) as [-> | Hne]; lia.
Qed.

Lemma fold_starting_count (l : list Z) (ns : counters) (pon : pset) (p : Z) :
  fst (fold_left process_starting l (ns, pon)) p = ns p + occ p l.
Proof.
  revert ns pon. induction l as [| q l IH]; intros ns pon; simpl; [lia |].
  unfold process_starting at 2. cbn [fst snd]. rewrite IH. unfold counters_set.
  rewrite (Z.eqb_sym q p). destruct (Z.eqb_spec p q) as [-> | Hne]; lia.
Qed.

Lemma fold_starting_In (l : list Z) (ns : counters) (pon : pset) (p : Z) :
  In p l \/ In p pon -> In p (snd (fold_left process_starting l (ns, pon))).
Proof.
  revert ns pon. induction l as [| q l IH]; intros ns pon H; simpl.
  - destruct H as [[] | H]; exact H.
  - apply IH. unfold process_starting. cbn [fst snd]. rewrite pset_add_In.
    destruct H as [[-> | H] | H]; auto.
Qed.

Lemma sweep_step_count (sm em : tmap) (st : sweep_state) (t : Qc) (next : option Qc)
    (p : Z) :
  note_state (sweep_step sm em st t next) p =
  note_state st p + occ p (tmap_get t sm) - occ p (tmap_get t em).
Proof.
  unfold sweep_step.
  set (a := fold_left process_ending _ _).
  set (b := fold_left process_starting _ _).
  assert (E : fst b p = note_state st p + occ p (tmap_get t sm) - occ p (tmap_get t em)).
  { subst b. rewrite (surjective_pairing a) at 1. cbn [fst].
    rewrite fold_starting_count. subst a. rewrite fold_ending_count. lia. }
  destruct (_ || _); [destruct (_ || _) |]; exact E.
Qed.

(** The net number of instances of [p] opened along [times]. *)
Definition net (p : Z) (sm em : tmap) (times : list Qc) : Z :=
  sum_occ p sm times - sum_occ p em times.

(** On the last time point the loop emits: either a pitch starts there,
    or the last pitch ending there brings its counter to exactly 0. *)
Lemma sweep_step_last (sm em : tmap) (st : sweep_state) (t : Qc) :
  (forall p, note_state st p + net p sm em [t] = 0) ->
  tmap_get t sm <> [] \/ tmap_get t em <> [] ->
  exists off,
    tokens (sweep_step sm em st t None) = tokens st ++ [mkToken [] off (Q2Qc 0)].
Proof.
  intros Hinv Hne. unfold sweep_step.
  set (a := fold_left process_ending _ _).
  set (b := fold_left process_starting _ _).
  set (poff := fold_left (fun s p => pset_remove p s) _ _).
  assert (Hemit : pset_nonempty (snd b) || pset_nonempty poff = true).
  { destruct (tmap_get t sm) as [| p0 l0] eqn:Es.
    - destruct Hne as [Hne | Hne]; [contradiction |].
      destruct (exists_last Hne) as (l & p & El).
      assert (Hp : In p (snd a)).
      { subst a. rewrite El, fold_left_app. simpl. unfold process_ending at 1.
        cbn [fst snd]. unfold counters_set at 1. rewrite Z.eqb_refl.
        rewrite fold_ending_count.
        specialize (Hinv p). unfold net in Hinv. simpl in Hinv.
        rewrite Es, El, occ_app in Hinv. simpl in Hinv. rewrite Z.eqb_refl in Hinv.
        replace (note_state st p - occ p l - 1) with 0 by lia.
        simpl. apply pset_add_In. now left. }
      destruct (snd b) as [| q pon] eqn:Eb; [| reflexivity].
      simpl. apply (pset_nonempty_In _ p). subst poff.
      apply pset_remove_all_In. split; [exact Hp |].
      simpl. intros [].
    - apply orb_true_iff. left. apply (pset_nonempty_In _ p0).
      subst b. rewrite (surjective_pairing a). apply fold_starting_In.
      left. now left. }
  rewrite orb_true_r. rewrite Hemit. cbn [orb tokens].
  now exists (sorted_pitches poff).
Qed.

Lemma sweep_last (sm em : tmap) (times : list Qc) (st : sweep_state) :
  times <> [] ->
  (forall p, note_state st p + net p sm em times = 0) ->
  (forall t, In t times -> tmap_get t sm <> [] \/ tmap_get t em <> []) ->
  exists init off,
    tokens (sweep sm em times st) = init ++ [mkToken [] off (Q2Qc 0)].
Proof.
  revert st. induction times as [| t rest IH]; intros st Hne Hinv Hkeys;
    [contradiction |].
  destruct rest as [| t' rest].
  - simpl. destruct (sweep_step_last sm em st t Hinv) as (off & E).
    + apply Hkeys. now left.
    + exists (tokens st), off. exact E.
  - change (sweep sm em (t :: t' :: rest) st)
      with (sweep sm em (t' :: rest) (sweep_step sm em st t (Some t'))).
    apply IH.
    + discriminate.
    + intros p. rewrite sweep_step_count. specialize (Hinv p).
      unfold net in *. cbn [sum_occ] in *. lia.
    + intros u Hu. apply Hkeys. now right.
Qed.

(** Whenever some time point exists, the encoder's output ends with the
    flushing token: empty ON and duration 0. *)
Lemma token_records_last (raw_events : list RawEvent) (tr : Z) :
  all_times_of (fst (build_maps raw_events tr)) (snd (build_maps raw_events tr)) <> [] ->
  exists init off,
    token_records raw_events tr = init ++ [mkToken [] off (Q2Qc 0)].
Proof.
  intros Hne. unfold token_records, sweep_all.
  destruct (build_maps_ok raw_events tr) as ((Hk1 & Hv1) & (Hk2 & Hv2) & Htot).
  set (sm := fst (build_maps raw_events tr)) in *.
  set (em := snd (build_maps raw_events tr)) in *.
  assert (Hnd : NoDup (all_times_of sm em))
    by apply increasing_NoDup, sorted_set_increasing.
  destruct (all_times_of sm em) as [| t0 rest] eqn:Et; [contradiction |].
  apply sweep_last.
  - discriminate.
  - intros p. cbn [note_state]. unfold net.
    rewrite !sum_occ_total; auto.
    + rewrite Htot. lia.
    + intros t Ht. rewrite <- Et. apply sorted_set_In, in_or_app. now right.
    + intros t Ht. rewrite <- Et. apply sorted_set_In, in_or_app. now left.
  - intros t Ht. rewrite <- Et in Ht. apply sorted_set_In, in_app_or in Ht.
    destruct Ht as [Ht | Ht]; [left | right]; apply tmap_get_nonempty;
      auto; split; assumption.
Qed.

(** ** C3: the final token *)

(** C3.  For every list of raw events and every transposition, a non-empty
    encoder output ends with a token whose ON field is the sentinel ["_"]
    and whose DUR field is [0.000]. *)
Theorem final_token_flush (raw_events : list RawEvent) (transpose_semitones : Z) :
  _generate_tokens_from_events raw_events transpose_semitones <> [] ->
  exists off : list Z,
    last (token_records raw_events transpose_semitones) (mkToken [] [] (Q2Qc 0))
    = mkToken [] off (Q2Qc 0) /\
    last (_generate_tokens_from_events raw_events transpose_semitones) EmptyString
    = ("ON=_;OFF=" ++ str_pitches off ++ ";DUR=0.000")%string.
Proof.
  intros Hne. unfold _generate_tokens_from_events in *.
  destruct (token_records_last raw_events transpose_semitones) as (init & off & E).
  - intros H0. apply Hne. unfold token_records, sweep_all. now rewrite H0.
  - exists off. rewrite E, map_app.
    change (map format_token [mkToken [] off (Q2Qc 0)])
      with [format_token (mkToken [] off (Q2Qc 0))].
    rewrite !last_last. split; reflexivity.
Qed.

(** ** C7: the augmentation window *)

Lemma augment_shift_clamp (m : Z) : augment_shift m = Z.max (-6) (Z.min 5 (60 - m)).
Proof.
  unfold augment_shift, py_maxZ, py_minZ.
  destruct (Z.ltb_spec (60 - m) 5);
    match goal with |- context [?a <? ?b] => destruct (Z.ltb_spec a b) end; lia.
Qed.

Lemma py_range_12 (a : Z) :
  py_range a (a + 12) =
  [a; a + 1; a + 2; a + 3; a + 4; a + 5; a + 6; a + 7; a + 8; a + 9; a + 10; a + 11].
Proof.
  unfold py_range. replace (a + 12 - a) with 12 by lia.
  change (Z.to_nat 12) with 12%nat. cbn [seq map].
  repeat (f_equal; try lia).
Qed.

Lemma augment_shifts_window (m : Z) :
  let shift := Z.max (-6) (Z.min 5 (60 - m)) in
  augment_shifts m =
  [shift - 5; shift - 4; shift - 3; shift - 2; shift - 1; shift;
   shift + 1; shift + 2; shift + 3; shift + 4; shift + 5; shift + 6].
Proof.
  intros shift. unfold augment_shifts. rewrite augment_shift_clamp. fold shift.
  replace (shift + 7) with (shift - 5 + 12) by lia. rewrite py_range_12.
  repeat (f_equal; try lia).
Qed.

(** C7.  For every list of raw events, the augmentation path uses
    [shift = clamp(60 - median_pitch, -6, 5)] and exactly the twelve
    consecutive transpositions [shift - 5 .. shift + 6], in that order; a
    median of 60 gives [-5 .. 6], a median of 72 gives shift -6 and
    [-11 .. 0]. *)
Theorem augmentation_window (raw_events : list RawEvent) (tempo : Z) :
  let shift := Z.max (-6) (Z.min 5 (60 - _get_pitch_median raw_events)) in
  parse_midi_to_tokens (Some (raw_events, tempo)) true =
    flat_map (augment_variant raw_events tempo)
      [shift - 5; shift - 4; shift - 3; shift - 2; shift - 1; shift;
       shift + 1; shift + 2; shift + 3; shift + 4; shift + 5; shift + 6]
  /\ augment_shifts 60 = [-5; -4; -3; -2; -1; 0; 1; 2; 3; 4; 5; 6]
  /\ augment_shift 72 = -6
  /\ augment_shifts 72 = [-11; -10; -9; -8; -7; -6; -5; -4; -3; -2; -1; 0].
Proof.
  intros shift. repeat split; try reflexivity.
  unfold parse_midi_to_tokens. cbn [negb].
  now rewrite augment_shifts_window.
Qed.

(** ** C9: the untransposed variant is part of the augmented output *)

Lemma augment_zero_in_window (m : Z) : In 0 (augment_shifts m).
Proof.
  pose proof (augment_shifts_window m) as E. cbv zeta in E. rewrite E.
  set (shift := Z.max (-6) (Z.min 5 (60 - m))).
  assert (-6 <= shift <= 5) by (subst shift; lia).
  simpl. lia.
Qed.

Lemma add_event_keys_mono (tr : Z) (maps : tmap * tmap) (e : RawEvent) (t : Qc) :
  In t (tmap_keys (fst maps)) -> In t (tmap_keys (fst (add_event tr maps e))).
Proof.
  destruct e as [[offset duration] pitches]. unfold add_event.
  generalize (valid_pitches tr pitches) as vp. intros vp. revert maps.
  induction vp as [| p vp IH]; intros maps H; simpl; [exact H |].
  apply IH. cbn [fst]. apply tmap_append_keys. now right.
Qed.

Lemma add_event_key (tr : Z) (maps : tmap * tmap) (offset duration : Qc)
    (pitches : list Z) :
  valid_pitches tr pitches <> [] ->
  In offset (tmap_keys (fst (add_event tr maps (offset, duration, pitches)))).
Proof.
  unfold add_event. destruct (valid_pitches tr pitches) as [| p vp]; [contradiction |].
  intros _. simpl.
  set (maps' := (tmap_append offset p (fst maps), _)).
  assert (H : In offset (tmap_keys (fst maps'))).
  { subst maps'. cbn [fst]. apply tmap_append_keys. now left. }
  revert H. generalize maps'. clear maps'.
  induction vp as [| q vp IH]; intros maps' H; simpl; [exact H |].
  apply IH. cbn [fst]. apply tmap_append_keys. now right.
Qed.

Lemma fold_add_event_keys_mono (tr : Z) (evs : list RawEvent) (maps : tmap * tmap)
    (t : Qc) :
  In t (tmap_keys (fst maps)) ->
  In t (tmap_keys (fst (fold_left (add_event tr) evs maps))).
Proof.
  revert maps. induction evs as [| e evs IH]; intros maps H; simpl; [exact H |].
  now apply IH, add_event_keys_mono.
Qed.

Lemma build_maps_key (raw_events : list RawEvent) (tr : Z) (offset duration : Qc)
    (pitches : list Z) (p : Z) :
  In (offset, duration, pitches) raw_events -> In p pitches -> 0 <= p + tr <= 127 ->
  In offset (tmap_keys (fst (build_maps raw_events tr))).
Proof.
  intros Hin Hp Hrange. unfold build_maps.
  generalize (@nil (Qc * list Z), @nil (Qc * list Z)) as maps.
  induction raw_events as [| e evs IH]; intros maps; [destruct Hin |].
  simpl. destruct Hin as [-> | Hin]; [| now apply IH].
  apply fold_add_event_keys_mono, add_event_key.
  assert (Hv : In (p + tr) (valid_pitches tr pitches)).
  { unfold valid_pitches. apply filter_In. split.
    - apply in_map_iff. now exists p.
    - apply andb_true_iff. split; apply Z.leb_le; lia. }
  intros E. rewrite E in Hv. destruct Hv.
Qed.

(** An event with a pitch that survives the transposition makes the
    encoder return at least one token. *)
Lemma generate_tokens_nonempty (raw_events : list RawEvent) (tr : Z)
    (e : RawEvent) (p : Z) :
  In e raw_events -> In p (snd e) -> 0 <= p + tr <= 127 ->
  _generate_tokens_from_events raw_events tr <> [].
Proof.
  destruct e as [[offset duration] pitches]. cbn [snd]. intros Hin Hp Hrange.
  pose proof (build_maps_key _ _ _ _ _ _ Hin Hp Hrange) as Hkey.
  destruct (token_records_last raw_events tr) as (init & off & E).
  - intros H0.
    assert (Ht : In offset (all_times_of (fst (build_maps raw_events tr))
                                         (snd (build_maps raw_events tr)))).
    { apply sorted_set_In, in_or_app. now left. }
    rewrite H0 in Ht. destruct Ht.
  - unfold _generate_tokens_from_events. rewrite E, map_app.
    intros H. apply app_eq_nil in H. destruct H as [_ H]. discriminate H.
Qed.

(** C9.  For every median pitch the clamped window contains 0, and when
    some extracted event has a pitch in [0, 127] the output of
    [augment=True] contains the untransposed variant. *)
Theorem untransposed_variant_included (raw_events : list RawEvent) (tempo : Z)
    (e : RawEvent) (p : Z) :
  In e raw_events -> In p (snd e) -> 0 <= p <= 127 ->
  (forall median_pitch : Z, In 0 (augment_shifts median_pitch)) /\
  In (_generate_tokens_from_events raw_events 0, tempo)
     (parse_midi_to_tokens (Some (raw_events, tempo)) true).
Proof.
  intros Hin Hp Hrange. split; [exact augment_zero_in_window |].
  unfold parse_midi_to_tokens. cbn [negb]. apply in_flat_map.
  exists 0. split; [apply augment_zero_in_window |].
  unfold augment_variant.
  assert (Hne : _generate_tokens_from_events raw_events 0 <> []).
  { apply (generate_tokens_nonempty raw_events 0 e p); auto. lia. }
  destruct (_generate_tokens_from_events raw_events 0); [contradiction |].
  now left.
Qed.

(** ** C8: the pitch median *)

(** The statistical median of a collection: the middle value of the data
    put in ascending order, or the mean of the two middle values when their
    number is even. *)
Definition is_median (data : list Z) (m : Qc) : Prop :=
  exists s : list Z,
    Permutation data s /\ Sorted Z.le s /\
    let n := List.length s in
    (Nat.Odd n -> m = Z2Qc (nth (n / 2) s 0)) /\
    (Nat.Even n ->
     m = Qcdiv (Qcplus (Z2Qc (nth (n / 2 - 1) s 0)) (Z2Qc (nth (n / 2) s 0)))
               (Z2Qc 2)).

Lemma insert_pitch_perm (p : Z) (l : list Z) : Permutation (p :: l) (insert_pitch p l).
Proof.
  induction l as [| q l IH]; simpl; [reflexivity |].
  destruct (p <=? q); [reflexivity |].
  rewrite perm_swap. now constructor.
Qed.

Lemma sorted_pitches_perm (l : list Z) : Permutation l (sorted_pitches l).
Proof.
  induction l as [| p l IH]; simpl; [constructor |].
  rewrite <- insert_pitch_perm. now constructor.
Qed.

Lemma insert_pitch_sorted (p : Z) (l : list Z) :
  Sorted Z.le l -> Sorted Z.le (insert_pitch p l).
Proof.
  induction 1 as [| q l Hs IH Hhd]; simpl; [repeat constructor |].
  destruct (Z.leb_spec p q) as [Hle | Hgt].
  - constructor; [now constructor | now constructor].
  - constructor; [exact IH |].
    destruct l as [| r l]; simpl.
    + constructor. lia.
    + inversion Hhd; subst. destruct (p <=? r); constructor; lia.
Qed.

Lemma sorted_pitches_sorted (l : list Z) : Sorted Z.le (sorted_pitches l).
Proof.
  induction l; simpl; [constructor | now apply insert_pitch_sorted].
Qed.

Lemma statistics_median_is_median (data : list Z) :
  is_median data (statistics_median data).
Proof.
  exists (sorted_pitches data).
  split; [apply sorted_pitches_perm |]. split; [apply sorted_pitches_sorted |].
  unfold statistics_median. cbv zeta.
  set (s := sorted_pitches data). set (n := List.length s).
  destruct (Nat.eqb_spec (n mod 2) 1) as [Hodd | Heven]; split.
  - reflexivity.
  - intros Hev. apply Nat.Even_EvenT in Hev. destruct Hev as [k Hk].
    exfalso. rewrite Hk, Nat.mul_comm, Nat.Div0.mod_mul in Hodd. discriminate.
  - intros Hod. exfalso. apply Heven. destruct Hod as [k Hk].
    rewrite Hk, Nat.add_comm, Nat.mul_comm, Nat.Div0.mod_add. reflexivity.
  - intros _. apply Qc_is_canon. qc_unfold. rewrite inject_Z_plus. reflexivity.
Qed.

(** [int(x)] drops the fractional part: it rounds toward zero. *)
Lemma py_int_trunc_spec (x : Qc) :
  ((Q2Qc 0 <= x)%Qc ->
   (Z2Qc (py_int_trunc x) <= x)%Qc /\ (x < Z2Qc (py_int_trunc x) + Z2Qc 1)%Qc) /\
  ((x <= Q2Qc 0)%Qc ->
   (Z2Qc (py_int_trunc x) - Z2Qc 1 < x)%Qc /\ (x <= Z2Qc (py_int_trunc x))%Qc).
Proof.
  destruct x as [[a b] Hc]. unfold py_int_trunc. cbn [this Qnum Qden].
  pose proof (Z.quot_rem' a (Zpos b)) as Hqr.
  split; intros H; qc_unfold; unfold Qle, Qlt in *; cbn in H |- *.
  - assert (Ha : 0 <= a) by lia.
    pose proof (Z.rem_bound_pos a (Zpos b) Ha ltac:(lia)). nia.
  - assert (Ha : a <= 0) by lia.
    pose proof (Z.rem_bound_pos_neg a (Zpos b) ltac:(lia) Ha). nia.
Qed.

(** C8, amended.  The pitch-centre analyzer flattens the pitches of all
    events into one collection and returns its statistical median with the
    fractional part dropped (rounded toward zero, not to the nearest
    integer); for an empty collection it returns 60. *)
Theorem pitch_median_contract (raw_events : list RawEvent) :
  let all_pitches := flat_map (fun e : RawEvent => snd e) raw_events in
  let r := _get_pitch_median raw_events in
  (all_pitches = [] -> r = 60) /\
  (all_pitches <> [] ->
   exists m : Qc,
     is_median all_pitches m /\
     ((Q2Qc 0 <= m)%Qc -> (Z2Qc r <= m)%Qc /\ (m < Z2Qc r + Z2Qc 1)%Qc) /\
     ((m <= Q2Qc 0)%Qc -> (Z2Qc r - Z2Qc 1 < m)%Qc /\ (m <= Z2Qc r)%Qc)).
Proof.
  intros all_pitches r. subst r. unfold _get_pitch_median. fold all_pitches.
  split.
  - intros ->. reflexivity.
  - intros Hne. exists (statistics_median all_pitches).
    split; [apply statistics_median_is_median |].
    destruct all_pitches as [| p l]; [contradiction |].
    apply py_int_trunc_spec.
Qed.

(** The median of the pitches 61 and 62 is 61.5; the analyzer returns 61,
    while rounding to the nearest integer gives 62. *)
Lemma pitch_median_not_nearest :
  _get_pitch_median [(Q2Qc 0, Q2Qc 1, [61]); (Q2Qc 0, Q2Qc 1, [62])] = 61 /\
  statistics_median [61; 62] = Q2Qc (123 # 2) /\
  py_round (statistics_median [61; 62]) = 62.
Proof.
  split; [reflexivity |]. split; [apply Qc_is_canon; reflexivity | reflexivity].
Qed.

(** ** Facts about the decoder *)

Definition note_dur (n : Note) : Qc := snd n.

Definition dur_ok (n : Note) : Prop :=
  (Q2Qc 0 < note_dur n)%Qc /\ (note_dur n <= MAX_NOTE_DURATION)%Qc.

Lemma py_min_le_max (raw : Qc) : (py_min raw MAX_NOTE_DURATION <= MAX_NOTE_DURATION)%Qc.
Proof.
  unfold py_min. destruct (Qc_ltb_spec MAX_NOTE_DURATION raw) as [H | H].
  - apply Qcle_refl.
  - now apply Qcnot_lt_le.
Qed.

Lemma py_min_pos (raw : Qc) :
  (Q2Qc 0 < raw)%Qc -> (Q2Qc 0 < py_min raw MAX_NOTE_DURATION)%Qc.
Proof.
  intros H. unfold py_min. destruct (Qc_ltb MAX_NOTE_DURATION raw); [reflexivity | exact H].
Qed.

Lemma py_min_clamps (raw : Qc) :
  (MAX_NOTE_DURATION < raw)%Qc -> py_min raw MAX_NOTE_DURATION = MAX_NOTE_DURATION.
Proof.
  intros H. unfold py_min. destruct (Qc_ltb_spec MAX_NOTE_DURATION raw); [reflexivity | contradiction].
Qed.

Lemma close_open_ok (now : Qc) (pitch : Z) (ns : starts) (collected : list Note) :
  Forall dur_ok collected -> Forall dur_ok (close_open now pitch ns collected).
Proof.
  intros H. unfold close_open. destruct (starts_get pitch ns) as [start |]; [| exact H].
  cbv zeta. destruct (Qc_ltb_spec (Q2Qc 0) (now - start)%Qc) as [Hpos | _]; [| exact H].
  apply Forall_app. split; [exact H |]. constructor; [| constructor].
  split; [now apply py_min_pos | apply py_min_le_max].
Qed.

Lemma fold_note_off_ok (l : list Z) (st : dec_state) :
  Forall dur_ok (collected_notes st) ->
  Forall dur_ok (collected_notes (fold_left note_off l st)).
Proof.
  revert st. induction l as [| p l IH]; intros st H; simpl; [exact H |].
  apply IH. now apply close_open_ok.
Qed.

Lemma fold_note_on_ok (l : list Z) (st : dec_state) :
  Forall dur_ok (collected_notes st) ->
  Forall dur_ok (collected_notes (fold_left note_on l st)).
Proof.
  revert st. induction l as [| p l IH]; intros st H; simpl; [exact H |].
  apply IH. now apply close_open_ok.
Qed.

Lemma flush_notes_ok (st : dec_state) : Forall dur_ok (flush_notes st).
Proof.
  unfold flush_notes. apply Forall_forall. intros n Hn. apply in_flat_map in Hn.
  destruct Hn as ([pitch [start |]] & _ & Hn); unfold flush_pitch in Hn;
    cbn [fst snd] in Hn; [| destruct Hn].
  cbv zeta in Hn.
  destruct (Qc_ltb_spec (Q2Qc 0) (py_min (current_time st - start) MAX_NOTE_DURATION))
    as [Hpos | _]; [| destruct Hn].
  destruct Hn as [<- | []]. split; [exact Hpos | apply py_min_le_max].
Qed.

Lemma insert_note_In (n m : Note) (l : list Note) :
  In m (insert_note n l) <-> m = n \/ In m l.
Proof.
  induction l as [| k l IH]; simpl.
  - intuition.
  - destruct (Qc_leb _ _); simpl; [| rewrite IH]; intuition.
Qed.

Lemma sort_by_start_In (m : Note) (l : list Note) : In m (sort_by_start l) <-> In m l.
Proof.
  induction l as [| n l IH]; simpl; [tauto |].
  rewrite insert_note_In, IH. intuition.
Qed.

Section DecoderProperties.

Variable py_int : string -> option Z.
Variable py_float : string -> option Qc.

Lemma apply_token_ok (st : dec_state) (i : nat) (token : string) :
  Forall dur_ok (collected_notes st) ->
  Forall dur_ok (collected_notes (apply_token py_int py_float st i token)).
Proof.
  intros H. unfold apply_token.
  destruct (token_fields py_float token) as [[[on_part off_part] dur_part] |];
    [| exact H].
  destruct (String.eqb off_part "_").
  - destruct (String.eqb on_part "_"); [exact H |].
    destruct (int_list py_int (split "," on_part)); [| exact H].
    now apply fold_note_on_ok.
  - destruct (int_list py_int (split "," off_part)) as [offs |]; [| exact H].
    cbn [option_map]. pose proof (fold_note_off_ok offs st H) as H1.
    destruct (String.eqb on_part "_"); [exact H1 |].
    destruct (int_list py_int (split "," on_part)); [| exact H1].
    now apply fold_note_on_ok.
Qed.

Lemma decode_from_ok (tokens : list string) (i : nat) (st : dec_state) :
  Forall dur_ok (collected_notes st) ->
  Forall dur_ok (collected_notes (decode_from py_int py_float i tokens st)).
Proof.
  revert i st. induction tokens as [| token rest IH]; intros i st H; simpl; [exact H |].
  now apply IH, apply_token_ok.
Qed.

(** *** The open-pitch table keeps one entry per pitch *)

Lemma starts_set_keys (p : Z) (v : option Qc) (ns : starts) (q : Z) :
  In q (map fst (starts_set p v ns)) <-> q = p \/ In q (map fst ns).
Proof.
  induction ns as [| [r w] ns IH]; simpl.
  - intuition.
  - destruct (Z.eqb_spec r p) as [-> | Hne]; simpl; [intuition |].
    rewrite IH. intuition.
Qed.

Lemma starts_set_NoDup (p : Z) (v : option Qc) (ns : starts) :
  NoDup (map fst ns) -> NoDup (map fst (starts_set p v ns)).
Proof.
  induction ns as [| [r w] ns IH]; simpl; intros H.
  - repeat constructor. intros [].
  - inversion H as [| ? ? Hnotin Hnd]; subst.
    destruct (Z.eqb_spec r p) as [-> | Hne]; simpl; constructor; auto.
    rewrite starts_set_keys. intros [E | Hin]; [now subst | contradiction].
Qed.

Lemma starts_get_In (p : Z) (start : Qc) (ns : starts) :
  NoDup (map fst ns) ->
  (In (p, Some start) ns <-> starts_get p ns = Some start).
Proof.
  induction ns as [| [r w] ns IH]; simpl; intros H.
  - split; [intros [] | discriminate].
  - inversion H as [| ? ? Hnotin Hnd]; subst.
    destruct (Z.eqb_spec r p) as [-> | Hne].
    + split.
      * intros [E | Hin]; [congruence |].
        exfalso. apply Hnotin. apply in_map_iff. now exists (p, Some start).
      * intros ->. now left.
    + rewrite <- (IH Hnd). split; [| now right].
      intros [E | Hin]; [congruence | exact Hin].
Qed.

Lemma fold_note_off_NoDup (l : list Z) (st : dec_state) :
  NoDup (map fst (dec_note_state st)) ->
  NoDup (map fst (dec_note_state (fold_left note_off l st))).
Proof.
  revert st. induction l as [| p l IH]; intros st H; simpl; [exact H |].
  apply IH. now apply starts_set_NoDup.
Qed.

Lemma fold_note_on_NoDup (l : list Z) (st : dec_state) :
  NoDup (map fst (dec_note_state st)) ->
  NoDup (map fst (dec_note_state (fold_left note_on l st))).
Proof.
  revert st. induction l as [| p l IH]; intros st H; simpl; [exact H |].
  apply IH. now apply starts_set_NoDup.
Qed.

Lemma apply_token_NoDup (st : dec_state) (i : nat) (token : string) :
  NoDup (map fst (dec_note_state st)) ->
  NoDup (map fst (dec_note_state (apply_token py_int py_float st i token))).
Proof.
  intros H. unfold apply_token.
  destruct (token_fields py_float token) as [[[on_part off_part] dur_part] |];
    [| exact H].
  destruct (String.eqb off_part "_").
  - destruct (String.eqb on_part "_"); [exact H |].
    destruct (int_list py_int (split "," on_part)); [| exact H].
    now apply fold_note_on_NoDup.
  - destruct (int_list py_int (split "," off_part)) as [offs |]; [| exact H].
    cbn [option_map]. pose proof (fold_note_off_NoDup offs st H) as H1.
    destruct (String.eqb on_part "_"); [exact H1 |].
    destruct (int_list py_int (split "," on_part)); [| exact H1].
    now apply fold_note_on_NoDup.
Qed.

Lemma decode_from_NoDup (tokens : list string) (i : nat) (st : dec_state) :
  NoDup (map fst (dec_note_state st)) ->
  NoDup (map fst (dec_note_state (decode_from py_int py_float i tokens st))).
Proof.
  revert i st. induction tokens as [| token rest IH]; intros i st H; simpl; [exact H |].
  now apply IH, apply_token_NoDup.
Qed.

Lemma flush_notes_In (st : dec_state) (pitch : Z) (start dur : Qc) :
  NoDup (map fst (dec_note_state st)) ->
  (In (pitch, start, dur) (flush_notes st) <->
   starts_get pitch (dec_note_state st) = Some start /\
   dur = py_min (current_time st - start) MAX_NOTE_DURATION /\
   (Q2Qc 0 < dur)%Qc).
Proof.
  intros Hnd. rewrite <- (starts_get_In _ _ _ Hnd).
  unfold flush_notes. rewrite in_flat_map. split.
  - intros ([q [s |]] & Hin & Hn); unfold flush_pitch in Hn; cbn [fst snd] in Hn;
      [| destruct Hn].
    cbv zeta in Hn.
    destruct (Qc_ltb_spec (Q2Qc 0) (py_min (current_time st - s) MAX_NOTE_DURATION))
      as [Hpos | _]; [| destruct Hn].
    destruct Hn as [E | []]. inversion E; subst. auto.
  - intros (Hin & -> & Hpos). exists (pitch, Some start). split; [exact Hin |].
    unfold flush_pitch. cbn [fst snd]. cbv zeta.
    destruct (Qc_ltb_spec (Q2Qc 0) (py_min (current_time st - start) MAX_NOTE_DURATION));
      [now left | contradiction].
Qed.

Lemma py_min_zero_elapsed (t : Qc) : py_min (t - t) MAX_NOTE_DURATION = Q2Qc 0.
Proof.
  replace (t - t)%Qc with (Q2Qc 0) by ring. reflexivity.
Qed.

(** *** What a token does, case by case *)

(** A pitch field as the loop reads it: the sentinel, or a list of
    integers. *)
Definition pitch_field (s : string) : option (list Z) :=
  if String.eqb s "_" then Some [] else int_list py_int (split "," s).

(** The token fails before any pitch is applied: a field is missing, DUR
    is not a number, or some OFF pitch is not an integer. *)
Definition rejected_early (token : string) : Prop :=
  token_fields py_float token = None \/
  exists on_part off_part dur_part,
    token_fields py_float token = Some (on_part, off_part, dur_part) /\
    pitch_field off_part = None.

(** The token fails on its ON field, its OFF pitches [offs] being fine. *)
Definition abandoned_late (token : string) (offs : list Z) : Prop :=
  exists on_part off_part dur_part,
    token_fields py_float token = Some (on_part, off_part, dur_part) /\
    pitch_field off_part = Some offs /\
    pitch_field on_part = None.

Definition well_formed (token : string) (ons offs : list Z) (dur_part : Qc) : Prop :=
  exists on_part off_part,
    token_fields py_float token = Some (on_part, off_part, dur_part) /\
    pitch_field off_part = Some offs /\
    pitch_field on_part = Some ons.

Definition advance (dur_part : Qc) (st : dec_state) : dec_state :=
  mkDec (current_time st + dur_part)%Qc (dec_note_state st) (collected_notes st)
        (reports st).

Lemma apply_token_cases (st : dec_state) (i : nat) (token : string) :
  apply_token py_int py_float st i token =
  match token_fields py_float token with
  | None => report i token st
  | Some (on_part, off_part, dur_part) =>
      match pitch_field off_part with
      | None => report i token st
      | Some offs =>
          match pitch_field on_part with
          | None => report i token (fold_left note_off offs st)
          | Some ons =>
              advance dur_part (fold_left note_on ons (fold_left note_off offs st))
          end
      end
  end.
Proof.
  unfold apply_token, pitch_field.
  destruct (token_fields py_float token) as [[[on_part off_part] dur_part] |];
    [| reflexivity].
  destruct (String.eqb off_part "_"); cbn [fold_left].
  - destruct (String.eqb on_part "_"); [reflexivity |].
    destruct (int_list py_int (split "," on_part)); reflexivity.
  - destruct (int_list py_int (split "," off_part)) as [offs |]; [| reflexivity].
    cbn [option_map].
    destruct (String.eqb on_part "_"); [reflexivity |].
    destruct (int_list py_int (split "," on_part)); reflexivity.
Qed.

Lemma apply_token_rejected_early (st : dec_state) (i : nat) (token : string) :
  rejected_early token -> apply_token py_int py_float st i token = report i token st.
Proof.
  rewrite apply_token_cases.
  intros [-> | (on_part & off_part & dur_part & -> & ->)]; reflexivity.
Qed.

Lemma apply_token_abandoned_late (st : dec_state) (i : nat) (token : string)
    (offs : list Z) :
  abandoned_late token offs ->
  apply_token py_int py_float st i token = report i token (fold_left note_off offs st).
Proof.
  rewrite apply_token_cases.
  intros (on_part & off_part & dur_part & -> & -> & ->). reflexivity.
Qed.

Lemma fold_note_off_time (l : list Z) (st : dec_state) :
  current_time (fold_left note_off l st) = current_time st /\
  reports (fold_left note_off l st) = reports st.
Proof.
  revert st. induction l as [| p l IH]; intros st; simpl; [auto |].
  destruct (IH (note_off st p)) as [-> ->]. auto.
Qed.

(** *** The reports do not influence the music *)

(** Two decoder states that differ at most in their reports. *)
Definition same_music (a b : dec_state) : Prop :=
  current_time a = current_time b /\
  dec_note_state a = dec_note_state b /\
  collected_notes a = collected_notes b.

Lemma same_music_refl (a : dec_state) : same_music a a.
Proof. repeat split. Qed.

Lemma same_music_report (i : nat) (token : string) (a b : dec_state) :
  same_music a b -> same_music (report i token a) b.
Proof. intros H. exact H. Qed.

Lemma fold_note_off_music (l : list Z) (a b : dec_state) :
  same_music a b -> same_music (fold_left note_off l a) (fold_left note_off l b).
Proof.
  revert a b. induction l as [| p l IH]; intros a b H; simpl; [exact H |].
  apply IH. destruct H as (Ht & Hn & Hc). unfold note_off, same_music. cbn.
  rewrite Ht, Hn, Hc. auto.
Qed.

Lemma fold_note_on_music (l : list Z) (a b : dec_state) :
  same_music a b -> same_music (fold_left note_on l a) (fold_left note_on l b).
Proof.
  revert a b. induction l as [| p l IH]; intros a b H; simpl; [exact H |].
  apply IH. destruct H as (Ht & Hn & Hc). unfold note_on, same_music. cbn.
  rewrite Ht, Hn, Hc. auto.
Qed.

Lemma apply_token_music (a b : dec_state) (i j : nat) (token : string) :
  same_music a b ->
  same_music (apply_token py_int py_float a i token)
             (apply_token py_int py_float b j token).
Proof.
  intros H. rewrite !apply_token_cases.
  destruct (token_fields py_float token) as [[[on_part off_part] dur_part] |];
    [| exact H].
  destruct (pitch_field off_part) as [offs |]; [| exact H].
  pose proof (fold_note_off_music offs a b H) as H1.
  destruct (pitch_field on_part) as [ons |]; [| exact H1].
  pose proof (fold_note_on_music ons _ _ H1) as (Ht & Hn & Hc).
  unfold advance, same_music. cbn. rewrite Ht, Hn, Hc. auto.
Qed.

Lemma decode_from_music (tokens : list string) (a b : dec_state) (i j : nat) :
  same_music a b ->
  same_music (decode_from py_int py_float i tokens a)
             (decode_from py_int py_float j tokens b).
Proof.
  revert a b i j. induction tokens as [| token rest IH]; intros a b i j H; simpl;
    [exact H |].
  now apply IH, apply_token_music.
Qed.

Lemma decode_from_app (l1 l2 : list string) (i : nat) (st : dec_state) :
  decode_from py_int py_float i (l1 ++ l2) st =
  decode_from py_int py_float (i + List.length l1) l2
              (decode_from py_int py_float i l1 st).
Proof.
  revert i st. induction l1 as [| token l1 IH]; intros i st; simpl.
  - now rewrite Nat.add_0_r.
  - rewrite IH. now rewrite Nat.add_succ_r.
Qed.

(** A token rejected early can be deleted from the list: the decoded notes
    are the same. *)
Lemma rejected_early_skipped (pre post : list string) (token : string)
    (metadata_tempo : option Z) :
  rejected_early token ->
  fst (fst (tokens_to_midi py_int py_float (pre ++ token :: post) metadata_tempo)) =
  fst (fst (tokens_to_midi py_int py_float (pre ++ post) metadata_tempo)).
Proof.
  intros Hrej. unfold tokens_to_midi, decode_loop. cbn [fst].
  rewrite !decode_from_app. cbn [decode_from].
  rewrite (apply_token_rejected_early _ _ _ Hrej).
  set (s1 := decode_from py_int py_float 0 pre _).
  destruct (decode_from_music post (report (0 + List.length pre) token s1) s1
              (S (0 + List.length pre)) (0 + List.length pre)
              (same_music_report _ _ _ _ (same_music_refl s1)))
    as (Ht & Hn & Hc).
  unfold flush_notes. now rewrite Ht, Hn, Hc.
Qed.

End DecoderProperties.

(** ** C5: decoded durations *)

Lemma starts_get_set_other (p q : Z) (v : option Qc) (ns : starts) :
  p <> q -> starts_get p (starts_set q v ns) = starts_get p ns.
Proof.
  intros Hne. induction ns as [| [r w] ns IH]; simpl.
  - destruct (Z.eqb_spec q p); [congruence | reflexivity].
  - destruct (Z.eqb_spec r q) as [-> | Hrq]; simpl.
    + destruct (Z.eqb_spec q p); [congruence | reflexivity].
    + destruct (Z.eqb_spec r p); [reflexivity | exact IH].
Qed.

Lemma close_open_keeps (now : Qc) (pitch : Z) (ns : starts) (collected : list Note)
    (n : Note) :
  In n collected -> In n (close_open now pitch ns collected).
Proof.
  intros H. unfold close_open. destruct (starts_get pitch ns); [| exact H].
  cbv zeta. destruct (Qc_ltb _ _); [| exact H]. apply in_or_app. now left.
Qed.

Lemma close_open_closes (now : Qc) (pitch : Z) (ns : starts) (collected : list Note)
    (start : Qc) :
  starts_get pitch ns = Some start -> (Q2Qc 0 < now - start)%Qc ->
  In (pitch, start, py_min (now - start) MAX_NOTE_DURATION)
     (close_open now pitch ns collected).
Proof.
  intros Hget Hpos. unfold close_open. rewrite Hget. cbv zeta.
  rewrite (Qc_ltb_true _ _ Hpos). apply in_or_app. right. now left.
Qed.

Lemma fold_note_off_keeps (l : list Z) (st : dec_state) (n : Note) :
  In n (collected_notes st) -> In n (collected_notes (fold_left note_off l st)).
Proof.
  revert st. induction l as [| p l IH]; intros st H; simpl; [exact H |].
  apply IH. now apply close_open_keeps.
Qed.

Lemma fold_note_on_keeps (l : list Z) (st : dec_state) (n : Note) :
  In n (collected_notes st) -> In n (collected_notes (fold_left note_on l st)).
Proof.
  revert st. induction l as [| p l IH]; intros st H; simpl; [exact H |].
  apply IH. now apply close_open_keeps.
Qed.

(** The first OFF of an open pitch closes it. *)
Lemma fold_note_off_closes (l : list Z) (st : dec_state) (pitch : Z) (start : Qc) :
  In pitch l -> starts_get pitch (dec_note_state st) = Some start ->
  (Q2Qc 0 < current_time st - start)%Qc ->
  In (pitch, start, py_min (current_time st - start) MAX_NOTE_DURATION)
     (collected_notes (fold_left note_off l st)).
Proof.
  revert st. induction l as [| p l IH]; intros st Hin Hget Hpos; [destruct Hin |].
  simpl. destruct (Z.eq_dec p pitch) as [-> | Hne].
  - apply fold_note_off_keeps. now apply close_open_closes.
  - destruct Hin as [E | Hin]; [contradiction |].
    apply (IH (note_off st p) Hin); cbn [note_off dec_note_state current_time].
    + rewrite starts_get_set_other by congruence. exact Hget.
    + exact Hpos.
Qed.

(** So does the first ON of a pitch that is still open. *)
Lemma fold_note_on_closes (l : list Z) (st : dec_state) (pitch : Z) (start : Qc) :
  In pitch l -> starts_get pitch (dec_note_state st) = Some start ->
  (Q2Qc 0 < current_time st - start)%Qc ->
  In (pitch, start, py_min (current_time st - start) MAX_NOTE_DURATION)
     (collected_notes (fold_left note_on l st)).
Proof.
  revert st. induction l as [| p l IH]; intros st Hin Hget Hpos; [destruct Hin |].
  simpl. destruct (Z.eq_dec p pitch) as [-> | Hne].
  - apply fold_note_on_keeps. now apply close_open_closes.
  - destruct Hin as [E | Hin]; [contradiction |].
    apply (IH (note_on st p) Hin); cbn [note_on dec_note_state current_time].
    + rewrite starts_get_set_other by congruence. exact Hget.
    + exact Hpos.
Qed.

Lemma fold_note_off_untouched (l : list Z) (st : dec_state) (pitch : Z) :
  ~ In pitch l ->
  starts_get pitch (dec_note_state (fold_left note_off l st))
  = starts_get pitch (dec_note_state st).
Proof.
  revert st. induction l as [| p l IH]; intros st Hni; simpl; [reflexivity |].
  rewrite IH by (intros H; apply Hni; now right).
  cbn [note_off dec_note_state]. apply starts_get_set_other.
  intros ->. apply Hni. now left.
Qed.

Section DecoderClosing.

Variable py_int : string -> option Z.
Variable py_float : string -> option Qc.

Lemma apply_token_keeps (st : dec_state) (i : nat) (token : string) (n : Note) :
  In n (collected_notes st) ->
  In n (collected_notes (apply_token py_int py_float st i token)).
Proof.
  intros H. rewrite apply_token_cases.
  destruct (token_fields py_float token) as [[[on_part off_part] dur_part] |];
    [| exact H].
  destruct (pitch_field py_int off_part) as [offs |]; [| exact H].
  pose proof (fold_note_off_keeps offs st n H) as H1.
  destruct (pitch_field py_int on_part) as [ons |]; [| exact H1].
  cbn [advance collected_notes]. now apply fold_note_on_keeps.
Qed.

Lemma decode_from_keeps (tokens : list string) (i : nat) (st : dec_state) (n : Note) :
  In n (collected_notes st) ->
  In n (collected_notes (decode_from py_int py_float i tokens st)).
Proof.
  revert i st. induction tokens as [| token rest IH]; intros i st H; simpl; [exact H |].
  now apply IH, apply_token_keeps.
Qed.

(** A well-formed token closes every open pitch it names, in its OFF field
    or in its ON field. *)
Lemma apply_token_closes (st : dec_state) (i : nat) (token : string)
    (ons offs : list Z) (dur_part : Qc) (pitch : Z) (start : Qc) :
  well_formed py_int py_float token ons offs dur_part ->
  In pitch offs \/ In pitch ons ->
  starts_get pitch (dec_note_state st) = Some start ->
  (Q2Qc 0 < current_time st - start)%Qc ->
  In (pitch, start, py_min (current_time st - start) MAX_NOTE_DURATION)
     (collected_notes (apply_token py_int py_float st i token)).
Proof.
  intros (on_part & off_part & Ef & Eoff & Eon) Hin Hget Hpos.
  rewrite apply_token_cases, Ef, Eoff, Eon. cbn [advance collected_notes].
  destruct (in_dec Z.eq_dec pitch offs) as [Hoff | Hoff].
  - apply fold_note_on_keeps. now apply fold_note_off_closes.
  - destruct Hin as [Hin | Hin]; [contradiction |].
    destruct (fold_note_off_time offs st) as [Et _]. rewrite <- Et.
    apply fold_note_on_closes; [exact Hin | | now rewrite Et].
    now rewrite fold_note_off_untouched.
Qed.

(** C5.  For every token list, every note the decoder hands over has a
    duration strictly greater than 0 and at most [MAX_NOTE_DURATION = 8];
    and every closing path hands its note over with the clamped duration
    [min(raw, 8)]: a pitch that has been open for a positive time [raw] is
    closed by a well-formed token that names it in its OFF field or in its
    ON field, and by the final clean-up when no token closed it; a raw
    duration above 8 becomes 8. *)
Theorem decoded_duration_bounds (tokens : list string) (metadata_tempo : option Z) :
  let notes := fst (fst (tokens_to_midi py_int py_float tokens metadata_tempo)) in
  (forall n : Note, In n notes -> (Q2Qc 0 < snd n)%Qc /\ (snd n <= Z2Qc 8)%Qc) /\
  (forall (pre post : list string) (token : string) (ons offs : list Z)
          (dur_part : Qc) (pitch : Z) (start : Qc),
      tokens = (pre ++ token :: post)%list ->
      well_formed py_int py_float token ons offs dur_part ->
      In pitch offs \/ In pitch ons ->
      let st := decode_loop py_int py_float pre in
      starts_get pitch (dec_note_state st) = Some start ->
      (Q2Qc 0 < current_time st - start)%Qc ->
      In (pitch, start, py_min (current_time st - start) MAX_NOTE_DURATION) notes) /\
  (forall (pitch : Z) (start : Qc),
      let st := decode_loop py_int py_float tokens in
      starts_get pitch (dec_note_state st) = Some start ->
      (Q2Qc 0 < current_time st - start)%Qc ->
      In (pitch, start, py_min (current_time st - start) MAX_NOTE_DURATION) notes) /\
  (forall raw : Qc, (Z2Qc 8 < raw)%Qc -> py_min raw MAX_NOTE_DURATION = Z2Qc 8).
Proof.
  intros notes. subst notes. unfold tokens_to_midi. cbn [fst].
  split; [| split; [| split; [| exact py_min_clamps]]].
  - intros n Hin. apply (proj1 (sort_by_start_In _ _)) in Hin.
    assert (H : Forall dur_ok (collected_notes (decode_loop py_int py_float tokens)
                               ++ flush_notes (decode_loop py_int py_float tokens))).
    { apply Forall_app. split; [| apply flush_notes_ok].
      apply decode_from_ok. constructor. }
    rewrite Forall_forall in H. exact (H n Hin).
  - intros pre post token ons offs dur_part pitch start -> Hwf Hin Hget Hpos.
    apply (proj2 (sort_by_start_In _ _)), in_or_app. left.
    unfold decode_loop in *. rewrite decode_from_app. cbn [decode_from].
    apply decode_from_keeps.
    now apply (apply_token_closes _ _ token ons offs dur_part).
  - intros pitch start Hget Hpos.
    set (st := decode_loop py_int py_float tokens) in *.
    apply (proj2 (sort_by_start_In _ _)), in_or_app. right.
    assert (Hnd : NoDup (map fst (dec_note_state st)))
      by (apply decode_from_NoDup; constructor).
    apply (proj2 (flush_notes_In st pitch start _ Hnd)).
    split; [exact Hget |]. split; [reflexivity | now apply py_min_pos].
Qed.

End DecoderClosing.

(** Notes with their times as plain fractions, for display. *)
Definition notes_view (l : list Note) : list (Z * Q * Q) :=
  map (fun n : Note => (fst (fst n), this (snd (fst n)), this (snd n))) l.

(** ** C6: malformed tokens *)

(** C6, amended.  A malformed token is reported with its index, does not
    advance the clock, and decoding goes on with the next token.  When a
    field is missing, DUR is not a number or an OFF pitch is not an integer,
    the token changes nothing but the reports, and the decoded notes are
    those of the list without it. *)
Theorem malformed_token_recovery (py_int : string -> option Z)
    (py_float : string -> option Qc) (st : dec_state) (i : nat) (token : string) :
  let st' := apply_token py_int py_float st i token in
  let malformed :=
    rejected_early py_int py_float token \/
    exists offs : list Z, abandoned_late py_int py_float token offs in
  (malformed ->
   reports st' = reports st ++ [(i, token)] /\ current_time st' = current_time st) /\
  (forall rest : list string,
      decode_from py_int py_float i (token :: rest) st =
      decode_from py_int py_float (S i) rest st') /\
  (rejected_early py_int py_float token ->
   st' = report i token st /\
   forall (pre post : list string) (metadata_tempo : option Z),
     fst (fst (tokens_to_midi py_int py_float (pre ++ token :: post) metadata_tempo)) =
     fst (fst (tokens_to_midi py_int py_float (pre ++ post) metadata_tempo))).
Proof.
  intros st' malformed. subst st' malformed. split; [| split].
  - intros [Hrej | [offs Hlate]].
    + rewrite (apply_token_rejected_early _ _ _ _ _ Hrej). auto.
    + rewrite (apply_token_abandoned_late _ _ _ _ _ _ Hlate).
      cbn [report current_time reports].
      destruct (fold_note_off_time offs st) as [-> ->]. auto.
  - reflexivity.
  - intros Hrej. split; [now apply apply_token_rejected_early |].
    intros pre post metadata_tempo. now apply rejected_early_skipped.
Qed.

(** The token ["ON=x;OFF=60;DUR=1.000"] is malformed and reported, yet it
    closes pitch 60: the decoded note lasts 1 beat, against 2 beats when the
    token is left out. *)
Lemma malformed_on_field_has_effect :
  let d := tokens_to_midi int_of_decimal float_of_decimal in
  let t0 := "ON=60;OFF=_;DUR=1.000"%string in
  let bad := "ON=x;OFF=60;DUR=1.000"%string in
  let t2 := "ON=_;OFF=_;DUR=1.000"%string in
  abandoned_late int_of_decimal float_of_decimal bad [60] /\
  snd (d [t0; bad; t2] None) = [(1%nat, bad)] /\
  notes_view (fst (fst (d [t0; bad; t2] None))) = [(60, 0%Q, 1%Q)] /\
  notes_view (fst (fst (d [t0; t2] None))) = [(60, 0%Q, 2%Q)] /\
  fst (fst (d [t0; bad; t2] None)) <> fst (fst (d [t0; t2] None)).
Proof.
  cbv zeta. split; [| repeat split; try (vm_compute; reflexivity)].
  2:{ intros H. apply (f_equal notes_view) in H. vm_compute in H. discriminate H. }
  exists "x"%string, "60"%string, (Q2Qc 1).
  split; [| split; reflexivity].
  unfold token_fields. cbn. f_equal. f_equal. apply Qc_is_canon. reflexivity.
Qed.

(** ** Reading back a token the encoder wrote *)

Lemma field_value_split (key val : string) (parts : list string) (n : nat) :
  nth_error parts n = Some (key ++ String "=" val)%string ->
  clean "=" key -> clean "=" val -> field_value parts n = Some val.
Proof.
  intros Hn Hk Hv. unfold field_value. rewrite Hn.
  rewrite split_app by exact Hk. now rewrite split_clean by exact Hv.
Qed.

(** Reading the three fields of a token the encoder wrote. *)
Lemma token_fields_format (on off : list Z) (n : Z) :
  0 <= n ->
  token_fields float_of_decimal (format_token (mkToken on off (Z2Qc n / Z2Qc 1000)))
  = Some (str_pitches on, str_pitches off, (Z2Qc n / Z2Qc 1000)%Qc).
Proof.
  intros Hn. unfold format_token, token_fields. cbn [tok_on tok_off tok_dur].
  set (A := str_pitches on). set (B := str_pitches off).
  set (C := format_3f (Z2Qc n / Z2Qc 1000)).
  assert (HA : forall c, is_digit c = false -> c <> "-"%char -> c <> ","%char ->
                         c <> "_"%char -> clean c A)
    by (intros; now apply str_pitches_clean).
  assert (HB : forall c, is_digit c = false -> c <> "-"%char -> c <> ","%char ->
                         c <> "_"%char -> clean c B)
    by (intros; now apply str_pitches_clean).
  assert (HC : forall c, is_digit c = false -> c <> "-"%char -> c <> "."%char ->
                         clean c C)
    by (intros; now apply format_3f_clean).
  assert (Hsplit : split ";" ("ON=" ++ A ++ ";OFF=" ++ B ++ ";DUR=" ++ C)
                   = [("ON" ++ String "=" A)%string; ("OFF" ++ String "=" B)%string;
                      ("DUR" ++ String "=" C)%string]).
  { change ("ON=" ++ A ++ ";OFF=" ++ B ++ ";DUR=" ++ C)%string
      with (("ON=" ++ A) ++ String ";" (("OFF=" ++ B) ++ String ";" ("DUR=" ++ C)))%string.
    rewrite split_app.
    2:{ apply clean_app. split; [simpl; repeat split; discriminate |].
        apply HA; [reflexivity | discriminate ..]. }
    rewrite split_app.
    2:{ apply clean_app. split; [simpl; repeat split; discriminate |].
        apply HB; [reflexivity | discriminate ..]. }
    rewrite split_clean; [reflexivity |].
    apply clean_app. split; [simpl; repeat split; discriminate |].
    apply HC; [reflexivity | discriminate ..]. }
  rewrite Hsplit.
  set (parts := [("ON" ++ String "=" A)%string; ("OFF" ++ String "=" B)%string;
                 ("DUR" ++ String "=" C)%string]).
  rewrite (field_value_split "ON" A parts 0 eq_refl);
    [| simpl; repeat split; discriminate | apply HA; [reflexivity | discriminate ..]].
  rewrite (field_value_split "OFF" B parts 1 eq_refl);
    [| simpl; repeat split; discriminate | apply HB; [reflexivity | discriminate ..]].
  rewrite (field_value_split "DUR" C parts 2 eq_refl);
    [| simpl; repeat split; discriminate | apply HC; [reflexivity | discriminate ..]].
  subst C. now rewrite float_of_decimal_format.
Qed.

(** Reading a pitch field the encoder wrote. *)
Lemma split_concat_pitches (p : Z) (l : list Z) :
  split "," (String.concat "," (map py_str (p :: l))) = map py_str (p :: l).
Proof.
  revert p. induction l as [| q l IH]; intros p.
  - simpl. apply split_clean. apply py_str_clean; [reflexivity | discriminate].
  - change (String.concat "," (map py_str (p :: q :: l)))
      with (py_str p ++ String "," (String.concat "," (map py_str (q :: l))))%string.
    rewrite split_app by (apply py_str_clean; [reflexivity | discriminate]).
    now rewrite IH.
Qed.

Lemma int_list_str (l : list Z) : int_list int_of_decimal (map py_str l) = Some l.
Proof.
  induction l as [| p l IH]; simpl; [reflexivity |].
  now rewrite int_of_decimal_str, IH.
Qed.

Lemma append_empty_r (s : string) : (s ++ "")%string = s.
Proof. induction s; simpl; congruence. Qed.

Lemma py_str_not_sentinel (p : Z) (rest : string) :
  String.eqb (py_str p ++ rest) "_" = false.
Proof.
  pose proof (py_str_clean "_" p eq_refl ltac:(discriminate)) as H.
  destruct (py_str p) as [| c s] eqn:E.
  - exfalso. unfold py_str in E.
    destruct (Z.to_int p) as [d | d]; simpl in E; [| discriminate].
    unfold NilZero.string_of_uint in E. destruct d; discriminate.
  - destruct H as [Hc _]. simpl.
    destruct (Ascii.eqb_spec c "_") as [-> | _]; [contradiction | reflexivity].
Qed.

Lemma pitch_field_format (l : list Z) :
  pitch_field int_of_decimal (str_pitches l) = Some l.
Proof.
  unfold pitch_field, str_pitches. destruct l as [| p l]; [reflexivity |].
  replace (String.eqb (String.concat "," (map py_str (p :: l))) "_") with false.
  - now rewrite split_concat_pitches, int_list_str.
  - symmetry. destruct l as [| q l].
    + simpl. rewrite <- (append_empty_r (py_str p)).
      apply py_str_not_sentinel.
    + apply (py_str_not_sentinel p
               (String "," (String.concat "," (map py_str (q :: l))))).
Qed.

(** The decoder applied to one token the encoder wrote: the OFF pitches,
    then the ON pitches, then the duration. *)
Lemma apply_token_format (st : dec_state) (i : nat) (on off : list Z) (n : Z) :
  0 <= n ->
  apply_token int_of_decimal float_of_decimal st i
              (format_token (mkToken on off (Z2Qc n / Z2Qc 1000)))
  = advance (Z2Qc n / Z2Qc 1000)
            (fold_left note_on on (fold_left note_off off st)).
Proof.
  intros Hn. rewrite apply_token_cases, token_fields_format by exact Hn.
  now rewrite !pitch_field_format.
Qed.

Lemma zero_millis : Q2Qc 0 = (Z2Qc 0 / Z2Qc 1000)%Qc.
Proof. apply Qc_is_canon. reflexivity. Qed.

(** ** C10: the final clean-up *)

Lemma starts_get_set_same (p : Z) (v : option Qc) (ns : starts) :
  starts_get p (starts_set p v ns) = v.
Proof.
  induction ns as [| [r w] ns IH]; simpl.
  - now rewrite Z.eqb_refl.
  - destruct (Z.eqb_spec r p) as [-> | Hne]; simpl.
    + now rewrite Z.eqb_refl.
    + destruct (Z.eqb_spec r p); [contradiction | exact IH].
Qed.

(** C10.  After the last token, a pitch that is still open yields a note
    exactly when its clamped duration [min(final_clock - start, 8)] is
    strictly positive; a pitch opened at the final clock value yields none,
    as for the ON of a trailing token with [DUR=0.000], and nothing is
    reported for it. *)
Theorem final_flush_rule (py_int : string -> option Z) (py_float : string -> option Qc)
    (tokens : list string) :
  let st := decode_loop py_int py_float tokens in
  (forall (pitch : Z) (start dur : Qc),
      In (pitch, start, dur) (flush_notes st) <->
      starts_get pitch (dec_note_state st) = Some start /\
      dur = py_min (current_time st - start) MAX_NOTE_DURATION /\
      (Q2Qc 0 < dur)%Qc) /\
  (forall pitch : Z,
      starts_get pitch (dec_note_state st) = Some (current_time st) ->
      forall start dur : Qc, ~ In (pitch, start, dur) (flush_notes st)) /\
  (forall pitch : Z,
      let trailing := format_token (mkToken [pitch] [] (Q2Qc 0)) in
      let st' := decode_loop int_of_decimal float_of_decimal (tokens ++ [trailing]) in
      forall start dur : Qc, ~ In (pitch, start, dur) (flush_notes st')) /\
  format_token (mkToken [60] [] (Q2Qc 0)) = "ON=60;OFF=_;DUR=0.000"%string /\
  tokens_to_midi int_of_decimal float_of_decimal ["ON=60;OFF=_;DUR=0.000"%string] None
  = ([], 120, []).
Proof.
  intros st.
  assert (Hdrop : forall s : dec_state,
             NoDup (map fst (dec_note_state s)) ->
             forall pitch : Z,
               starts_get pitch (dec_note_state s) = Some (current_time s) ->
               forall start dur : Qc, ~ In (pitch, start, dur) (flush_notes s)).
  { intros s Hnd pitch Hopen start dur Hin.
    apply (proj1 (flush_notes_In s pitch start dur Hnd)) in Hin.
    destruct Hin as (Hget & -> & Hpos).
    rewrite Hopen in Hget. inversion Hget; subst.
    rewrite py_min_zero_elapsed in Hpos. discriminate Hpos. }
  assert (Hnd : NoDup (map fst (dec_note_state st))).
  { apply decode_from_NoDup. constructor. }
  split; [| split; [| split; [| split]]].
  - intros pitch start dur. now apply flush_notes_In.
  - now apply Hdrop.
  - intros pitch trailing st'. apply Hdrop.
    + apply decode_from_NoDup. constructor.
    + subst st' trailing. unfold decode_loop. rewrite decode_from_app.
      cbn [decode_from]. rewrite zero_millis.
      rewrite apply_token_format by lia. rewrite <- zero_millis.
      cbn [fold_left advance note_on dec_note_state current_time].
      rewrite starts_get_set_same. f_equal. ring.
  - reflexivity.
  - reflexivity.
Qed.

(** ** C1: re-attack *)

(** A positive quantized duration comes from a duration of at least 0.04. *)
Lemma snap_to_grid_pos (d : Qc) :
  (Q2Qc 0 < snap_to_grid d)%Qc -> (Q2Qc 0 < d)%Qc.
Proof.
  unfold snap_to_grid. destruct (Qc_ltb_spec d noise_threshold) as [Hlt | Hge].
  - intros H. discriminate H.
  - intros _. apply Qcnot_lt_le in Hge.
    eapply Qclt_le_trans; [| exact Hge]. reflexivity.
Qed.

Lemma snapped_nonneg (d g : Qc) :
  (Q2Qc 0 <= d)%Qc -> (Q2Qc 0 < g)%Qc ->
  (Q2Qc 0 <= Z2Qc (py_round (d / g)) * g)%Qc.
Proof.
  intros Hd Hg. apply Qc_mult_nonneg; [| now apply Qclt_le_weak].
  now apply Z2Qc_nonneg, py_round_nonneg, Qc_div_nonneg.
Qed.

(** The result of the quantizer is a non-negative number of thousandths. *)
Lemma snap_to_grid_millis (d : Qc) :
  exists n : Z, 0 <= n /\ snap_to_grid d = (Z2Qc n / Z2Qc 1000)%Qc.
Proof.
  assert (Hr : forall x, (Q2Qc 0 <= x)%Qc ->
                         exists n, 0 <= n /\ py_round3 x = (Z2Qc n / Z2Qc 1000)%Qc).
  { intros x Hx. exists (py_round (x * Z2Qc 1000)). split; [| reflexivity].
    apply py_round_nonneg, Qc_mult_nonneg; [exact Hx | discriminate]. }
  unfold snap_to_grid.
  destruct (Qc_ltb_spec d noise_threshold) as [Hlt | Hge].
  - exists 0. split; [lia |]. apply Qc_is_canon. reflexivity.
  - apply Qcnot_lt_le in Hge.
    assert (Hd : (Q2Qc 0 <= d)%Qc).
    { eapply Qcle_trans; [| exact Hge]. discriminate. }
    destruct (Qc_leb _ _); apply Hr, snapped_nonneg; auto; reflexivity.
Qed.

Lemma counters_set_same (ns : counters) (p v : Z) : counters_set ns p v p = v.
Proof. unfold counters_set. now rewrite Z.eqb_refl. Qed.

Lemma Z2Qc_div_grid (k : Z) (g : Qc) :
  g <> Q2Qc 0 -> (Z2Qc k * g / g)%Qc = Z2Qc k.
Proof. intros Hg. field. exact Hg. Qed.

Lemma Z2Qc_grid_threshold (k : Z) (g : Qc) :
  1 <= k -> (noise_threshold <= g)%Qc -> ~ (Z2Qc k * g < noise_threshold)%Qc.
Proof.
  intros Hk Hg Hlt. apply (Qcle_not_lt _ _ Hg).
  eapply Qcle_lt_trans; [| exact Hlt].
  assert (H1 : (Q2Qc 1 <= Z2Qc k)%Qc).
  { qc_goal. change 1%Q with (inject_Z 1). now rewrite <- Zle_Qle. }
  assert (H0 : (Q2Qc 0 <= g)%Qc).
  { eapply Qcle_trans; [| exact Hg]. discriminate. }
  rewrite <- (Qcmult_1_l g) at 1. now apply Qcmult_le_compat_r.
Qed.

Lemma snap_to_grid_zero : snap_to_grid (Q2Qc 0) = Q2Qc 0.
Proof.
  unfold snap_to_grid.
  destruct (Qc_ltb_spec (Q2Qc 0) noise_threshold) as [_ | H]; [reflexivity |].
  exfalso. apply H. reflexivity.
Qed.

Lemma snap_to_grid_binary_point (k : Z) :
  0 <= k -> snap_to_grid (Z2Qc k * grid_binary) = (Z2Qc k * grid_binary)%Qc.
Proof.
  intros Hk. destruct (Z.eq_dec k 0) as [-> | Hne].
  - replace (Z2Qc 0 * grid_binary)%Qc with (Q2Qc 0) by (apply Qc_is_canon; reflexivity).
    apply snap_to_grid_zero.
  - unfold snap_to_grid.
    destruct (Qc_ltb_spec (Z2Qc k * grid_binary) noise_threshold) as [Hlt | _].
    { exfalso. revert Hlt. apply Z2Qc_grid_threshold; [lia | discriminate]. }
    rewrite Z2Qc_div_grid by discriminate. rewrite py_round_Z.
    replace (Z2Qc k * grid_binary - Z2Qc k * grid_binary)%Qc with (Q2Qc 0) by ring.
    destruct (Qc_leb_spec (Qcabs (Q2Qc 0))
                (Qcabs (Z2Qc k * grid_binary
                        - Z2Qc (py_round (Z2Qc k * grid_binary / grid_ternary))
                          * grid_ternary))) as [_ | Hn].
    + apply py_round3_grid_binary.
    + exfalso. apply Hn. apply Qcabs_nonneg.
Qed.

Lemma exact_time_pos (d : Qc) :
  exact_time d -> (Q2Qc 0 < d)%Qc ->
  exists k : Z, 1 <= k <= 2 ^ 40 /\ d = (Z2Qc k * grid_binary)%Qc.
Proof.
  intros (k & Hk & ->) Hpos. exists k. split; [| reflexivity].
  split; [| lia]. destruct (Z_lt_le_dec 0 k) as [H | H]; [lia |].
  exfalso. revert Hpos. unfold grid_binary. qc_goal. intros Hpos.
  rewrite Zle_Qle in H. change (inject_Z 0) with 0%Q in H. lra.
Qed.

(** A positive time of that kind is quantized to itself. *)
Lemma snap_to_grid_exact_time (d : Qc) :
  exact_time d -> (Q2Qc 0 < d)%Qc -> snap_to_grid d = d.
Proof.
  intros Hd Hpos. destruct (exact_time_pos d Hd Hpos) as (k & Hk & ->).
  apply snap_to_grid_binary_point. lia.
Qed.

Opaque Qc_ltb Qc_eqb Qc_leb snap_to_grid Qcplus Qcminus Q2Qc.




Transparent Qc_ltb Qc_eqb Qc_leb snap_to_grid Qcplus Qcminus Q2Qc.





(** ** Instances on concrete inputs *)

Definition one_note : list RawEvent := [(Q2Qc 0, Q2Qc 1, [60])].

(** Two notes of pitch 60, the second starting when the first ends. *)
Definition two_same_pitch : list RawEvent :=
  [(Q2Qc 0, Q2Qc 1, [60]); (Q2Qc 1, Q2Qc 1, [60])].

(** The state of the sweep over [two_same_pitch] when it reaches the shared
    instant 1: pitch 60 is then pending on both sides, and the token of that
    instant carries it in ON and not in OFF. *)
Lemma token_on_off_disjoint_witness :
  let sm := fst (build_maps two_same_pitch 0) in
  let em := snd (build_maps two_same_pitch 0) in
  let st := sweep_step sm em (mkSweep [] (fun _ => 0) (Q2Qc 0) [] [])
                       (Q2Qc 0) (Some (Q2Qc 1)) in
  let tok := last (tokens (sweep_step sm em st (Q2Qc 1) (Some (Q2Qc 2))))
                  (mkToken [] [] (Q2Qc 0)) in
  (In 60 (fst (pending_at sm em st (Q2Qc 1))) /\
   In 60 (snd (pending_at sm em st (Q2Qc 1)))) /\
  format_token tok = "ON=60;OFF=_;DUR=1.000"%string /\
  In (format_token tok) (_generate_tokens_from_events two_same_pitch 0) /\
  ~ In 60 (tok_off tok) /\ (Some (Q2Qc 2) <> None -> In 60 (tok_on tok)).
Proof.
  cbv zeta.
  assert (Hon : In 60 (fst (pending_at (fst (build_maps two_same_pitch 0))
                                       (snd (build_maps two_same_pitch 0))
                                       (sweep_step (fst (build_maps two_same_pitch 0))
                                          (snd (build_maps two_same_pitch 0))
                                          (mkSweep [] (fun _ => 0) (Q2Qc 0) [] [])
                                          (Q2Qc 0) (Some (Q2Qc 1)))
                                       (Q2Qc 1))))
    by (vm_compute; left; reflexivity).
  assert (Hoff : In 60 (snd (pending_at (fst (build_maps two_same_pitch 0))
                                        (snd (build_maps two_same_pitch 0))
                                        (sweep_step (fst (build_maps two_same_pitch 0))
                                           (snd (build_maps two_same_pitch 0))
                                           (mkSweep [] (fun _ => 0) (Q2Qc 0) [] [])
                                           (Q2Qc 0) (Some (Q2Qc 1)))
                                        (Q2Qc 1))))
    by (vm_compute; left; reflexivity).
  split; [exact (conj Hon Hoff) |].
  split; [vm_compute; reflexivity |].
  split; [vm_compute; right; left; reflexivity |].
  refine (proj1 (proj2 (token_on_off_disjoint two_same_pitch 0) _ (Q2Qc 1)
                       (Some (Q2Qc 2)) 60 Hon Hoff) _ _).
  vm_compute. reflexivity.
Defined.

Lemma final_token_flush_witness :
  _generate_tokens_from_events one_note 0 <> [] /\
  exists off : list Z,
    last (token_records one_note 0) (mkToken [] [] (Q2Qc 0))
    = mkToken [] off (Q2Qc 0) /\
    last (_generate_tokens_from_events one_note 0) EmptyString
    = ("ON=_;OFF=" ++ str_pitches off ++ ";DUR=0.000")%string.
Proof.
  assert (H : _generate_tokens_from_events one_note 0 <> [])
    by (vm_compute; discriminate).
  split; [exact H | exact (final_token_flush one_note 0 H)].
Defined.

Definition two_tokens : list string :=
  ["ON=60;OFF=_;DUR=9.000"%string; "ON=_;OFF=60;DUR=0.000"%string].

(** The token [ON=_;OFF=60;DUR=0.000] closes pitch 60, open since time 0,
    at clock 9: the note handed over lasts [min(9, 8) = 8]. *)
Lemma decoded_duration_bounds_witness :
  let st := decode_loop int_of_decimal float_of_decimal
                        ["ON=60;OFF=_;DUR=9.000"%string] in
  In (60, Q2Qc 0, py_min (current_time st - Q2Qc 0) MAX_NOTE_DURATION)
     (fst (fst (tokens_to_midi int_of_decimal float_of_decimal two_tokens None))) /\
  this (py_min (current_time st - Q2Qc 0) MAX_NOTE_DURATION) = 8%Q.
Proof.
  cbv zeta. split; [| vm_compute; reflexivity].
  refine (proj1 (proj2 (decoded_duration_bounds int_of_decimal float_of_decimal
                          two_tokens None))
                ["ON=60;OFF=_;DUR=9.000"%string] [] "ON=_;OFF=60;DUR=0.000"%string [] [60]
                (match token_fields float_of_decimal "ON=_;OFF=60;DUR=0.000"%string with
                 | Some (_, _, dur_part) => dur_part
                 | None => Q2Qc 0
                 end)
                60 (Q2Qc 0) eq_refl _ (or_introl (or_introl eq_refl)) _ _).
  - exists "_"%string, "60"%string. repeat split; vm_compute; reflexivity.
  - vm_compute. reflexivity.
  - vm_compute. reflexivity.
Defined.

Lemma untransposed_variant_included_witness :
  (forall median_pitch : Z, In 0 (augment_shifts median_pitch)) /\
  In (_generate_tokens_from_events one_note 0, 120)
     (parse_midi_to_tokens (Some (one_note, 120)) true).
Proof.
  apply (untransposed_variant_included one_note 120 (Q2Qc 0, Q2Qc 1, [60]) 60).
  - left. reflexivity.
  - left. reflexivity.
  - lia.
Defined.

(** The token ["ON=200;OFF=_;DUR=abc"] is rejected on its DUR field: the
    notes decoded around it are those decoded without it. *)
Lemma malformed_token_recovery_witness :
  let d := tokens_to_midi int_of_decimal float_of_decimal in
  let t0 := "ON=60;OFF=_;DUR=1.000"%string in
  let bad := "ON=200;OFF=_;DUR=abc"%string in
  let t2 := "ON=_;OFF=60;DUR=1.000"%string in
  rejected_early int_of_decimal float_of_decimal bad /\
  fst (fst (d ([t0] ++ bad :: [t2]) None)) = fst (fst (d ([t0] ++ [t2]) None)).
Proof.
  cbv zeta.
  assert (Hrej : rejected_early int_of_decimal float_of_decimal
                                "ON=200;OFF=_;DUR=abc"%string)
    by (left; reflexivity).
  split; [exact Hrej |].
  destruct (malformed_token_recovery int_of_decimal float_of_decimal
              (mkDec (Q2Qc 0) [] [] []) 1 "ON=200;OFF=_;DUR=abc"%string)
    as (_ & _ & H).
  destruct (H Hrej) as [_ Hskip]. apply Hskip.
Defined.

(** * Part III: further properties of the code *)

(** ** Quantizer: grid points *)

Lemma error_b64_nonneg (d s e : Qc) : error_b64 d s = Some e -> (Q2Qc 0 <= e)%Qc.
Proof.
  unfold error_b64. destruct (b64 (d - s)%Qc); [| discriminate].
  intros E. inversion E. apply Qcabs_nonneg.
Qed.

Lemma snap_to_grid_binary64_eighths (k : Z) :
  1 <= k <= 2 ^ 40 ->
  snap_to_grid_binary64 (Z2Qc k * grid_binary) = Some (Z2Qc k * grid_binary)%Qc.
Proof.
  intros Hk. set (d := (Z2Qc k * grid_binary)%Qc).
  assert (Hbd : b64 d = Some d) by (apply (b64_eighths k); [lia | reflexivity]).
  assert (Hd : (Qabs d <= pow2 1000)%Q).
  { assert (Ed : (d == inject_Z k * (1 # 8))%Q).
    { subst d. unfold Qcmult, Z2Qc, grid_binary, Q2Qc. cbn [this].
      rewrite !Qred_correct. reflexivity. }
    rewrite Ed. apply Qabs_Qle_condition.
    assert (H1 : (inject_Z 1 <= inject_Z k)%Q) by (rewrite <- Zle_Qle; lia).
    assert (H2 : (inject_Z k <= inject_Z (2 ^ 40))%Q) by (rewrite <- Zle_Qle; lia).
    rewrite <- (pow2_Z 40) in H2 by lia. change (inject_Z 1) with 1%Q in H1.
    assert (H3 : (pow2 40 <= pow2 1000)%Q) by (apply pow2_le; lia).
    pose proof (pow2_pos 1000). split; lra. }
  assert (Esb : snapped_b64 d grid_binary = Some d).
  { unfold snapped_b64. subst d. rewrite Z2Qc_div_grid by discriminate.
    rewrite b64_int by lia. rewrite py_round_Z. exact Hbd. }
  assert (Eeb : error_b64 d d = Some (Q2Qc 0)).
  { unfold error_b64. replace (d - d)%Qc with (Q2Qc 0) by ring.
    change (b64 (Q2Qc 0)) with (Some (Q2Qc 0)). cbn [option_map].
    f_equal. apply Qc_is_canon. reflexivity. }
  destruct grid_ternary_b64_bounds as [T1 T2].
  destruct (snapped_b64_finite d grid_ternary_b64 Hd T1 T2) as (st & Est & Hst).
  destruct (error_b64_finite d st Hd Hst) as (et & Eet).
  unfold snap_to_grid_binary64. rewrite Esb, Eeb, Est, Eet.
  assert (Hthr : Qc_ltb d noise_threshold_b64 = false).
  { apply Qc_ltb_false. unfold Qcle. rewrite noise_threshold_b64_value.
    subst d. unfold Qcmult, Z2Qc, grid_binary, Q2Qc. cbn [this]. rewrite !Qred_correct.
    assert (H1 : (inject_Z 1 <= inject_Z k)%Q) by (rewrite <- Zle_Qle; lia).
    change (inject_Z 1) with 1%Q in H1. lra. }
  rewrite Hthr, (Qc_leb_true _ _ (error_b64_nonneg _ _ _ Eet)).
  unfold py_round3_b64.
  assert (E : (d * Z2Qc 1000)%Qc = Z2Qc (125 * k)).
  { subst d. apply Qc_is_canon. unfold grid_binary. qc_unfold. rewrite inject_Z_mult.
    change (inject_Z 125) with 125%Q. change (inject_Z 1000) with 1000%Q. field. }
  rewrite E, py_round_Z.
  replace (Z2Qc (125 * k) / Z2Qc 1000)%Qc with d; [exact Hbd |].
  subst d. apply Qc_is_canon. unfold grid_binary. qc_unfold. rewrite inject_Z_mult.
  change (inject_Z 125) with 125%Q. change (inject_Z 1000) with 1000%Q. field.
Qed.

(** X2.  A whole number of steps of 1/8, between 1 and [2^40] of them, is a
    binary64 number and is returned unchanged: by the quantizer in binary64
    and by its exact reading. *)
Theorem snap_to_grid_grid_points (k : Z) :
  1 <= k <= 2 ^ 40 ->
  let d := (Z2Qc k * Q2Qc (1 # 8))%Qc in
  b64 d = Some d /\ snap_to_grid_binary64 d = Some d /\ snap_to_grid d = d.
Proof.
  intros Hk d. subst d. fold grid_binary. split; [| split].
  - apply (b64_eighths k); [lia | reflexivity].
  - now apply snap_to_grid_binary64_eighths.
  - apply snap_to_grid_binary_point. lia.
Qed.

Lemma snap_to_grid_grid_points_witness :
  let d := (Z2Qc 5 * Q2Qc (1 # 8))%Qc in
  b64 d = Some d /\ snap_to_grid_binary64 d = Some d /\ snap_to_grid d = d.
Proof. apply (snap_to_grid_grid_points 5). simpl. lia. Defined.

(** ** Encoder: when it is silent, and what its tokens look like *)

Lemma valid_pitches_nil (tr : Z) (pitches : list Z) :
  (forall p, In p pitches -> ~ 0 <= p + tr <= 127) -> valid_pitches tr pitches = [].
Proof.
  intros H. unfold valid_pitches. induction pitches as [| p ps IH]; [reflexivity |].
  simpl. destruct ((0 <=? p + tr) && (p + tr <=? 127)) eqn:Hb.
  - exfalso. apply (H p); [now left |]. apply andb_true_iff in Hb.
    destruct Hb as [H1 H2]. apply Z.leb_le in H1, H2. lia.
  - apply IH. intros q Hq. apply H. now right.
Qed.

Lemma build_maps_silent (raw_events : list RawEvent) (tr : Z) :
  (forall e p, In e raw_events -> In p (snd e) -> ~ 0 <= p + tr <= 127) ->
  build_maps raw_events tr = ([], []).
Proof.
  unfold build_maps. generalize (@nil (Qc * list Z), @nil (Qc * list Z)) as maps.
  induction raw_events as [| [[offset duration] pitches] evs IH]; intros maps H;
    [reflexivity |].
  simpl. rewrite valid_pitches_nil.
  - simpl. apply IH. intros e p He. apply H. now right.
  - intros p Hp. apply (H (offset, duration, pitches) p); [now left | exact Hp].
Qed.

(** X3.  The encoder returns no token exactly when no pitch of any event
    falls inside 0..127 after transposition. *)
Theorem generate_tokens_empty_iff (raw_events : list RawEvent) (transpose_semitones : Z) :
  _generate_tokens_from_events raw_events transpose_semitones = [] <->
  forall (e : RawEvent) (p : Z),
    In e raw_events -> In p (snd e) -> ~ 0 <= p + transpose_semitones <= 127.
Proof.
  split.
  - intros Hnil e p He Hp Hr.
    exact (generate_tokens_nonempty raw_events transpose_semitones e p He Hp Hr Hnil).
  - intros H. unfold _generate_tokens_from_events, token_records.
    now rewrite (build_maps_silent _ _ H).
Qed.

Lemma Forall_removelast {A : Type} (P : A -> Prop) (l : list A) :
  Forall P l -> Forall P (removelast l).
Proof.
  induction 1 as [| x l Hx Hl IH]; simpl; [constructor |].
  destruct l; [constructor | now constructor].
Qed.

Definition positive_dur (tok : Token) : Prop := (Q2Qc 0 < tok_dur tok)%Qc.

Lemma sweep_step_positive (sm em : tmap) (st : sweep_state) (t next_t : Qc) :
  Forall positive_dur (tokens st) ->
  Forall positive_dur (tokens (sweep_step sm em st t (Some next_t))).
Proof.
  intros H. unfold sweep_step.
  set (a := fold_left process_ending _ _).
  set (b := fold_left process_starting _ _).
  rewrite orb_false_r.
  destruct (Qc_ltb_spec (Q2Qc 0) (snap_to_grid (next_t - prev_time st)))
    as [Hpos | _]; [| exact H].
  destruct (_ || _); [| exact H].
  cbn [tokens]. apply Forall_app. split; [exact H |].
  constructor; [exact Hpos | constructor].
Qed.

Lemma sweep_positive (sm em : tmap) (times : list Qc) (st : sweep_state) :
  Forall positive_dur (tokens st) ->
  Forall positive_dur (removelast (tokens (sweep sm em times st))).
Proof.
  revert st. induction times as [| t rest IH]; intros st H.
  - simpl. now apply Forall_removelast.
  - destruct rest as [| t' rest].
    + simpl. unfold sweep_step.
      set (a := fold_left process_ending _ _).
      set (b := fold_left process_starting _ _).
      destruct (_ || _); [| now apply Forall_removelast].
      destruct (_ || _); [| now apply Forall_removelast].
      cbn [tokens]. now rewrite removelast_last.
    + change (sweep sm em (t :: t' :: rest) st)
        with (sweep sm em (t' :: rest) (sweep_step sm em st t (Some t'))).
      now apply IH, sweep_step_positive.
Qed.

(** X4.  Every token before the last one carries a strictly positive
    duration: only the final token may have [DUR=0.000]. *)
Theorem tokens_before_last_positive (raw_events : list RawEvent)
    (transpose_semitones : Z) :
  Forall (fun tok => (Q2Qc 0 < tok_dur tok)%Qc)
         (removelast (token_records raw_events transpose_semitones)).
Proof.
  unfold token_records, sweep_all. destruct (all_times_of _ _); [constructor |].
  apply sweep_positive. constructor.
Qed.

Definition in_midi_range (p : Z) : Prop := 0 <= p <= 127.

(** A pending set as the sweep keeps it: no pitch twice, all in range. *)
Definition pset_ok (s : pset) : Prop := NoDup s /\ Forall in_midi_range s.

Definition tmap_in_range (m : tmap) : Prop :=
  Forall (fun kv : Qc * list Z => Forall in_midi_range (snd kv)) m.

Lemma tmap_append_in_range (k : Qc) (p : Z) (m : tmap) :
  in_midi_range p -> tmap_in_range m -> tmap_in_range (tmap_append k p m).
Proof.
  intros Hp. unfold tmap_in_range.
  induction 1 as [| [k' l] m Hl Hm IH]; simpl.
  - constructor; [| constructor]. cbn [snd]. constructor; [exact Hp | constructor].
  - destruct (Qc_eqb k k'); constructor; auto.
    cbn [snd] in *. apply Forall_app. split; [exact Hl | now constructor].
Qed.

Lemma tmap_get_in_range (t : Qc) (m : tmap) :
  tmap_in_range m -> Forall in_midi_range (tmap_get t m).
Proof.
  unfold tmap_in_range. induction 1 as [| [k' l] m Hl Hm IH]; simpl; [constructor |].
  destruct (Qc_eqb t k'); [exact Hl | exact IH].
Qed.

Lemma valid_pitches_in_range (tr : Z) (pitches : list Z) :
  Forall in_midi_range (valid_pitches tr pitches).
Proof.
  unfold valid_pitches. apply Forall_forall. intros q Hq.
  apply filter_In in Hq. destruct Hq as [_ Hb]. apply andb_true_iff in Hb.
  destruct Hb as [H1 H2]. apply Z.leb_le in H1, H2. split; assumption.
Qed.

Lemma build_maps_in_range (raw_events : list RawEvent) (tr : Z) :
  tmap_in_range (fst (build_maps raw_events tr)) /\
  tmap_in_range (snd (build_maps raw_events tr)).
Proof.
  unfold build_maps.
  assert (H0 : tmap_in_range (fst (@nil (Qc * list Z), @nil (Qc * list Z))) /\
               tmap_in_range (snd (@nil (Qc * list Z), @nil (Qc * list Z))))
    by (split; constructor).
  revert H0. generalize (@nil (Qc * list Z), @nil (Qc * list Z)) as maps.
  induction raw_events as [| [[offset duration] pitches] evs IH]; intros maps H;
    [exact H |].
  simpl. apply IH. clear IH.
  pose proof (valid_pitches_in_range tr pitches) as Hv.
  revert maps H. induction Hv as [| p vp Hp Hvp IHv]; intros maps H; [exact H |].
  simpl. apply IHv. destruct H as [H1 H2].
  split; cbn [fst snd]; now apply tmap_append_in_range.
Qed.

Lemma pset_add_ok (p : Z) (s : pset) : in_midi_range p -> pset_ok s -> pset_ok (pset_add p s).
Proof.
  intros Hp [Hnd Hr]. unfold pset_add. destruct (pset_mem p s) eqn:E; [now split |].
  split; constructor; auto. intros Hin. apply pset_mem_In in Hin. congruence.
Qed.

Lemma pset_remove_all_ok (l : list Z) (s : pset) :
  pset_ok s -> pset_ok (fold_left (fun s p => pset_remove p s) l s).
Proof.
  revert s. induction l as [| p l IH]; intros s H; simpl; [exact H |].
  apply IH. destruct H as [Hnd Hr]. unfold pset_remove. split.
  - now apply NoDup_filter.
  - apply Forall_forall. intros q Hq. apply filter_In in Hq.
    rewrite Forall_forall in Hr. now apply Hr.
Qed.

Lemma fold_ending_ok (l : list Z) (ns : counters) (poff : pset) :
  Forall in_midi_range l -> pset_ok poff ->
  pset_ok (snd (fold_left process_ending l (ns, poff))).
Proof.
  intros Hl. revert ns poff. induction Hl as [| p l Hp Hl IH]; intros ns poff H;
    simpl; [exact H |].
  unfold process_ending at 2. cbn [fst snd]. apply IH.
  destruct (_ =? 0); [now apply pset_add_ok | exact H].
Qed.

Lemma fold_starting_ok (l : list Z) (ns : counters) (pon : pset) :
  Forall in_midi_range l -> pset_ok pon ->
  pset_ok (snd (fold_left process_starting l (ns, pon))).
Proof.
  intros Hl. revert ns pon. induction Hl as [| p l Hp Hl IH]; intros ns pon H;
    simpl; [exact H |].
  unfold process_starting at 2. cbn [fst snd]. apply IH. now apply pset_add_ok.
Qed.

Lemma insert_pitch_strict (p : Z) (l : list Z) :
  Sorted Z.lt l -> ~ In p l -> Sorted Z.lt (insert_pitch p l).
Proof.
  induction 1 as [| q l Hs IH Hhd]; simpl; intros Hni; [repeat constructor |].
  destruct (Z.leb_spec p q) as [Hle | Hgt].
  - constructor; [now constructor |]. constructor.
    assert (p <> q) by (intros ->; apply Hni; now left). lia.
  - constructor; [apply IH; intros Hin; apply Hni; now right |].
    destruct l as [| r l]; simpl.
    + constructor. lia.
    + inversion Hhd; subst. destruct (p <=? r); constructor; lia.
Qed.

Lemma sorted_pitches_strict (s : pset) : NoDup s -> Sorted Z.lt (sorted_pitches s).
Proof.
  induction 1 as [| p s Hni Hnd IH]; simpl; [constructor |].
  apply insert_pitch_strict; [exact IH |].
  intros Hin. apply Hni. now apply sorted_pitches_In.
Qed.

(** The two pitch lists of a token in wire order and inside the MIDI range. *)
Definition token_wire_ok (tok : Token) : Prop :=
  Sorted Z.lt (tok_on tok) /\ Sorted Z.lt (tok_off tok) /\
  Forall in_midi_range (tok_on tok) /\ Forall in_midi_range (tok_off tok).

Lemma sorted_pitches_wire (s : pset) :
  pset_ok s -> Sorted Z.lt (sorted_pitches s) /\ Forall in_midi_range (sorted_pitches s).
Proof.
  intros [Hnd Hr]. split; [now apply sorted_pitches_strict |].
  apply Forall_forall. intros q Hq. apply (proj1 (sorted_pitches_In _ _)) in Hq.
  rewrite Forall_forall in Hr. now apply Hr.
Qed.

Definition sweep_ok (st : sweep_state) : Prop :=
  pset_ok (pending_on st) /\ pset_ok (pending_off st) /\
  Forall token_wire_ok (tokens st).

Lemma pset_ok_nil : pset_ok [].
Proof. split; constructor. Qed.

Lemma sweep_step_ok (sm em : tmap) (st : sweep_state) (t : Qc) (next : option Qc) :
  tmap_in_range sm -> tmap_in_range em -> sweep_ok st ->
  sweep_ok (sweep_step sm em st t next).
Proof.
  intros Hsm Hem (Hon & Hoff & Htok). unfold sweep_step.
  set (a := fold_left process_ending _ _).
  set (b := fold_left process_starting _ _).
  assert (Ha : pset_ok (snd a))
    by (apply fold_ending_ok; [now apply tmap_get_in_range | exact Hoff]).
  assert (Hb : pset_ok (snd b))
    by (apply fold_starting_ok; [now apply tmap_get_in_range | exact Hon]).
  pose proof (pset_remove_all_ok (pset_inter (snd b) (snd a)) (snd a) Ha) as Hc.
  destruct (_ || _); [| exact (conj Hb (conj Hc Htok))].
  destruct (_ || _); [| exact (conj Hb (conj Hc Htok))].
  split; [apply pset_ok_nil |]. split; [apply pset_ok_nil |].
  cbn [tokens]. apply Forall_app. split; [exact Htok |].
  constructor; [| constructor].
  destruct (sorted_pitches_wire _ Hb) as [Hb1 Hb2].
  destruct (sorted_pitches_wire _ Hc) as [Hc1 Hc2].
  unfold token_wire_ok. cbn [tok_on tok_off].
  destruct next; repeat split; auto; constructor.
Qed.

Lemma sweep_ok_all (sm em : tmap) (times : list Qc) (st : sweep_state) :
  tmap_in_range sm -> tmap_in_range em -> sweep_ok st ->
  sweep_ok (sweep sm em times st).
Proof.
  intros Hsm Hem. revert st.
  induction times as [| t rest IH]; intros st H; simpl; [exact H |].
  now apply IH, sweep_step_ok.
Qed.

(** X5.  In every token the encoder writes, the ON pitches and the OFF
    pitches are in strictly ascending order (so no pitch is listed twice)
    and all lie in 0..127. *)
Theorem token_pitch_lists_wire_order (raw_events : list RawEvent)
    (transpose_semitones : Z) :
  Forall (fun tok =>
            Sorted Z.lt (tok_on tok) /\ Sorted Z.lt (tok_off tok) /\
            (forall p, In p (tok_on tok) \/ In p (tok_off tok) -> 0 <= p <= 127))
         (token_records raw_events transpose_semitones).
Proof.
  destruct (build_maps_in_range raw_events transpose_semitones) as [Hsm Hem].
  assert (H : Forall token_wire_ok (token_records raw_events transpose_semitones)).
  { unfold token_records, sweep_all. destruct (all_times_of _ _); [constructor |].
    apply sweep_ok_all; auto.
    split; [apply pset_ok_nil |]. split; [apply pset_ok_nil | constructor]. }
  eapply Forall_impl; [| exact H].
  intros tok (H1 & H2 & H3 & H4). split; [exact H1 |]. split; [exact H2 |].
  rewrite Forall_forall in H3, H4. intros p [Hp | Hp]; [now apply H3 | now apply H4].
Qed.

(** ** Encoder: transposition *)

(** The events with every pitch moved by [b] semitones, nothing dropped. *)
Definition shift_events (b : Z) (raw_events : list RawEvent) : list RawEvent :=
  map (fun e : RawEvent => (fst e, map (fun p => p + b) (snd e))) raw_events.

Lemma valid_pitches_shift (a b : Z) (pitches : list Z) :
  valid_pitches a (map (fun p => p + b) pitches) = valid_pitches (b + a) pitches.
Proof.
  unfold valid_pitches. rewrite map_map. f_equal.
  apply map_ext. intros p. lia.
Qed.

Lemma build_maps_shift (a b : Z) (raw_events : list RawEvent) :
  build_maps (shift_events b raw_events) a = build_maps raw_events (b + a).
Proof.
  unfold build_maps. generalize (@nil (Qc * list Z), @nil (Qc * list Z)) as maps.
  induction raw_events as [| [[offset duration] pitches] evs IH]; intros maps;
    [reflexivity |].
  simpl. rewrite valid_pitches_shift. apply IH.
Qed.

(** X6.  Transposition composes: encoding events that were already moved by
    [b] semitones with transposition [a] gives the tokens of the original
    events with transposition [b + a]; the range filter acts on the final
    pitch only. *)
Theorem generate_tokens_shift (a b : Z) (raw_events : list RawEvent) :
  _generate_tokens_from_events (shift_events b raw_events) a =
  _generate_tokens_from_events raw_events (b + a).
Proof.
  unfold _generate_tokens_from_events, token_records. now rewrite build_maps_shift.
Qed.

(** ** Encoder: every OFF answers an earlier ON *)

(** [p] has been opened: it waits in [pending_on] or stands in the ON field
    of a token already emitted. *)
Definition opened (toks : list Token) (pon : pset) (p : Z) : Prop :=
  In p pon \/ exists tok, In tok toks /\ In p (tok_on tok).

(** Every OFF pitch of a token stands in the ON field of an earlier one. *)
Fixpoint offs_answer (earlier : list Token) (toks : list Token) : Prop :=
  match toks with
  | [] => True
  | tok :: rest =>
      (forall p, In p (tok_off tok) -> exists t', In t' earlier /\ In p (tok_on t')) /\
      offs_answer (earlier ++ [tok]) rest
  end.

Lemma offs_answer_app (earlier l1 l2 : list Token) :
  offs_answer earlier (l1 ++ l2) <->
  offs_answer earlier l1 /\ offs_answer (earlier ++ l1) l2.
Proof.
  revert earlier. induction l1 as [| tok l1 IH]; intros earlier; simpl.
  - rewrite app_nil_r. tauto.
  - rewrite IH, <- app_assoc. simpl. tauto.
Qed.

Lemma fold_ending_opened (S : Z -> Prop) (l : list Z) (ns : counters) (poff : pset) :
  (forall p, 0 < ns p -> S p) -> (forall p, In p poff -> S p) ->
  (forall p, 0 < fst (fold_left process_ending l (ns, poff)) p -> S p) /\
  (forall p, In p (snd (fold_left process_ending l (ns, poff))) -> S p).
Proof.
  revert ns poff. induction l as [| q l IH]; intros ns poff Hns Hoff; simpl;
    [split; assumption |].
  unfold process_ending at 2 4. cbn [fst snd]. apply IH.
  - intros p. unfold counters_set. destruct (Z.eqb_spec p q) as [-> | _].
    + intros H. apply Hns. lia.
    + apply Hns.
  - intros p. rewrite counters_set_same.
    destruct (Z.eqb_spec (ns q - 1) 0) as [E | _]; [| apply Hoff].
    intros Hp. apply pset_add_In in Hp. destruct Hp as [-> | Hp]; [| now apply Hoff].
    apply Hns. lia.
Qed.

Lemma fold_starting_opened (toks : list Token) (l : list Z) (ns : counters) (pon : pset) :
  (forall p, 0 < ns p -> opened toks pon p) ->
  (forall p, 0 < fst (fold_left process_starting l (ns, pon)) p ->
             opened toks (snd (fold_left process_starting l (ns, pon))) p) /\
  (forall p, In p pon -> In p (snd (fold_left process_starting l (ns, pon)))).
Proof.
  revert ns pon. induction l as [| q l IH]; intros ns pon Hns; simpl;
    [split; auto |].
  unfold process_starting at 2 4 5. cbn [fst snd].
  destruct (IH (counters_set ns q (ns q + 1)) (pset_add q pon)) as [IH1 IH2].
  - intros p. unfold counters_set. destruct (Z.eqb_spec p q) as [-> | _].
    + intros _. left. apply pset_add_In. now left.
    + intros H. destruct (Hns p H) as [Hp | Hp]; [left | now right].
      apply pset_add_In. now right.
  - split; [exact IH1 |]. intros p Hp. apply IH2, pset_add_In. now right.
Qed.

Definition opened_inv (st : sweep_state) : Prop :=
  (forall p, 0 < note_state st p -> opened (tokens st) (pending_on st) p) /\
  (forall p, In p (pending_off st) -> opened (tokens st) (pending_on st) p) /\
  offs_answer [] (tokens st).

(** What one iteration knows just before it decides whether to emit. *)
Lemma sweep_step_pending (sm em : tmap) (st : sweep_state) (t : Qc) :
  opened_inv st ->
  let a := fold_left process_ending (tmap_get t em) (note_state st, pending_off st) in
  let b := fold_left process_starting (tmap_get t sm) (fst a, pending_on st) in
  let poff := fold_left (fun s p => pset_remove p s) (pset_inter (snd b) (snd a)) (snd a) in
  (forall p, 0 < fst b p -> opened (tokens st) (snd b) p) /\
  (forall p, In p poff -> opened (tokens st) (snd b) p) /\
  (forall p, In p poff -> exists tok, In tok (tokens st) /\ In p (tok_on tok)).
Proof.
  intros (Hns & Hoff & _) a b poff.
  destruct (fold_ending_opened (opened (tokens st) (pending_on st))
              (tmap_get t em) (note_state st) (pending_off st) Hns Hoff)
    as [Ha1 Ha2].
  fold a in Ha1, Ha2.
  destruct (fold_starting_opened (tokens st) (tmap_get t sm) (fst a) (pending_on st) Ha1)
    as [Hb1 Hb2].
  fold b in Hb1, Hb2.
  assert (Hmono : forall p, opened (tokens st) (pending_on st) p ->
                            opened (tokens st) (snd b) p).
  { intros p [Hp | Hp]; [left; now apply Hb2 | now right]. }
  assert (Hp2 : forall p, In p poff -> In p (snd a) /\ ~ In p (snd b)).
  { intros p Hp. apply (proj1 (pset_remove_all_In _ _ _)) in Hp.
    destruct Hp as [Hin Hni]. split; [exact Hin |].
    intros Hb. apply Hni, pset_inter_In. now split. }
  split; [exact Hb1 |]. split.
  - intros p Hp. apply Hmono, Ha2. now apply Hp2.
  - intros p Hp. destruct (Hp2 p Hp) as [Hin Hni].
    destruct (Hmono p (Ha2 p Hin)) as [Hb | Hex]; [contradiction | exact Hex].
Qed.

Lemma sweep_step_opened (sm em : tmap) (st : sweep_state) (t next_t : Qc) :
  opened_inv st -> opened_inv (sweep_step sm em st t (Some next_t)).
Proof.
  intros Hinv. pose proof (sweep_step_pending sm em st t Hinv) as H.
  cbv zeta in H. destruct H as (H1 & H2 & H3).
  destruct Hinv as (_ & _ & Hans).
  unfold sweep_step.
  set (a := fold_left process_ending _ _) in *.
  set (b := fold_left process_starting _ _) in *.
  set (poff := fold_left (fun s p => pset_remove p s) _ _) in *.
  destruct (_ || _); [| exact (conj H1 (conj H2 Hans))].
  destruct (_ || _); [| exact (conj H1 (conj H2 Hans))].
  unfold opened_inv. cbn [tokens note_state pending_on pending_off].
  split; [| split].
  - intros p Hp. right. destruct (H1 p Hp) as [Hb | (tok & Htok & Hin)].
    + eexists. split; [apply in_or_app; right; now left |].
      cbn [tok_on]. now apply sorted_pitches_In.
    + exists tok. split; [apply in_or_app; now left | exact Hin].
  - intros p [].
  - apply offs_answer_app. split; [exact Hans |]. simpl. split; [| exact I].
    intros p Hp. cbn [tok_off] in Hp. apply H3. now apply sorted_pitches_In.
Qed.

Lemma sweep_step_last_answers (sm em : tmap) (st : sweep_state) (t : Qc) :
  opened_inv st -> offs_answer [] (tokens (sweep_step sm em st t None)).
Proof.
  intros Hinv. pose proof (sweep_step_pending sm em st t Hinv) as H.
  cbv zeta in H. destruct H as (H1 & H2 & H3).
  destruct Hinv as (_ & _ & Hans).
  unfold sweep_step.
  set (a := fold_left process_ending _ _) in *.
  set (b := fold_left process_starting _ _) in *.
  set (poff := fold_left (fun s p => pset_remove p s) _ _) in *.
  destruct (_ || _); [| exact Hans].
  destruct (_ || _); [| exact Hans].
  cbn [tokens]. apply offs_answer_app. split; [exact Hans |]. simpl. split; [| exact I].
  intros p Hp. cbn [tok_off] in Hp. apply H3. now apply sorted_pitches_In.
Qed.

Lemma sweep_answers (sm em : tmap) (times : list Qc) (st : sweep_state) :
  opened_inv st -> offs_answer [] (tokens (sweep sm em times st)).
Proof.
  revert st. induction times as [| t rest IH]; intros st Hinv.
  - now destruct Hinv as (_ & _ & H).
  - destruct rest as [| t' rest].
    + simpl. now apply sweep_step_last_answers.
    + change (sweep sm em (t :: t' :: rest) st)
        with (sweep sm em (t' :: rest) (sweep_step sm em st t (Some t'))).
      now apply IH, sweep_step_opened.
Qed.

(** X7.  Every pitch in the OFF field of a token stands in the ON field of
    some earlier token: the encoder never closes a pitch it has not opened
    in the token stream. *)
Theorem off_answers_earlier_on (raw_events : list RawEvent) (transpose_semitones : Z)
    (init rest : list Token) (tok : Token) (p : Z) :
  token_records raw_events transpose_semitones = init ++ tok :: rest ->
  In p (tok_off tok) ->
  exists earlier : Token, In earlier init /\ In p (tok_on earlier).
Proof.
  intros E Hp.
  assert (H : offs_answer [] (token_records raw_events transpose_semitones)).
  { unfold token_records, sweep_all. destruct (all_times_of _ _); [exact I |].
    apply sweep_answers. split; [| split].
    - intros x Hx. cbn in Hx. lia.
    - intros x [].
    - exact I. }
  rewrite E in H. apply offs_answer_app in H. destruct H as [_ [H _]].
  now apply H.
Qed.

(** The second token of [one_note] closes pitch 60, which the first opened. *)
Lemma off_answers_earlier_on_witness :
  exists earlier : Token,
    In earlier (firstn 1 (token_records one_note 0)) /\ In 60 (tok_on earlier).
Proof.
  apply (off_answers_earlier_on one_note 0
           (firstn 1 (token_records one_note 0))
           (skipn 2 (token_records one_note 0))
           (nth 1 (token_records one_note 0) (mkToken [] [] (Q2Qc 0)))
           60).
  - vm_compute. reflexivity.
  - vm_compute. left. reflexivity.
Defined.

(** ** Encoder and decoder together *)

(** A duration the encoder can print exactly: a non-negative number of
    thousandths. *)
Definition millis_dur (tok : Token) : Prop :=
  exists n : Z, 0 <= n /\ tok_dur tok = (Z2Qc n / Z2Qc 1000)%Qc.

Lemma sweep_step_millis (sm em : tmap) (st : sweep_state) (t : Qc) (next : option Qc) :
  Forall millis_dur (tokens st) ->
  Forall millis_dur (tokens (sweep_step sm em st t next)).
Proof.
  intros H. unfold sweep_step.
  set (a := fold_left process_ending _ _).
  set (b := fold_left process_starting _ _).
  destruct (_ || _); [| exact H].
  destruct (_ || _); [| exact H].
  cbn [tokens]. apply Forall_app. split; [exact H |].
  constructor; [| constructor]. unfold millis_dur. cbn [tok_dur].
  destruct next as [next_t |].
  - apply snap_to_grid_millis.
  - exists 0. split; [lia | apply zero_millis].
Qed.

Lemma sweep_millis (sm em : tmap) (times : list Qc) (st : sweep_state) :
  Forall millis_dur (tokens st) -> Forall millis_dur (tokens (sweep sm em times st)).
Proof.
  revert st. induction times as [| t rest IH]; intros st H; simpl; [exact H |].
  now apply IH, sweep_step_millis.
Qed.

Lemma token_records_millis (raw_events : list RawEvent) (tr : Z) :
  Forall millis_dur (token_records raw_events tr).
Proof.
  unfold token_records, sweep_all. destruct (all_times_of _ _); [constructor |].
  apply sweep_millis. constructor.
Qed.

Lemma fold_note_on_time (l : list Z) (st : dec_state) :
  current_time (fold_left note_on l st) = current_time st /\
  reports (fold_left note_on l st) = reports st.
Proof.
  revert st. induction l as [| p l IH]; intros st; simpl; [auto |].
  destruct (IH (note_on st p)) as [-> ->]. auto.
Qed.

Lemma decode_written_reports (l : list Token) (i : nat) (st : dec_state) :
  Forall millis_dur l ->
  reports (decode_from int_of_decimal float_of_decimal i (map format_token l) st)
  = reports st.
Proof.
  intros H. revert i st. induction H as [| tok l Htok Hl IH]; intros i st;
    [reflexivity |].
  cbn [map decode_from]. rewrite IH.
  destruct tok as [on off dur]. destruct Htok as (n & Hn & E). cbn [tok_dur] in E.
  subst dur. rewrite apply_token_format by exact Hn.
  cbn [advance reports].
  destruct (fold_note_on_time on (fold_left note_off off st)) as [_ ->].
  now destruct (fold_note_off_time off st) as [_ ->].
Qed.

(** X8.  The decoder accepts everything the encoder writes: decoding the
    encoder's output reports no token, and each written token is read back
    as the ON pitches, OFF pitches and duration it was built from. *)
Theorem decoder_accepts_encoder_output (raw_events : list RawEvent)
    (transpose_semitones : Z) (metadata_tempo : option Z) :
  snd (tokens_to_midi int_of_decimal float_of_decimal
         (_generate_tokens_from_events raw_events transpose_semitones)
         metadata_tempo) = [] /\
  Forall (fun tok =>
            token_fields float_of_decimal (format_token tok)
            = Some (str_pitches (tok_on tok), str_pitches (tok_off tok), tok_dur tok) /\
            pitch_field int_of_decimal (str_pitches (tok_on tok)) = Some (tok_on tok) /\
            pitch_field int_of_decimal (str_pitches (tok_off tok)) = Some (tok_off tok))
         (token_records raw_events transpose_semitones).
Proof.
  pose proof (token_records_millis raw_events transpose_semitones) as H.
  split.
  - unfold tokens_to_midi, decode_loop, _generate_tokens_from_events. cbn [snd].
    now rewrite decode_written_reports.
  - eapply Forall_impl; [| exact H].
    intros [on off dur] (n & Hn & E). cbn [tok_on tok_off tok_dur] in *. subst dur.
    split; [now apply token_fields_format |].
    split; apply pitch_field_format.
Qed.

(** ** One note through encoder and decoder *)

Opaque Qc_ltb Qc_eqb Qc_leb snap_to_grid Qcplus Qcminus Q2Qc.

Lemma sweep_all_single (t1 t2 : Qc) (q : Z) :
  (t1 < t2)%Qc ->
  sweep_all [(t1, [q])] [(t2, [q])] =
  if Qc_ltb (Q2Qc 0) (snap_to_grid (t2 - t1))
  then [mkToken [q] [] (snap_to_grid (t2 - t1)); mkToken [] [q] (Q2Qc 0)]
  else [mkToken [] [] (Q2Qc 0)].
Proof.
  intros H12.
  destruct (Qc_eqb_lt _ _ H12) as [E12 E21].
  pose proof (Qc_ltb_true _ _ H12) as L12.
  pose proof (Qc_ltb_false _ _ (Qcle_refl (Q2Qc 0))) as L00.
  set (x := snap_to_grid (t2 - t1)).
  unfold sweep_all, all_times_of, sorted_set, sweep, sweep_step.
  destruct (Qc_ltb (Q2Qc 0) x) eqn:Hx;
    repeat (progress (simpl; fold x;
                      rewrite ?L12, ?L00, ?Qc_eqb_refl, ?E12, ?E21, ?Hx, ?Z.eqb_refl,
                              ?counters_set_same));
    reflexivity.
Qed.

Lemma sweep_all_single_instant (t : Qc) (q : Z) :
  sweep_all [(t, [q])] [(t, [q])] = [mkToken [] [] (Q2Qc 0)].
Proof.
  pose proof (Qc_ltb_false _ _ (Qcle_refl t)) as Ltt.
  pose proof (Qc_ltb_false _ _ (Qcle_refl (Q2Qc 0))) as L00.
  unfold sweep_all, all_times_of, sorted_set, sweep, sweep_step.
  repeat (progress (simpl;
                    rewrite ?Ltt, ?L00, ?Qc_eqb_refl, ?Z.eqb_refl, ?counters_set_same)).
  reflexivity.
Qed.

Lemma build_maps_single (o d : Qc) (p tr : Z) :
  0 <= p + tr <= 127 ->
  build_maps [(o, d, [p])] tr = ([(o, [p + tr])], [((o + d)%Qc, [p + tr])]).
Proof.
  intros Hr. unfold build_maps, add_event, valid_pitches. simpl.
  replace ((0 <=? p + tr) && (p + tr <=? 127)) with true
    by (symmetry; apply andb_true_iff; split; apply Z.leb_le; lia).
  reflexivity.
Qed.

Lemma decode_single (q n : Z) (metadata_tempo : option Z) :
  0 <= n -> (Q2Qc 0 < Z2Qc n / Z2Qc 1000)%Qc ->
  fst (fst (tokens_to_midi int_of_decimal float_of_decimal
              (map format_token
                   [mkToken [q] [] (Z2Qc n / Z2Qc 1000); mkToken [] [q] (Q2Qc 0)])
              metadata_tempo)) =
  [(q, Q2Qc 0, py_min (Z2Qc n / Z2Qc 1000) MAX_NOTE_DURATION)].
Proof.
  intros Hn Hx.
  set (x := (Z2Qc n / Z2Qc 1000)%Qc) in *.
  assert (E1 : forall st i on off,
             apply_token int_of_decimal float_of_decimal st i
                         (format_token (mkToken on off x))
             = advance x (fold_left note_on on (fold_left note_off off st)))
    by (intros; apply apply_token_format; lia).
  assert (E3 : forall st i on off,
             apply_token int_of_decimal float_of_decimal st i
                         (format_token (mkToken on off (Q2Qc 0)))
             = advance (Q2Qc 0) (fold_left note_on on (fold_left note_off off st)))
    by (intros; rewrite zero_millis; apply apply_token_format; lia).
  assert (R1 : (Q2Qc 0 + x - Q2Qc 0)%Qc = x) by ring.
  pose proof (Qc_ltb_true _ _ Hx) as L1.
  unfold tokens_to_midi, decode_loop. cbn [map decode_from fst].
  rewrite E1, E3.
  unfold advance, note_on, note_off, flush_notes, flush_pitch, close_open,
    sort_by_start.
  repeat (progress (simpl; rewrite ?Z.eqb_refl, ?R1, ?L1)).
  reflexivity.
Qed.

Transparent Qc_ltb Qc_eqb Qc_leb snap_to_grid Qcplus Qcminus Q2Qc.

(** One note in the exact reading of the arithmetic, for any duration that
    quantizes to a positive value. *)
Lemma single_note_exact (o d : Qc) (p tr : Z) (metadata_tempo : option Z) :
  0 <= p + tr <= 127 ->
  (Q2Qc 0 < snap_to_grid d)%Qc ->
  let tokens := _generate_tokens_from_events [(o, d, [p])] tr in
  tokens = [("ON=" ++ py_str (p + tr) ++ ";OFF=_;DUR=" ++ format_3f (snap_to_grid d))%string;
            ("ON=_;OFF=" ++ py_str (p + tr) ++ ";DUR=0.000")%string] /\
  fst (fst (tokens_to_midi int_of_decimal float_of_decimal tokens metadata_tempo)) =
    [(p + tr, Q2Qc 0, py_min (snap_to_grid d) MAX_NOTE_DURATION)].
Proof.
  intros Hr Hx tokens. subst tokens.
  pose proof (snap_to_grid_pos d Hx) as Hd.
  assert (E : token_records [(o, d, [p])] tr =
              [mkToken [p + tr] [] (snap_to_grid d); mkToken [] [p + tr] (Q2Qc 0)]).
  { unfold token_records. rewrite (build_maps_single o d p tr Hr). cbn [fst snd].
    rewrite sweep_all_single.
    - replace (o + d - o)%Qc with d by ring. now rewrite (Qc_ltb_true _ _ Hx).
    - apply Qclt_minus_iff. now replace (o + d + - o)%Qc with d by ring. }
  unfold _generate_tokens_from_events. rewrite E. split; [reflexivity |].
  destruct (snap_to_grid_millis d) as (n & Hn & En). rewrite En in *.
  now apply decode_single.
Qed.

(** X9.  One note whose offset and positive duration [d] are whole numbers
    of steps of 1/8 (where the arithmetic of the code does not round) is
    written as an ON token with [DUR=d] and a final OFF token, and read back
    as one note of that pitch starting at 0 (the offset of the event is not
    part of the tokens) and lasting [min(d, 8)]. *)
Theorem single_note_round_trip (o d : Qc) (p tr : Z) (metadata_tempo : option Z) :
  0 <= p + tr <= 127 ->
  exact_time o -> exact_time d -> (Q2Qc 0 < d)%Qc ->
  let tokens := _generate_tokens_from_events [(o, d, [p])] tr in
  tokens = [("ON=" ++ py_str (p + tr) ++ ";OFF=_;DUR=" ++ format_3f d)%string;
            ("ON=_;OFF=" ++ py_str (p + tr) ++ ";DUR=0.000")%string] /\
  fst (fst (tokens_to_midi int_of_decimal float_of_decimal tokens metadata_tempo)) =
    [(p + tr, Q2Qc 0, py_min d MAX_NOTE_DURATION)].
Proof.
  intros Hr _ Hd Hpos.
  pose proof (snap_to_grid_exact_time d Hd Hpos) as E.
  assert (Hx : (Q2Qc 0 < snap_to_grid d)%Qc) by now rewrite E.
  pose proof (single_note_exact o d p tr metadata_tempo Hr Hx) as H.
  cbv zeta in H |- *. rewrite E in H. exact H.
Qed.

Lemma single_note_round_trip_witness :
  let tokens := _generate_tokens_from_events [(Q2Qc 3, Q2Qc 1, [60])] 2 in
  tokens = [("ON=" ++ py_str (60 + 2) ++ ";OFF=_;DUR=" ++ format_3f (Q2Qc 1))%string;
            ("ON=_;OFF=" ++ py_str (60 + 2) ++ ";DUR=0.000")%string] /\
  fst (fst (tokens_to_midi int_of_decimal float_of_decimal tokens None)) =
    [(60 + 2, Q2Qc 0, py_min (Q2Qc 1) MAX_NOTE_DURATION)].
Proof.
  apply (single_note_round_trip (Q2Qc 3) (Q2Qc 1) 60 2 None).
  - lia.
  - exists 24. split; [simpl; lia | apply Qc_is_canon; reflexivity].
  - exists 8. split; [simpl; lia | apply Qc_is_canon; reflexivity].
  - reflexivity.
Defined.

(** X10.  One note of duration 0, as a grace note has: its start and its
    end are one time point, the encoder writes the single token
    [ON=_;OFF=_;DUR=0.000], and the decoder returns no note. *)
Theorem zero_length_note_lost (o : Qc) (p tr : Z) (metadata_tempo : option Z) :
  0 <= p + tr <= 127 ->
  let tokens := _generate_tokens_from_events [(o, Q2Qc 0, [p])] tr in
  tokens = ["ON=_;OFF=_;DUR=0.000"%string] /\
  fst (fst (tokens_to_midi int_of_decimal float_of_decimal tokens metadata_tempo)) = [].
Proof.
  intros Hr tokens. subst tokens.
  assert (E : token_records [(o, Q2Qc 0, [p])] tr = [mkToken [] [] (Q2Qc 0)]).
  { unfold token_records. rewrite (build_maps_single o (Q2Qc 0) p tr Hr). cbn [fst snd].
    replace (o + Q2Qc 0)%Qc with o by ring. apply sweep_all_single_instant. }
  unfold _generate_tokens_from_events. rewrite E. split; reflexivity.
Qed.

Lemma zero_length_note_lost_witness :
  let tokens := _generate_tokens_from_events [(Q2Qc 3, Q2Qc 0, [60])] 0 in
  tokens = ["ON=_;OFF=_;DUR=0.000"%string] /\
  fst (fst (tokens_to_midi int_of_decimal float_of_decimal tokens None)) = [].
Proof.
  apply (zero_length_note_lost (Q2Qc 3) 60 0 None). lia.
Defined.

(** ** Decoder: what is reported, how the notes are ordered, where they lie *)

Section DecoderFurther.

Variable py_int : string -> option Z.
Variable py_float : string -> option Qc.

(** The token raises somewhere in the [try] body. *)
Definition malformedb (token : string) : bool :=
  match token_fields py_float token with
  | None => true
  | Some (on_part, off_part, _) =>
      match pitch_field py_int off_part, pitch_field py_int on_part with
      | Some _, Some _ => false
      | _, _ => true
      end
  end.

Lemma apply_token_reports (st : dec_state) (i : nat) (token : string) :
  reports (apply_token py_int py_float st i token) =
  reports st ++ (if malformedb token then [(i, token)] else []).
Proof.
  rewrite apply_token_cases. unfold malformedb.
  destruct (token_fields py_float token) as [[[on_part off_part] dur_part] |];
    [| reflexivity].
  destruct (pitch_field py_int off_part) as [offs |]; [| reflexivity].
  destruct (pitch_field py_int on_part) as [ons |]; cbn [report advance reports].
  - destruct (fold_note_on_time ons (fold_left note_off offs st)) as [_ ->].
    destruct (fold_note_off_time offs st) as [_ ->]. now rewrite app_nil_r.
  - now destruct (fold_note_off_time offs st) as [_ ->].
Qed.

Lemma decode_from_reports (tokens : list string) (i : nat) (st : dec_state) :
  reports (decode_from py_int py_float i tokens st) =
  reports st ++
  filter (fun it : nat * string => malformedb (snd it))
         (combine (seq i (List.length tokens)) tokens).
Proof.
  revert i st. induction tokens as [| token rest IH]; intros i st.
  - simpl. now rewrite app_nil_r.
  - cbn [decode_from List.length seq combine filter snd].
    rewrite IH, apply_token_reports, <- app_assoc.
    destruct (malformedb token); reflexivity.
Qed.

(** X11.  The report list is exactly the malformed tokens, each with its
    index in the token list, in the order of the list; a well-formed token is
    never reported and a malformed one never missed. *)
Theorem reports_are_malformed_tokens (tokens : list string) (metadata_tempo : option Z) :
  snd (tokens_to_midi py_int py_float tokens metadata_tempo) =
  filter (fun it : nat * string => malformedb (snd it))
         (combine (seq 0 (List.length tokens)) tokens).
Proof.
  unfold tokens_to_midi, decode_loop. cbn [snd].
  now rewrite decode_from_reports.
Qed.

End DecoderFurther.

Definition note_start (n : Note) : Qc := snd (fst n).

Definition starts_le (a b : Note) : Prop := (note_start a <= note_start b)%Qc.

Lemma insert_note_perm (n : Note) (l : list Note) : Permutation (n :: l) (insert_note n l).
Proof.
  induction l as [| m l IH]; simpl; [reflexivity |].
  destruct (Qc_leb _ _); [reflexivity |].
  rewrite perm_swap. now constructor.
Qed.

Lemma sort_by_start_perm (l : list Note) : Permutation l (sort_by_start l).
Proof.
  induction l as [| n l IH]; simpl; [constructor |].
  rewrite <- insert_note_perm. now constructor.
Qed.

Lemma insert_note_sorted (n : Note) (l : list Note) :
  Sorted starts_le l -> Sorted starts_le (insert_note n l).
Proof.
  induction 1 as [| m l Hs IH Hhd]; simpl; [repeat constructor |].
  destruct (Qc_leb_spec (snd (fst n)) (snd (fst m))) as [Hle | Hgt].
  - constructor; [now constructor | now constructor].
  - apply Qcnot_le_lt, Qclt_le_weak in Hgt.
    constructor; [exact IH |].
    destruct l as [| r l]; simpl.
    + constructor. exact Hgt.
    + inversion Hhd; subst. destruct (Qc_leb _ _); constructor; assumption.
Qed.

Lemma sort_by_start_sorted (l : list Note) : Sorted starts_le (sort_by_start l).
Proof.
  induction l; simpl; [constructor | now apply insert_note_sorted].
Qed.

(** Equal keys keep their order: a list already in order is returned as
    it is. *)
Lemma insert_note_head (n : Note) (l : list Note) :
  HdRel starts_le n l -> insert_note n l = n :: l.
Proof.
  destruct l as [| m l]; [reflexivity |]. intros H. inversion H as [| ? ? H1]; subst.
  unfold starts_le, note_start in H1. simpl.
  now rewrite (Qc_leb_true _ _ H1).
Qed.

Lemma sort_by_start_fixed (l : list Note) : Sorted starts_le l -> sort_by_start l = l.
Proof.
  induction 1 as [| n l Hs IH Hhd]; [reflexivity |].
  simpl. fold (sort_by_start l). rewrite IH. now apply insert_note_head.
Qed.

(** X12.  The notes handed to the score writer are the collected notes and
    the notes of the final clean-up, rearranged in non-decreasing order of
    start; sorting a list that is already in order changes nothing. *)
Theorem decoded_notes_sorted (py_int : string -> option Z)
    (py_float : string -> option Qc) (tokens : list string)
    (metadata_tempo : option Z) :
  let st := decode_loop py_int py_float tokens in
  let notes := fst (fst (tokens_to_midi py_int py_float tokens metadata_tempo)) in
  Sorted (fun a b : Note => (snd (fst a) <= snd (fst b))%Qc) notes /\
  Permutation (collected_notes st ++ flush_notes st) notes /\
  (forall l : list Note,
      Sorted (fun a b : Note => (snd (fst a) <= snd (fst b))%Qc) l ->
      sort_by_start l = l).
Proof.
  intros st notes. subst st notes. unfold tokens_to_midi. cbn [fst].
  split; [apply sort_by_start_sorted |].
  split; [apply sort_by_start_perm | exact sort_by_start_fixed].
Qed.

(** Linear arithmetic on canonical rationals, through plain rationals. *)
Ltac qc_lra :=
  unfold Qcle, Qclt, Qcplus, Qcminus, Qcopp, Q2Qc in *; cbn [this] in *;
  repeat match goal with
         | H : _ |- _ => setoid_rewrite Qred_correct in H
         end;
  repeat (setoid_rewrite Qred_correct);
  lra.

Lemma py_min_le_raw (raw m : Qc) : (py_min raw m <= raw)%Qc.
Proof.
  unfold py_min. destruct (Qc_ltb_spec m raw) as [H | H].
  - now apply Qclt_le_weak.
  - apply Qcle_refl.
Qed.

Lemma Qc_advance_le (x ct d : Qc) : (Q2Qc 0 <= d)%Qc -> (x <= ct)%Qc -> (x <= ct + d)%Qc.
Proof. intros Hd Hx. qc_lra. Qed.

Lemma Qc_close_le (s ct m : Qc) : (m <= ct - s)%Qc -> (s + m <= ct)%Qc.
Proof. intros H. qc_lra. Qed.

Lemma starts_get_Some_In (p : Z) (s : Qc) (ns : starts) :
  starts_get p ns = Some s -> In (p, Some s) ns.
Proof.
  induction ns as [| [q v] ns IH]; simpl; [discriminate |].
  destruct (Z.eqb_spec q p) as [-> | _].
  - intros ->. now left.
  - intros H. right. now apply IH.
Qed.

Lemma starts_set_In (p q : Z) (v w : option Qc) (ns : starts) :
  In (q, w) (starts_set p v ns) -> (q, w) = (p, v) \/ In (q, w) ns.
Proof.
  induction ns as [| [r u] ns IH]; simpl.
  - intros [E | []]. left. now symmetry.
  - destruct (Z.eqb_spec r p) as [-> | _]; simpl.
    + intros [E | H]; [left; now symmetry | right; now right].
    + intros [E | H]; [right; now left |].
      destruct (IH H) as [E | H']; [now left | right; now right].
Qed.

(** The notes lie between time 0 and [now]. *)
Definition note_within (now : Qc) (n : Note) : Prop :=
  (Q2Qc 0 <= snd (fst n))%Qc /\ (snd (fst n) + snd n <= now)%Qc.

(** The clock is not negative, every open pitch was opened between 0 and
    the clock, every collected note ends by the clock. *)
Definition clock_inv (st : dec_state) : Prop :=
  (Q2Qc 0 <= current_time st)%Qc /\
  (forall p s, In (p, Some s) (dec_note_state st) ->
               (Q2Qc 0 <= s)%Qc /\ (s <= current_time st)%Qc) /\
  Forall (note_within (current_time st)) (collected_notes st).

Lemma close_open_within (now : Qc) (pitch : Z) (ns : starts) (collected : list Note) :
  (forall p s, In (p, Some s) ns -> (Q2Qc 0 <= s)%Qc /\ (s <= now)%Qc) ->
  Forall (note_within now) collected ->
  Forall (note_within now) (close_open now pitch ns collected).
Proof.
  intros Hns H. unfold close_open.
  destruct (starts_get pitch ns) as [start |] eqn:E; [| exact H].
  cbv zeta. destruct (Qc_ltb _ _); [| exact H].
  apply Forall_app. split; [exact H |]. constructor; [| constructor].
  destruct (Hns pitch start (starts_get_Some_In _ _ _ E)) as [H0 _].
  split; cbn [fst snd]; [exact H0 |].
  apply Qc_close_le, py_min_le_raw.
Qed.

Lemma note_off_clock (st : dec_state) (p : Z) : clock_inv st -> clock_inv (note_off st p).
Proof.
  intros (Hct & Hns & Hcol). unfold clock_inv, note_off.
  cbn [current_time dec_note_state collected_notes].
  split; [exact Hct |]. split; [| now apply close_open_within].
  intros q s Hin. apply starts_set_In in Hin.
  destruct Hin as [E | Hin]; [discriminate E | now apply (Hns q)].
Qed.

Lemma note_on_clock (st : dec_state) (p : Z) : clock_inv st -> clock_inv (note_on st p).
Proof.
  intros (Hct & Hns & Hcol). unfold clock_inv, note_on.
  cbn [current_time dec_note_state collected_notes].
  split; [exact Hct |]. split; [| now apply close_open_within].
  intros q s Hin. apply starts_set_In in Hin.
  destruct Hin as [E | Hin]; [| now apply (Hns q)].
  inversion E; subst. split; [exact Hct | apply Qcle_refl].
Qed.

Lemma fold_note_off_clock (l : list Z) (st : dec_state) :
  clock_inv st -> clock_inv (fold_left note_off l st).
Proof.
  revert st. induction l as [| p l IH]; intros st H; simpl; [exact H |].
  now apply IH, note_off_clock.
Qed.

Lemma fold_note_on_clock (l : list Z) (st : dec_state) :
  clock_inv st -> clock_inv (fold_left note_on l st).
Proof.
  revert st. induction l as [| p l IH]; intros st H; simpl; [exact H |].
  now apply IH, note_on_clock.
Qed.

Lemma advance_clock (d : Qc) (st : dec_state) :
  (Q2Qc 0 <= d)%Qc -> clock_inv st -> clock_inv (advance d st).
Proof.
  intros Hd (Hct & Hns & Hcol). unfold clock_inv, advance.
  cbn [current_time dec_note_state collected_notes].
  split; [now apply Qc_advance_le |]. split.
  - intros p s Hin. destruct (Hns p s Hin) as [H0 H1].
    split; [exact H0 | now apply Qc_advance_le].
  - eapply Forall_impl; [| exact Hcol]. intros n [H0 H1].
    split; [exact H0 | now apply Qc_advance_le].
Qed.

Section DecoderClock.

Variable py_int : string -> option Z.
Variable py_float : string -> option Qc.

(** The DUR field of the token, when it can be read, is not negative. *)
Definition dur_nonneg (token : string) : Prop :=
  forall on_part off_part dur_part,
    token_fields py_float token = Some (on_part, off_part, dur_part) ->
    (Q2Qc 0 <= dur_part)%Qc.

Lemma apply_token_clock (st : dec_state) (i : nat) (token : string) :
  dur_nonneg token -> clock_inv st -> clock_inv (apply_token py_int py_float st i token).
Proof.
  intros Hd H. rewrite apply_token_cases. unfold dur_nonneg in Hd.
  destruct (token_fields py_float token) as [[[on_part off_part] dur_part] |];
    [| exact H].
  specialize (Hd on_part off_part dur_part eq_refl).
  destruct (pitch_field py_int off_part) as [offs |]; [| exact H].
  pose proof (fold_note_off_clock offs st H) as H1.
  destruct (pitch_field py_int on_part) as [ons |]; [| exact H1].
  now apply advance_clock, fold_note_on_clock.
Qed.

Lemma decode_from_clock (tokens : list string) (i : nat) (st : dec_state) :
  Forall dur_nonneg tokens -> clock_inv st ->
  clock_inv (decode_from py_int py_float i tokens st).
Proof.
  intros Hall. revert i st. induction Hall as [| token rest Ht Hrest IH];
    intros i st H; simpl; [exact H |].
  now apply IH, apply_token_clock.
Qed.

Lemma decoded_within (tokens : list string) (metadata_tempo : option Z) (n : Note) :
  Forall dur_nonneg tokens ->
  In n (fst (fst (tokens_to_midi py_int py_float tokens metadata_tempo))) ->
  (Q2Qc 0 <= snd (fst n))%Qc /\
  (snd (fst n) + snd n <= current_time (decode_loop py_int py_float tokens))%Qc.
Proof.
  intros Hall Hin. unfold tokens_to_midi in Hin. cbn [fst] in Hin.
  apply (proj1 (sort_by_start_In _ _)) in Hin.
  assert (Hinv : clock_inv (decode_loop py_int py_float tokens)).
  { apply decode_from_clock; [exact Hall |].
    split; [apply Qcle_refl |]. split; [intros p s [] | constructor]. }
  destruct Hinv as (Hct & Hns & Hcol).
  apply in_app_or in Hin. destruct Hin as [Hin | Hin].
  - rewrite Forall_forall in Hcol. exact (Hcol n Hin).
  - unfold flush_notes in Hin. apply in_flat_map in Hin.
    destruct Hin as ([p [s |]] & Hentry & Hn); unfold flush_pitch in Hn;
      cbn [fst snd] in Hn; [| destruct Hn].
    cbv zeta in Hn. destruct (Qc_ltb _ _); [| destruct Hn].
    destruct Hn as [<- | []]. cbn [fst snd].
    destruct (Hns p s Hentry) as [H0 _].
    split; [exact H0 | apply Qc_close_le, py_min_le_raw].
Qed.

(** The DUR field of the token, when it can be read, is a non-negative
    whole number of steps of 1/8. *)
Definition dur_exact (token : string) : Prop :=
  forall on_part off_part dur_part,
    token_fields py_float token = Some (on_part, off_part, dur_part) ->
    (Q2Qc 0 <= dur_part)%Qc /\ exact_time dur_part.

(** X13.  When every DUR that can be read is a non-negative whole number of
    steps of 1/8 and the final clock is at most [2^37] (so that the clock
    of the code never rounds), every decoded note starts at or after time 0
    and ends at or before the final clock value. *)
Theorem decoded_notes_within_clock (tokens : list string) (metadata_tempo : option Z)
    (n : Note) :
  Forall dur_exact tokens ->
  (current_time (decode_loop py_int py_float tokens) <= Z2Qc (2 ^ 37))%Qc ->
  In n (fst (fst (tokens_to_midi py_int py_float tokens metadata_tempo))) ->
  (Q2Qc 0 <= snd (fst n))%Qc /\
  (snd (fst n) + snd n <= current_time (decode_loop py_int py_float tokens))%Qc.
Proof.
  intros Hall _ Hin. apply (decoded_within tokens metadata_tempo n); [| exact Hin].
  eapply Forall_impl; [| exact Hall].
  intros token H on_part off_part dur_part E. exact (proj1 (H _ _ _ E)).
Qed.

End DecoderClock.

Definition three_tokens : list string :=
  ["ON=60;OFF=_;DUR=0.500"%string; "ON=64;OFF=60;DUR=1.000"%string;
   "ON=_;OFF=_;DUR=0.250"%string].

Definition last_decoded_note : Note :=
  last (fst (fst (tokens_to_midi int_of_decimal float_of_decimal three_tokens None)))
       (0, Q2Qc 0, Q2Qc 0).

Lemma decoded_notes_within_clock_witness :
  (Q2Qc 0 <= snd (fst last_decoded_note))%Qc /\
  (snd (fst last_decoded_note) + snd last_decoded_note
   <= current_time (decode_loop int_of_decimal float_of_decimal three_tokens))%Qc.
Proof.
  apply (decoded_notes_within_clock int_of_decimal float_of_decimal three_tokens None).
  - constructor; [| constructor; [| constructor; [| constructor]]];
      intros on_part off_part dur_part E; vm_compute in E; inversion E;
      (split; [discriminate |]).
    + exists 4. split; [simpl; lia | apply Qc_is_canon; reflexivity].
    + exists 8. split; [simpl; lia | apply Qc_is_canon; reflexivity].
    + exists 2. split; [simpl; lia | apply Qc_is_canon; reflexivity].
  - vm_compute. discriminate.
  - vm_compute. right. left. reflexivity.
Defined.

(** ** Pitch centre: bounds and independence of the order *)

Lemma Z2Qc_le (a b : Z) : a <= b <-> (Z2Qc a <= Z2Qc b)%Qc.
Proof.
  unfold Qcle, Z2Qc, Q2Qc. cbn [this]. rewrite !Qred_correct.
  rewrite Zle_Qle. reflexivity.
Qed.

Lemma Z2Qc_lt (a b : Z) : a < b <-> (Z2Qc a < Z2Qc b)%Qc.
Proof.
  unfold Qclt, Z2Qc, Q2Qc. cbn [this]. rewrite !Qred_correct.
  rewrite Zlt_Qlt. reflexivity.
Qed.

Lemma Z2Qc_succ (a : Z) : (Z2Qc a + Z2Qc 1)%Qc = Z2Qc (a + 1).
Proof.
  apply Qc_is_canon. unfold Z2Qc, Qcplus, Q2Qc. cbn [this].
  rewrite !Qred_correct. now rewrite inject_Z_plus.
Qed.

Lemma Z2Qc_pred (a : Z) : (Z2Qc a - Z2Qc 1)%Qc = Z2Qc (a - 1).
Proof.
  apply Qc_is_canon. unfold Z2Qc, Qcminus, Qcplus, Qcopp, Q2Qc. cbn [this].
  rewrite !Qred_correct. unfold Z.sub. rewrite inject_Z_plus, inject_Z_opp. reflexivity.
Qed.

(** [int(x)] stays between two integers that enclose [x]. *)
Lemma py_int_trunc_between (x : Qc) (lo hi : Z) :
  (Z2Qc lo <= x)%Qc -> (x <= Z2Qc hi)%Qc -> lo <= py_int_trunc x <= hi.
Proof.
  intros Hlo Hhi. destruct (py_int_trunc_spec x) as [Hpos Hneg].
  set (r := py_int_trunc x) in *.
  destruct (Qclt_le_dec x (Q2Qc 0)) as [Hx | Hx].
  - destruct (Hneg (Qclt_le_weak _ _ Hx)) as [H1 H2]. rewrite Z2Qc_pred in H1.
    split.
    + apply (proj2 (Z2Qc_le _ _)). eapply Qcle_trans; eassumption.
    + assert (r - 1 < hi) by (apply (proj2 (Z2Qc_lt _ _)); eapply Qclt_le_trans; eassumption). lia.
  - destruct (Hpos Hx) as [H1 H2]. rewrite Z2Qc_succ in H2.
    split.
    + assert (lo < r + 1) by (apply (proj2 (Z2Qc_lt _ _)); eapply Qcle_lt_trans; eassumption). lia.
    + apply (proj2 (Z2Qc_le _ _)). eapply Qcle_trans; eassumption.
Qed.

Lemma Z2Qc_half_between (s lo hi : Z) :
  2 * lo <= s <= 2 * hi ->
  (Z2Qc lo <= Z2Qc s / Z2Qc 2)%Qc /\ (Z2Qc s / Z2Qc 2 <= Z2Qc hi)%Qc.
Proof.
  intros [H1 H2].
  assert (E1 : (inject_Z 2 * inject_Z lo <= inject_Z s)%Q)
    by (rewrite <- inject_Z_mult, <- Zle_Qle; exact H1).
  assert (E2 : (inject_Z s <= inject_Z 2 * inject_Z hi)%Q)
    by (rewrite <- inject_Z_mult, <- Zle_Qle; exact H2).
  change (inject_Z 2) with 2%Q in E1, E2.
  assert (E : (inject_Z s == 2 * (inject_Z s * / 2))%Q) by field.
  unfold Qcle, Qcdiv, Qcmult, Qcinv, Z2Qc, Q2Qc. cbn [this].
  repeat (setoid_rewrite Qred_correct). change (inject_Z 2) with 2%Q.
  set (y := (inject_Z s * / 2)%Q) in *. split; lra.
Qed.

Lemma statistics_median_between (data : list Z) (lo hi : Z) :
  data <> [] -> (forall p, In p data -> lo <= p <= hi) ->
  (Z2Qc lo <= statistics_median data)%Qc /\ (statistics_median data <= Z2Qc hi)%Qc.
Proof.
  intros Hne Hall. unfold statistics_median. cbv zeta.
  set (s := sorted_pitches data).
  assert (Hs : forall p, In p s -> lo <= p <= hi).
  { intros p Hp. apply Hall. now apply sorted_pitches_In. }
  assert (Hlen : (0 < List.length s)%nat).
  { subst s. rewrite <- (Permutation_length (sorted_pitches_perm data)).
    destruct data; [contradiction | simpl; lia]. }
  set (n := List.length s) in *.
  assert (Hhalf : (n / 2 < n)%nat) by (apply Nat.div_lt; lia).
  destruct (Nat.eqb_spec (n mod 2) 1) as [Hodd | Heven].
  - destruct (Hs (nth (n / 2) s 0) (nth_In s 0 Hhalf)) as [H1 H2].
    split; apply (proj1 (Z2Qc_le _ _)); assumption.
  - assert (Hpred : (n / 2 - 1 < n)%nat) by lia.
    destruct (Hs (nth (n / 2) s 0) (nth_In s 0 Hhalf)) as [H1 H2].
    destruct (Hs (nth (n / 2 - 1) s 0) (nth_In s 0 Hpred)) as [H3 H4].
    apply Z2Qc_half_between. lia.
Qed.

(** X14.  The pitch centre lies between the lowest and the highest pitch of
    the events, for pitches of magnitude at most [2^52] (where the mean of
    the two middle pitches is computed without rounding): for MIDI pitches
    it is a MIDI pitch. *)
Theorem pitch_median_between (raw_events : list RawEvent) (lo hi : Z) :
  - 2 ^ 52 <= lo -> hi <= 2 ^ 52 ->
  flat_map (fun e : RawEvent => snd e) raw_events <> [] ->
  (forall e p, In e raw_events -> In p (snd e) -> lo <= p <= hi) ->
  lo <= _get_pitch_median raw_events <= hi.
Proof.
  intros _ _ Hne Hall. unfold _get_pitch_median.
  set (all_pitches := flat_map (fun e : RawEvent => snd e) raw_events) in *.
  assert (Hp : forall p, In p all_pitches -> lo <= p <= hi).
  { intros p Hp. apply in_flat_map in Hp. destruct Hp as (e & He & Hp).
    now apply (Hall e). }
  destruct (statistics_median_between all_pitches lo hi Hne Hp) as [H1 H2].
  destruct all_pitches as [| p0 l]; [contradiction |].
  now apply py_int_trunc_between.
Qed.

Lemma pitch_median_between_witness :
  0 <= _get_pitch_median [(Q2Qc 0, Q2Qc 1, [60; 64]); (Q2Qc 1, Q2Qc 1, [72])] <= 127.
Proof.
  apply pitch_median_between.
  - simpl. lia.
  - simpl. lia.
  - discriminate.
  - intros e p He Hp. simpl in He.
    destruct He as [<- | [<- | []]]; simpl in Hp;
      repeat (destruct Hp as [<- | Hp]; [lia |]); destruct Hp.
Defined.

Lemma sorted_perm_eq (l l' : list Z) :
  Sorted Z.le l -> Sorted Z.le l' -> Permutation l l' -> l = l'.
Proof.
  intros Hl. revert l'. induction Hl as [| a l Hs IH Hhd]; intros l' Hl' Hp.
  - apply Permutation_nil in Hp. now subst.
  - destruct l' as [| b l']; [apply Permutation_sym, Permutation_nil in Hp; discriminate |].
    assert (Sa : StronglySorted Z.le (a :: l)).
    { apply Sorted_StronglySorted; [intros x y z; lia | now constructor]. }
    assert (Sb : StronglySorted Z.le (b :: l')).
    { apply Sorted_StronglySorted; [intros x y z; lia | exact Hl']. }
    inversion Sa as [| ? ? _ Fa]; subst. inversion Sb as [| ? ? _ Fb]; subst.
    rewrite Forall_forall in Fa, Fb.
    assert (Hab : a = b).
    { assert (Ha : In a (b :: l')) by (eapply Permutation_in; [exact Hp | now left]).
      assert (Hb : In b (a :: l))
        by (eapply Permutation_in; [apply Permutation_sym; exact Hp | now left]).
      destruct Ha as [-> | Ha]; [reflexivity |].
      destruct Hb as [-> | Hb]; [reflexivity |].
      pose proof (Fa b Hb). pose proof (Fb a Ha). lia. }
    subst b. f_equal. apply IH.
    + now inversion Hl'.
    + now apply Permutation_cons_inv in Hp.
Qed.

Lemma sorted_pitches_perm_eq (l l' : list Z) :
  Permutation l l' -> sorted_pitches l = sorted_pitches l'.
Proof.
  intros Hp. apply sorted_perm_eq; try apply sorted_pitches_sorted.
  rewrite <- (sorted_pitches_perm l), <- (sorted_pitches_perm l'). exact Hp.
Qed.

(** X15.  The pitch centre depends only on which pitches occur and how
    often: regrouping or reordering the events does not change it. *)
Theorem pitch_median_order_independent (raw_events raw_events' : list RawEvent) :
  Permutation (flat_map (fun e : RawEvent => snd e) raw_events)
              (flat_map (fun e : RawEvent => snd e) raw_events') ->
  _get_pitch_median raw_events = _get_pitch_median raw_events'.
Proof.
  intros Hp. unfold _get_pitch_median.
  set (l := flat_map (fun e : RawEvent => snd e) raw_events) in *.
  set (l' := flat_map (fun e : RawEvent => snd e) raw_events') in *.
  assert (E : statistics_median l = statistics_median l').
  { unfold statistics_median. now rewrite (sorted_pitches_perm_eq l l' Hp). }
  destruct l as [| p l1].
  - apply Permutation_nil in Hp. now rewrite Hp.
  - destruct l' as [| p' l1'].
    + apply Permutation_sym, Permutation_nil in Hp. discriminate Hp.
    + now rewrite E.
Qed.

Lemma pitch_median_order_independent_witness :
  _get_pitch_median [(Q2Qc 0, Q2Qc 1, [60; 64])] =
  _get_pitch_median [(Q2Qc 5, Q2Qc 2, [64]); (Q2Qc 0, Q2Qc 1, [60])].
Proof.
  apply pitch_median_order_independent. simpl. apply perm_swap.
Defined.

(** ** The two modes of [parse_midi_to_tokens] *)

Lemma augment_variant_cases (raw_events : list RawEvent) (tempo semitone : Z) :
  (_generate_tokens_from_events raw_events semitone = [] /\
   augment_variant raw_events tempo semitone = []) \/
  (_generate_tokens_from_events raw_events semitone <> [] /\
   augment_variant raw_events tempo semitone =
     [(_generate_tokens_from_events raw_events semitone, tempo)]).
Proof.
  unfold augment_variant.
  destruct (_generate_tokens_from_events raw_events semitone) as [| t ts].
  - now left.
  - right. split; [discriminate | reflexivity].
Qed.

Lemma augment_shifts_range (m s : Z) : In s (augment_shifts m) -> -11 <= s <= 11.
Proof.
  pose proof (augment_shifts_window m) as E. cbv zeta in E. rewrite E.
  set (shift := Z.max (-6) (Z.min 5 (60 - m))).
  assert (-6 <= shift <= 5) by (subst shift; lia).
  simpl. lia.
Qed.

Lemma augment_shifts_length (m : Z) : List.length (augment_shifts m) = 12%nat.
Proof.
  pose proof (augment_shifts_window m) as E. cbv zeta in E. now rewrite E.
Qed.

Lemma flat_map_variants_length (raw_events : list RawEvent) (tempo : Z) (l : list Z) :
  (List.length (flat_map (augment_variant raw_events tempo) l) <= List.length l)%nat.
Proof.
  induction l as [| s l IH]; simpl; [lia |].
  rewrite length_app.
  destruct (augment_variant_cases raw_events tempo s) as [[_ ->] | [_ ->]]; simpl; lia.
Qed.

Lemma flat_map_variants_all (raw_events : list RawEvent) (tempo : Z) (l : list Z) :
  (forall s, In s l -> _generate_tokens_from_events raw_events s <> []) ->
  flat_map (augment_variant raw_events tempo) l =
  map (fun s => (_generate_tokens_from_events raw_events s, tempo)) l.
Proof.
  induction l as [| s l IH]; intros H; simpl; [reflexivity |].
  rewrite IH by (intros s' Hs'; apply H; now right).
  destruct (augment_variant_cases raw_events tempo s) as [[E _] | [_ ->]].
  - exfalso. apply (H s); [now left | exact E].
  - reflexivity.
Qed.

Lemma flat_map_variants_none (raw_events : list RawEvent) (tempo : Z) (l : list Z) :
  (forall s, In s l -> _generate_tokens_from_events raw_events s = []) ->
  flat_map (augment_variant raw_events tempo) l = [].
Proof.
  induction l as [| s l IH]; intros H; simpl; [reflexivity |].
  rewrite IH by (intros s' Hs'; apply H; now right).
  destruct (augment_variant_cases raw_events tempo s) as [[_ ->] | [E _]].
  - reflexivity.
  - exfalso. apply E, H. now left.
Qed.

(** X16.  With [augment=True] the result holds at most twelve variants;
    each carries the tempo of the score and a non-empty token list, which
    is the encoding of the events at a transposition between -11 and 11. *)
Theorem augmented_variants_shape (raw_events : list RawEvent) (tempo : Z) :
  let out := parse_midi_to_tokens (Some (raw_events, tempo)) true in
  (List.length out <= 12)%nat /\
  Forall (fun v : list string * Z =>
            fst v <> [] /\ snd v = tempo /\
            exists semitone : Z,
              -11 <= semitone <= 11 /\
              fst v = _generate_tokens_from_events raw_events semitone) out.
Proof.
  cbv zeta. unfold parse_midi_to_tokens. cbn [negb].
  set (m := _get_pitch_median raw_events). split.
  - rewrite <- (augment_shifts_length m). apply flat_map_variants_length.
  - apply Forall_forall. intros v Hv. apply in_flat_map in Hv.
    destruct Hv as (s & Hs & Hv).
    destruct (augment_variant_cases raw_events tempo s) as [[_ E] | [Hne E]];
      rewrite E in Hv; [destruct Hv |].
    destruct Hv as [<- | []]. cbn [fst snd]. split; [exact Hne |].
    split; [reflexivity |]. exists s. split; [| reflexivity].
    now apply (augment_shifts_range m).
Qed.

(** X17.  When some event has a pitch between 11 and 116, no transposition
    of the window silences the piece: [augment=True] returns exactly twelve
    variants, one for each semitone of the window and in its order. *)
Theorem augmented_variants_complete (raw_events : list RawEvent) (tempo : Z)
    (e : RawEvent) (p : Z) :
  In e raw_events -> In p (snd e) -> 11 <= p <= 116 ->
  parse_midi_to_tokens (Some (raw_events, tempo)) true =
    map (fun semitone => (_generate_tokens_from_events raw_events semitone, tempo))
        (augment_shifts (_get_pitch_median raw_events)) /\
  List.length (parse_midi_to_tokens (Some (raw_events, tempo)) true) = 12%nat.
Proof.
  intros He Hp Hr.
  assert (E : parse_midi_to_tokens (Some (raw_events, tempo)) true =
              map (fun semitone =>
                     (_generate_tokens_from_events raw_events semitone, tempo))
                  (augment_shifts (_get_pitch_median raw_events))).
  { unfold parse_midi_to_tokens. cbn [negb]. apply flat_map_variants_all.
    intros s Hs. apply augment_shifts_range in Hs.
    apply (generate_tokens_nonempty raw_events s e p He Hp). lia. }
  split; [exact E |].
  rewrite E, length_map. apply augment_shifts_length.
Qed.

Lemma augmented_variants_complete_witness :
  parse_midi_to_tokens (Some (one_note, 90)) true =
    map (fun semitone => (_generate_tokens_from_events one_note semitone, 90))
        (augment_shifts (_get_pitch_median one_note)) /\
  List.length (parse_midi_to_tokens (Some (one_note, 90)) true) = 12%nat.
Proof.
  apply (augmented_variants_complete one_note 90 (Q2Qc 0, Q2Qc 1, [60]) 60).
  - left. reflexivity.
  - left. reflexivity.
  - lia.
Defined.

(** X18.  When every pitch of the score lies more than eleven semitones
    outside 0..127 (in particular when the score has no pitch at all),
    [augment=True] returns the empty list, while [augment=False] still
    returns one entry, whose token list is empty. *)
Theorem silent_score_modes (raw_events : list RawEvent) (tempo : Z) :
  (forall (e : RawEvent) (p : Z),
     In e raw_events -> In p (snd e) -> p < -11 \/ 138 < p) ->
  parse_midi_to_tokens (Some (raw_events, tempo)) true = [] /\
  parse_midi_to_tokens (Some (raw_events, tempo)) false = [([], tempo)].
Proof.
  intros H.
  assert (Hsilent : forall s, -11 <= s <= 11 ->
                              _generate_tokens_from_events raw_events s = []).
  { intros s Hs. unfold _generate_tokens_from_events, token_records.
    rewrite build_maps_silent; [reflexivity |].
    intros e p He Hp Hr. destruct (H e p He Hp); lia. }
  split.
  - unfold parse_midi_to_tokens. cbn [negb]. apply flat_map_variants_none.
    intros s Hs. apply Hsilent. now apply augment_shifts_range in Hs.
  - unfold parse_midi_to_tokens. cbn [negb]. rewrite Hsilent by lia. reflexivity.
Qed.

Lemma silent_score_modes_witness :
  parse_midi_to_tokens (Some ([(Q2Qc 0, Q2Qc 1, [200]); (Q2Qc 1, Q2Qc 1, [])], 120)) true
    = [] /\
  parse_midi_to_tokens (Some ([(Q2Qc 0, Q2Qc 1, [200]); (Q2Qc 1, Q2Qc 1, [])], 120)) false
    = [([], 120)].
Proof.
  apply silent_score_modes.
  intros e p He Hp. simpl in He.
  destruct He as [<- | [<- | []]]; simpl in Hp.
  - destruct Hp as [<- | []]. right. lia.
  - destruct Hp.
Defined.

(** ** Time keeping: the durations of the tokens and the decoder's clock *)

(** The time covered by a list of tokens. *)
Definition total_dur (l : list Token) : Qc :=
  fold_right (fun tok acc => (tok_dur tok + acc)%Qc) (Q2Qc 0) l.
















Lemma decode_written_clock (l : list Token) (i : nat) (st : dec_state) :
  Forall millis_dur l ->
  current_time (decode_from int_of_decimal float_of_decimal i (map format_token l) st)
  = (current_time st + total_dur l)%Qc.
Proof.
  intros H. revert i st. induction H as [| tok l Htok Hl IH]; intros i st.
  - cbn [map decode_from total_dur fold_right]. ring.
  - cbn [map decode_from]. rewrite IH.
    destruct tok as [on off dur]. destruct Htok as (n & Hn & E). cbn [tok_dur] in E.
    subst dur. rewrite apply_token_format by exact Hn.
    change (total_dur (mkToken on off (Z2Qc n / Z2Qc 1000) :: l))
      with (Z2Qc n / Z2Qc 1000 + total_dur l)%Qc.
    cbn [advance current_time].
    destruct (fold_note_on_time on (fold_left note_off off st)) as [-> _].
    destruct (fold_note_off_time off st) as [-> _]. ring.
Qed.

(** X21.  After the decoder has read the encoder's output its clock stands
    at the sum of the durations of the tokens: no token is skipped and no
    duration is lost between writing and reading. *)
Theorem decoder_clock_of_encoder_output (raw_events : list RawEvent)
    (transpose_semitones : Z) :
  current_time (decode_loop int_of_decimal float_of_decimal
                  (_generate_tokens_from_events raw_events transpose_semitones))
  = total_dur (token_records raw_events transpose_semitones).
Proof.
  unfold decode_loop, _generate_tokens_from_events.
  rewrite decode_written_clock by apply token_records_millis.
  cbn [current_time]. ring.
Qed.

Section DecoderTime.

Variable py_int : string -> option Z.
Variable py_float : string -> option Qc.

(** The time by which a token moves the clock: its DUR when the whole token
    is read, nothing when it raises. *)
Definition accepted_dur (token : string) : Qc :=
  match token_fields py_float token with
  | Some (_, _, dur_part) =>
      if malformedb py_int py_float token then Q2Qc 0 else dur_part
  | None => Q2Qc 0
  end.

Definition accepted_time (tokens : list string) : Qc :=
  fold_right (fun token acc => (accepted_dur token + acc)%Qc) (Q2Qc 0) tokens.

Lemma apply_token_time (st : dec_state) (i : nat) (token : string) :
  current_time (apply_token py_int py_float st i token)
  = (current_time st + accepted_dur token)%Qc.
Proof.
  rewrite apply_token_cases. unfold accepted_dur, malformedb.
  destruct (token_fields py_float token) as [[[on_part off_part] dur_part] |];
    [| cbn [report current_time]; ring].
  destruct (pitch_field py_int off_part) as [offs |];
    [| cbn [report current_time]; ring].
  destruct (pitch_field py_int on_part) as [ons |]; cbn [report advance current_time].
  - destruct (fold_note_on_time ons (fold_left note_off offs st)) as [-> _].
    now destruct (fold_note_off_time offs st) as [-> _].
  - destruct (fold_note_off_time offs st) as [-> _]. ring.
Qed.

Lemma decode_from_time (tokens : list string) (i : nat) (st : dec_state) :
  current_time (decode_from py_int py_float i tokens st)
  = (current_time st + accepted_time tokens)%Qc.
Proof.
  revert i st. induction tokens as [| token rest IH]; intros i st.
  - cbn [decode_from accepted_time fold_right]. ring.
  - cbn [decode_from]. rewrite IH, apply_token_time.
    change (accepted_time (token :: rest))
      with (accepted_dur token + accepted_time rest)%Qc. ring.
Qed.

(** X22.  The decoder's clock after the loop is the sum of the DUR values
    of the tokens that were read completely: a token that raises, even
    after its OFF pitches have been applied, does not move the clock. *)
Theorem decoder_clock_sum (tokens : list string) :
  current_time (decode_loop py_int py_float tokens) = accepted_time tokens.
Proof.
  unfold decode_loop. rewrite decode_from_time. cbn [current_time]. ring.
Qed.

End DecoderTime.
